(** * Mushroom environmental control system: persistence, sync and control

    A shallow embedding of [app.py] (the running application), of the
    stand-alone [database_service.py] and of the constants of [config.py],
    followed by the properties of the offline-first store, the catch-up
    sync, the sensor gateway, the control policy and the acquisition loop.

    Conventions of the embedding.
    - Python floats that carry sensor values are rationals ([Q]): every
      finite float is a rational and the comparisons of the control policy
      against integer thresholds are exact on them.  [round] and [int] are
      taken on the rationals.
    - An instant ([datetime]) is an integer count of microseconds.  The
      clock is an input of every function that reads it; nothing makes it
      monotonic.
    - A pymongo [Database] handle is tested with [if self.local_mongo_db:]
      in [app.py]; the embedding reads that test as "is not None", which is
      what [database_service.py] writes out.
    - A MongoDB server is a list of documents in natural (storage) order,
      which is the order of insertion, with a script of upcoming faults:
      each driver call consumes one entry and raises when the entry is
      [true].  A sort keeps the storage order of equal keys.
    - Sensor hardware, the simulation's waveforms and exceptions that come
      out of a step of the loop are inputs as well. *)

From Stdlib Require Import List ZArith QArith Qround Bool String Lia Lqa.
From Stdlib Require Import Sorted.
Import ListNotations.

Set Implicit Arguments.

(** ** Python values used by the code *)

(** Exceptions that the modelled code can meet.  The last two derive from
    [BaseException] only, so [except Exception] does not catch them. *)
Inductive PyExn : Type :=
| ConnectionFailure      (* pymongo: server unreachable or timed out *)
| DuplicateKeyError      (* pymongo.errors.DuplicateKeyError *)
| TypeError
| KeyError
| AttributeError
| OSError                (* hardware and transport faults *)
| KeyboardInterrupt
| SystemExit.

Definition is_Exception (e : PyExn) : bool :=
  match e with
  | KeyboardInterrupt | SystemExit => false
  | _ => true
  end.

Inductive Res (A : Type) : Type :=
| Ok (a : A)
| Raise (e : PyExn).
Arguments Ok {A} a.
Arguments Raise {A} e.

(** Which server a pymongo [Database] handle points to. *)
Inductive Database : Type := LocalServer | AtlasServer.

Definition Database_eqb (a b : Database) : bool :=
  match a, b with
  | LocalServer, LocalServer | AtlasServer, AtlasServer => true
  | _, _ => false
  end.

(** The value under the key ['_id']: an ObjectId minted by a server, the
    integer that the in-memory store assigns, or [str(...)] of one. *)
Inductive IdVal : Type :=
| ObjectId (origin : Database) (n : nat)
| IntId (n : nat)
| StrOf (i : IdVal).

Fixpoint IdVal_eqb (a b : IdVal) : bool :=
  match a, b with
  | ObjectId o n, ObjectId o' n' => Database_eqb o o' && Nat.eqb n n'
  | IntId n, IntId n' => Nat.eqb n n'
  | StrOf i, StrOf i' => IdVal_eqb i i'
  | _, _ => false
  end.

(** [str(x)]: a string is its own [str]. *)
Definition py_str (i : IdVal) : IdVal :=
  match i with
  | StrOf _ => i
  | _ => StrOf i
  end.

(** The value under ['server_timestamp']: a [datetime] or the string that
    [isoformat()] made of one.  ISO-8601 strings of UTC instants are
    fixed-width up to the seconds and compare like the instants, so the
    string is represented by its instant. *)
Inductive TsVal : Type :=
| TsDatetime (t : Z)
| TsIso (t : Z).

Definition instant (v : TsVal) : Z :=
  match v with TsDatetime t | TsIso t => t end.

Definition is_datetime (v : TsVal) : bool :=
  match v with TsDatetime _ => true | TsIso _ => false end.

(** [if isinstance(v, datetime): v = v.isoformat()] *)
Definition isoformat_if_datetime (v : TsVal) : TsVal :=
  match v with
  | TsDatetime t => TsIso t
  | TsIso t => TsIso t
  end.

(** ** Numbers *)

Definition Qlt_bool (x y : Q) : bool := negb (Qle_bool y x).

(** [int(x)]: truncation towards zero. *)
Definition py_int (x : Q) : Z := Z.quot (Qnum x) (Zpos (Qden x)).

(** [round(x)] to the nearest integer, ties to even. *)
Definition round_half_even (x : Q) : Z :=
  let f := Qfloor x in
  match Qcompare (x - inject_Z f) (1 # 2) with
  | Lt => f
  | Gt => (f + 1)%Z
  | Eq => if Z.even f then f else (f + 1)%Z
  end.

(** [round(x, 1)] *)
Definition py_round1 (x : Q) : Q := (round_half_even (x * 10) # 10)%Q.

(** ** Documents *)

(** The dictionary that travels from the sensor gateway to the stores.  The
    sensor keys are always present; the keys that the stores add or pop are
    optional. *)
Record Doc : Type := mkDoc {
  temperature : Q;
  humidity : Q;
  co2 : Z;
  light_intensity : Z;
  water_level : Q;
  timestamp : Z;
  device_id : string;
  server_timestamp : option TsVal;
  _id : option IdVal;
  synced_to_atlas : option bool
}.

Definition set_server_timestamp (v : option TsVal) (d : Doc) : Doc :=
  mkDoc (temperature d) (humidity d) (co2 d) (light_intensity d)
        (water_level d) (timestamp d) (device_id d) v (_id d)
        (synced_to_atlas d).

Definition set_device_id (s : string) (d : Doc) : Doc :=
  mkDoc (temperature d) (humidity d) (co2 d) (light_intensity d)
        (water_level d) (timestamp d) s (server_timestamp d) (_id d)
        (synced_to_atlas d).

Definition set_id (i : option IdVal) (d : Doc) : Doc :=
  mkDoc (temperature d) (humidity d) (co2 d) (light_intensity d)
        (water_level d) (timestamp d) (device_id d) (server_timestamp d) i
        (synced_to_atlas d).

Definition set_synced (b : option bool) (d : Doc) : Doc :=
  mkDoc (temperature d) (humidity d) (co2 d) (light_intensity d)
        (water_level d) (timestamp d) (device_id d) (server_timestamp d)
        (_id d) b.

Definition DEVICE_ID : string := "raspberry-pi-01".

(** ** Sorting, slicing and the order of timestamps *)

(** A stable insertion sort: [x] goes before the first [y] with [le x y]. *)
Fixpoint insert_by {A} (le : A -> A -> bool) (x : A) (l : list A) : list A :=
  match l with
  | [] => [x]
  | y :: rest => if le x y then x :: y :: rest else y :: insert_by le x rest
  end.

Fixpoint sort_by {A} (le : A -> A -> bool) (l : list A) : list A :=
  match l with
  | [] => []
  | x :: rest => insert_by le x (sort_by le rest)
  end.

(** Python's [l[:limit]]. *)
Definition py_slice_to {A} (limit : Z) (l : list A) : list A :=
  if (0 <=? limit)%Z then firstn (Z.to_nat limit) l
  else firstn (List.length l - Z.to_nat (- limit)) l.

(** A cursor's [.limit(n)]: zero means no limit, a negative limit counts
    like its absolute value. *)
Definition cursor_limit {A} (limit : Z) (l : list A) : list A :=
  if (limit =? 0)%Z then l else firstn (Z.to_nat (Z.abs limit)) l.

(** MongoDB's comparison order on the values found under
    ['server_timestamp']: a missing field sorts like null, below strings,
    which sort below dates. *)
Definition bson_rank (v : option TsVal) : Z :=
  match v with
  | None => 0
  | Some (TsIso _) => 1
  | Some (TsDatetime _) => 2
  end.

Definition bson_instant (v : option TsVal) : Z :=
  match v with
  | None => 0
  | Some v => instant v
  end.

Definition bson_leb (a b : option TsVal) : bool :=
  (bson_rank a <? bson_rank b)%Z
  || ((bson_rank a =? bson_rank b)%Z && (bson_instant a <=? bson_instant b)%Z).

(** [.sort('server_timestamp', direction)] for [direction] 1 and -1. *)
Inductive Direction : Type := Ascending | Descending.

Definition cursor_sort (dir : Direction) (l : list Doc) : list Doc :=
  match dir with
  | Ascending =>
      sort_by (fun a b => bson_leb (server_timestamp a) (server_timestamp b)) l
  | Descending =>
      sort_by (fun a b => bson_leb (server_timestamp b) (server_timestamp a)) l
  end.

(** The filter [{'server_timestamp': {'$gte': cutoff}}] with a date
    [cutoff]: only dates are compared with a date. *)
Definition ts_gte (cutoff : Z) (d : Doc) : bool :=
  match server_timestamp d with
  | Some (TsDatetime t) => (cutoff <=? t)%Z
  | _ => false
  end.

(** [datetime.utcnow() - timedelta(hours=hours)], in microseconds. *)
Definition hours_before (now hours : Z) : Z := (now - hours * 3600000000)%Z.

(** ** MongoDB servers and the driver calls the code makes *)

Record Mongo : Type := mkMongo {
  readings : list Doc;      (* the [readings] collection, natural order *)
  next_oid : nat;           (* counter behind the ObjectIds it mints *)
  faults : list bool        (* outcome of the upcoming driver calls *)
}.

Definition empty_mongo : Mongo := mkMongo [] 0 [].

(** One round trip to the server: consumes one entry of the fault script. *)
Definition pop_fault (m : Mongo) : bool * Mongo :=
  match faults m with
  | [] => (false, m)
  | b :: fs => (b, mkMongo (readings m) (next_oid m) fs)
  end.

(** The two servers and the process environment ([MONGODB_URI] set or not). *)
Record Net : Type := mkNet {
  local_srv : Mongo;
  atlas_srv : Mongo;
  mongodb_uri : bool
}.

Definition server (db : Database) (n : Net) : Mongo :=
  match db with
  | LocalServer => local_srv n
  | AtlasServer => atlas_srv n
  end.

Definition set_server (db : Database) (m : Mongo) (n : Net) : Net :=
  match db with
  | LocalServer => mkNet m (atlas_srv n) (mongodb_uri n)
  | AtlasServer => mkNet (local_srv n) m (mongodb_uri n)
  end.

(** ** A state-and-exception monad

    A method of a service object runs on the object's attributes ([Self])
    and on the servers; state changes made before an exception is raised
    are kept, as in Python. *)
Section Monad.
Variable Self : Type.

Definition M (A : Type) : Type := Self -> Net -> Res A * Self * Net.

Definition ret {A} (a : A) : M A := fun s n => (Ok a, s, n).

Definition bind {A B} (c : M A) (k : A -> M B) : M B :=
  fun s n =>
    match c s n with
    | (Ok a, s', n') => k a s' n'
    | (Raise e, s', n') => (Raise e, s', n')
    end.

Definition raise {A} (e : PyExn) : M A := fun s n => (Raise e, s, n).

Definition get_self : M Self := fun s n => (Ok s, s, n).

Definition modify_self (f : Self -> Self) : M unit :=
  fun s n => (Ok tt, f s, n).

(** [try: c  except Exception as e: h e] *)
Definition try_except {A} (c : M A) (h : PyExn -> M A) : M A :=
  fun s n =>
    match c s n with
    | (Ok a, s', n') => (Ok a, s', n')
    | (Raise e, s', n') =>
        if is_Exception e then h e s' n' else (Raise e, s', n')
    end.

(** [try: c  except errors.DuplicateKeyError: h] *)
Definition try_except_duplicate {A} (c : M A) (h : M A) : M A :=
  fun s n =>
    match c s n with
    | (Raise DuplicateKeyError, s', n') => h s' n'
    | r => r
    end.

(** [for x in l: body x] *)
Fixpoint for_each {A} (l : list A) (body : A -> M unit) : M unit :=
  match l with
  | [] => ret tt
  | x :: rest => bind (body x) (fun _ => for_each rest body)
  end.

(** *** Driver calls *)

Definition has_id (i : IdVal) (d : Doc) : bool :=
  match _id d with
  | Some j => IdVal_eqb i j
  | None => false
  end.

(** [client.server_info()] and [collection.create_index(...)]: a round
    trip that changes nothing. *)
Definition ping (db : Database) : M unit :=
  fun s n =>
    let '(bad, m) := pop_fault (server db n) in
    if bad then (Raise ConnectionFailure, s, set_server db m n)
    else (Ok tt, s, set_server db m n).

(** [db.readings.insert_one(d)]: appends [d]; mints an ObjectId when [d]
    has no ['_id'], refuses an ['_id'] that is already stored.  Returns
    [inserted_id]. *)
Definition insert_one (db : Database) (d : Doc) : M IdVal :=
  fun s n =>
    let '(bad, m) := pop_fault (server db n) in
    if bad then (Raise ConnectionFailure, s, set_server db m n)
    else
      match _id d with
      | Some i =>
          if existsb (has_id i) (readings m)
          then (Raise DuplicateKeyError, s, set_server db m n)
          else (Ok i, s,
                set_server db
                  (mkMongo (readings m ++ [d]) (next_oid m) (faults m)) n)
      | None =>
          let i := ObjectId db (next_oid m) in
          (Ok i, s,
           set_server db
             (mkMongo (readings m ++ [set_id (Some i) d])
                      (S (next_oid m)) (faults m)) n)
      end.

(** [list(db.readings.find(q))]: the matching documents in natural
    order. *)
Definition find (db : Database) (q : Doc -> bool) : M (list Doc) :=
  fun s n =>
    let '(bad, m) := pop_fault (server db n) in
    if bad then (Raise ConnectionFailure, s, set_server db m n)
    else (Ok (filter q (readings m)), s, set_server db m n).

(** [list(db.readings.find(q).sort('server_timestamp', dir).limit(limit))] *)
Definition find_sorted (db : Database) (q : Doc -> bool) (dir : Direction)
  (limit : Z) : M (list Doc) :=
  fun s n =>
    let '(bad, m) := pop_fault (server db n) in
    if bad then (Raise ConnectionFailure, s, set_server db m n)
    else (Ok (cursor_limit limit (cursor_sort dir (filter q (readings m)))),
          s, set_server db m n).

(** The filter [{'synced_to_atlas': {'$ne': True}}]. *)
Definition not_synced (d : Doc) : bool :=
  match synced_to_atlas d with
  | Some true => false
  | _ => true
  end.

(** What [update_one({'_id': i}, {'$set': {'synced_to_atlas': True}})]
    does to the collection: the first document with that ['_id']. *)
Fixpoint mark_synced_one (i : IdVal) (l : list Doc) : list Doc :=
  match l with
  | [] => []
  | d :: rest =>
      if has_id i d then set_synced (Some true) d :: rest
      else d :: mark_synced_one i rest
  end.

(** What [update_many({'synced_to_atlas': {'$ne': True}},
    {'$set': {'synced_to_atlas': True}})] does to the collection. *)
Definition mark_synced_many (l : list Doc) : list Doc :=
  map (fun d => if not_synced d then set_synced (Some true) d else d) l.

Definition update_one_synced (db : Database) (i : IdVal) : M unit :=
  fun s n =>
    let '(bad, m) := pop_fault (server db n) in
    if bad then (Raise ConnectionFailure, s, set_server db m n)
    else (Ok tt, s,
          set_server db
            (mkMongo (mark_synced_one i (readings m)) (next_oid m)
                     (faults m)) n).

Definition update_many_synced (db : Database) : M unit :=
  fun s n =>
    let '(bad, m) := pop_fault (server db n) in
    if bad then (Raise ConnectionFailure, s, set_server db m n)
    else (Ok tt, s,
          set_server db
            (mkMongo (mark_synced_many (readings m)) (next_oid m)
                     (faults m)) n).
End Monad.

Arguments ret {Self A} a.
Arguments raise {Self A} e.
Arguments get_self {Self}.
Arguments modify_self {Self} f.

Declare Scope py_scope.
Delimit Scope py_scope with py.
Notation "x <- c ;; k" := (bind c (fun x => k))
  (at level 61, c at next level, right associativity) : py_scope.
Notation "c ;; k" := (bind c (fun _ => k))
  (at level 61, right associativity) : py_scope.
Open Scope py_scope.

(** ** [app.py] *)
Module App.

(** *** [DatabaseService] *)

(** The attributes of the service object.  [simulation_data] is [None] when
    the attribute was never created ([hasattr] is false). *)
Record DatabaseService : Type := mkDb {
  local_mongo_db : option Database;
  atlas_mongo_db : option Database;
  using_atlas : bool;
  simulation_data : option (list Doc)
}.

Definition set_local (h : option Database) (s : DatabaseService) :=
  mkDb h (atlas_mongo_db s) (using_atlas s) (simulation_data s).
Definition set_atlas (h : option Database) (s : DatabaseService) :=
  mkDb (local_mongo_db s) h (using_atlas s) (simulation_data s).
Definition set_using_atlas (b : bool) (s : DatabaseService) :=
  mkDb (local_mongo_db s) (atlas_mongo_db s) b (simulation_data s).
Definition set_simulation_data (l : option (list Doc)) (s : DatabaseService) :=
  mkDb (local_mongo_db s) (atlas_mongo_db s) (using_atlas s) l.

Definition DbM := M DatabaseService.

(** [setup_local_mongodb]: any failure leaves no local handle and creates
    the in-memory list. *)
Definition setup_local_mongodb : DbM unit :=
  try_except
    (modify_self (set_local (Some LocalServer)) ;;
     ping LocalServer ;;          (* server_info() *)
     ping LocalServer ;;          (* create_index(device_id, server_timestamp) *)
     ping LocalServer)            (* create_index(server_timestamp) *)
    (fun _ =>
       modify_self (set_local None) ;;
       modify_self (set_simulation_data (Some []))).

(** What is popped from a local document before it goes to Atlas. *)
Definition strip_local_fields (d : Doc) : Doc :=
  set_synced None (set_id None d).

(** [sync_offline_data] *)
Definition sync_offline_data : DbM unit :=
  s <- get_self ;;
  match atlas_mongo_db s, local_mongo_db s with
  | Some atlas, Some local =>
      try_except
        (unsynced_data <- find local not_synced ;;
         match unsynced_data with
         | [] => ret tt
         | _ :: _ =>
             for_each unsynced_data
               (fun doc =>
                  _ <- insert_one atlas (strip_local_fields doc) ;; ret tt) ;;
             update_many_synced local
         end)
        (fun _ => ret tt)
  | _, _ => ret tt
  end.

(** [connect_atlas]: [Some true] / [Some false] for the two [return]s,
    [None] when no URI is configured and the method falls off its end. *)
Definition connect_atlas : DbM (option bool) :=
  try_except
    (fun s n =>
       if mongodb_uri n then
         (modify_self (set_atlas (Some AtlasServer)) ;;
          ping AtlasServer ;;
          modify_self (set_using_atlas true) ;;
          sync_offline_data ;;
          ret (Some true)) s n
       else ret None s n)
    (fun _ =>
       modify_self (set_using_atlas false) ;;
       modify_self (set_atlas None) ;;
       ret (Some false)).

Definition setup_databases : DbM unit :=
  setup_local_mongodb ;;
  _ <- connect_atlas ;;
  ret tt.

(** [__init__]: the attributes before [setup_databases] runs. *)
Definition init_db : DatabaseService := mkDb None None false None.

Definition new_DatabaseService (n : Net) : DatabaseService * Net :=
  let '(_, s, n') := setup_databases init_db n in (s, n').

(** [save_reading(data)] at clock reading [now]; returns [str] of the new
    ['_id'] or [None].  The stored document is the caller's dictionary with
    the keys the method adds. *)
Definition save_reading (now : Z) (data0 : Doc) : DbM (option IdVal) :=
  let data := set_device_id DEVICE_ID
                (set_server_timestamp (Some (TsDatetime now)) data0) in
  try_except
    (s <- get_self ;;
     match local_mongo_db s with
     | Some local =>
         let data := set_synced (Some false) data in
         inserted_id <- insert_one local data ;;
         s' <- get_self ;;
         match using_atlas s', atlas_mongo_db s' with
         | true, Some atlas =>
             try_except
               (_ <- insert_one atlas (strip_local_fields data) ;;
                update_one_synced local inserted_id)
               (fun _ => ret tt)
         | _, _ => ret tt
         end ;;
         ret (Some (py_str inserted_id))
     | None =>
         match simulation_data s with
         | Some sim =>
             let new_id := IntId (List.length sim + 1) in
             modify_self
               (set_simulation_data
                  (Some (sim ++ [set_id (Some new_id) data]))) ;;
             ret (Some (py_str new_id))
         | None => ret None
         end
     end)
    (fun _ => ret None).

(** The body of the loops that prepare documents for the caller:
    [doc['_id'] = str(doc['_id'])] and the ISO conversion of a [datetime]
    under ['server_timestamp']. *)
Definition stringify_doc (d : Doc) : Res Doc :=
  match _id d with
  | None => Raise KeyError
  | Some i =>
      Ok (set_server_timestamp
            (option_map isoformat_if_datetime (server_timestamp d))
            (set_id (Some (py_str i)) d))
  end.

(** [for doc in cursor: ...; readings.append(doc)] on documents fetched
    from a server (fresh copies). *)
Fixpoint stringify_all (l : list Doc) : Res (list Doc) :=
  match l with
  | [] => Ok []
  | d :: rest =>
      match stringify_doc d with
      | Raise e => Raise e
      | Ok d' =>
          match stringify_all rest with
          | Raise e => Raise e
          | Ok rest' => Ok (d' :: rest')
          end
      end
  end.

Definition lift_res {A} (r : Res A) : DbM A := fun s n => (r, s, n).

Definition has_device_id (d : Doc) : bool := String.eqb (device_id d) DEVICE_ID.

(** The in-memory store holds the very dictionaries that the query hands
    out, so the query's conversions are writes to the store.  Documents are
    addressed by their position in [simulation_data]. *)
Fixpoint update_nth {A} (i : nat) (x : A) (l : list A) : list A :=
  match l, i with
  | [], _ => []
  | _ :: rest, O => x :: rest
  | y :: rest, S j => y :: update_nth j x rest
  end.

Definition enumerate {A} (l : list A) : list (nat * A) :=
  combine (seq 0 (List.length l)) l.

Definition has_server_timestamp (d : Doc) : bool :=
  match server_timestamp d with Some _ => true | None => false end.

Definition ts_is_datetime (d : Doc) : bool :=
  match server_timestamp d with Some v => is_datetime v | None => false end.

Definition ts_is_iso (d : Doc) : bool :=
  match server_timestamp d with Some v => negb (is_datetime v) | None => false end.

(** Python's [>=] on two keys of one kind. *)
Definition ts_geb (a b : Doc) : bool :=
  (bson_instant (server_timestamp b) <=? bson_instant (server_timestamp a))%Z.

(** [sorted(l, key=lambda x: x['server_timestamp'], reverse=True)], with the
    positions of the documents: [KeyError] when a key is missing,
    [TypeError] when a [datetime] meets a [str]. *)
Definition sorted_newest_first (l : list Doc) : Res (list (nat * Doc)) :=
  if forallb has_server_timestamp l then
    if forallb ts_is_datetime l || forallb ts_is_iso l then
      Ok (sort_by (fun a b => ts_geb (snd a) (snd b)) (enumerate l))
    else Raise TypeError
  else Raise KeyError.

(** [for doc in readings: ...] on the store's own dictionaries. *)
Fixpoint stringify_in_place (idxs : list nat) (store : list Doc)
  : Res unit * list Doc :=
  match idxs with
  | [] => (Ok tt, store)
  | i :: rest =>
      match nth_error store i with
      | None => (Ok tt, store)
      | Some d =>
          match stringify_doc d with
          | Raise e => (Raise e, store)
          | Ok d' => stringify_in_place rest (update_nth i d' store)
          end
      end
  end.

Fixpoint pick {A} (idxs : list nat) (store : list A) : list A :=
  match idxs with
  | [] => []
  | i :: rest =>
      match nth_error store i with
      | None => pick rest store
      | Some d => d :: pick rest store
      end
  end.

(** The [try] block of [get_latest_readings(limit)]. *)
Definition get_latest_readings_body (limit : Z) : DbM (list Doc) :=
  s <- get_self ;;
  match local_mongo_db s with
  | Some local =>
      cursor <- find_sorted local has_device_id Descending limit ;;
      lift_res (stringify_all cursor)
  | None =>
      match simulation_data s with
      | Some sim =>
          sorted <- lift_res (sorted_newest_first sim) ;;
          let idxs := map fst (py_slice_to limit sorted) in
          let '(r, sim') := stringify_in_place idxs sim in
          modify_self (set_simulation_data (Some sim')) ;;
          _ <- lift_res r ;;
          ret (pick idxs sim')
      | None => ret []
      end
  end.

(** [get_latest_readings(limit)] *)
Definition get_latest_readings (limit : Z) : DbM (list Doc) :=
  try_except (get_latest_readings_body limit) (fun _ => ret []).

(** The [try] block of [get_historical_data(hours, limit)]. *)
Definition get_historical_data_body (now hours limit : Z) : DbM (list Doc) :=
  let time_threshold := hours_before now hours in
  s <- get_self ;;
  match local_mongo_db s with
  | Some local =>
      cursor <- find_sorted local
                  (fun d => ts_gte time_threshold d && has_device_id d)
                  Descending limit ;;
      lift_res (stringify_all cursor)
  | None => ret []
  end.

(** [get_historical_data(hours, limit)] at clock reading [now]. *)
Definition get_historical_data (now hours limit : Z) : DbM (list Doc) :=
  try_except (get_historical_data_body now hours limit) (fun _ => ret []).

(** One pass of [database_health_monitor]: reconnect when not connected. *)
Definition database_health_monitor_pass : DbM unit :=
  try_except
    (s <- get_self ;;
     if using_atlas s then ret tt else (_ <- connect_atlas ;; ret tt))
    (fun _ => ret tt).

(** *** Constants imported from [config.py] *)

(** The entries of [MUSHROOM_CONFIG] that the control policy reads. *)
Record ControlConfig : Type := mkControlConfig {
  humidity_min : Q;        (* optimal_ranges.humidity.min *)
  humidity_max : Q;        (* optimal_ranges.humidity.max *)
  fogger_duration : Z;     (* control_settings.fogger_duration *)
  on_hour : Z;             (* control_settings.light_schedule.on_hour *)
  off_hour : Z             (* control_settings.light_schedule.off_hour *)
}.

Definition MUSHROOM_CONFIG : ControlConfig := mkControlConfig 80 95 30 6 18.

Definition SENSOR_READ_INTERVAL : Z := 10.

(** [SENSOR_CONFIG['calibration_offsets']] and ['reservoir_config']. *)
Definition offset_temperature : Q := 0.
Definition offset_humidity : Q := 0.
Definition offset_co2 : Q := 0.
Definition offset_light_intensity : Q := 0.
Definition offset_water_level : Q := 0.
Definition max_depth_cm : Q := 30.
Definition min_depth_cm : Q := 5.
Definition sensor_height_cm : Q := 35.

(** *** [GPIOControlService] *)

(** The module-level flags and, for one control cycle, whether a call on
    the fogger, fan or lights output device raises. *)
Record Platform : Type := mkPlatform {
  GPIO_AVAILABLE : bool;
  SIMULATION_MODE : bool;
  fogger_fault : bool;
  fan_fault : bool;
  lights_fault : bool
}.

(** A call of one of the [control_*] methods. *)
Inductive Command : Type :=
| FoggerCommand (activate : bool) (duration : option Z)
| FanCommand (speed_percent : Z)
| LightsCommand (activate : bool).

(** The attributes of the service, the output pins behind its devices, the
    pending auto-off timers and the log of the calls made so far. *)
Record GPIOControlService : Type := mkGpio {
  fogger_active : bool;
  fan_speed : Z;
  heater_active : bool;
  lights_active : bool;
  fogger_pin : bool;
  fan_pin : bool;
  lights_pin : bool;
  timers : list Z;
  calls : list Command
}.

(** [__init__]: everything off. *)
Definition init_gpio : GPIOControlService :=
  mkGpio false 0 false false false false false [] [].

Definition log_call (c : Command) (g : GPIOControlService) :=
  mkGpio (fogger_active g) (fan_speed g) (heater_active g) (lights_active g)
         (fogger_pin g) (fan_pin g) (lights_pin g) (timers g) (calls g ++ [c]).

Definition simulated (p : Platform) : bool :=
  negb (GPIO_AVAILABLE p) || SIMULATION_MODE p.

(** [control_fogger(activate, duration)] *)
Definition control_fogger (p : Platform) (activate : bool)
  (duration : option Z) (g0 : GPIOControlService) : GPIOControlService :=
  let g := log_call (FoggerCommand activate duration) g0 in
  if simulated p then
    mkGpio activate (fan_speed g) (heater_active g) (lights_active g)
           (fogger_pin g) (fan_pin g) (lights_pin g) (timers g) (calls g)
  else if fogger_fault p then g
  else if activate then
    mkGpio true (fan_speed g) (heater_active g) (lights_active g)
           true (fan_pin g) (lights_pin g)
           (match duration with           (* if duration: Timer(...).start() *)
            | Some d => if (d =? 0)%Z then timers g else timers g ++ [d]
            | None => timers g
            end)
           (calls g)
  else
    mkGpio false (fan_speed g) (heater_active g) (lights_active g)
           false (fan_pin g) (lights_pin g) (timers g) (calls g).

(** [control_fan(speed_percent)] *)
Definition control_fan (p : Platform) (speed_percent : Z)
  (g0 : GPIOControlService) : GPIOControlService :=
  let g := log_call (FanCommand speed_percent) g0 in
  if simulated p then
    mkGpio (fogger_active g) speed_percent (heater_active g) (lights_active g)
           (fogger_pin g) (fan_pin g) (lights_pin g) (timers g) (calls g)
  else if fan_fault p then g
  else
    mkGpio (fogger_active g) speed_percent (heater_active g) (lights_active g)
           (fogger_pin g) (0 <? speed_percent)%Z (lights_pin g) (timers g)
           (calls g).

(** [control_lights(activate)] *)
Definition control_lights (p : Platform) (activate : bool)
  (g0 : GPIOControlService) : GPIOControlService :=
  let g := log_call (LightsCommand activate) g0 in
  if simulated p then
    mkGpio (fogger_active g) (fan_speed g) (heater_active g) activate
           (fogger_pin g) (fan_pin g) (lights_pin g) (timers g) (calls g)
  else if lights_fault p then g
  else
    mkGpio (fogger_active g) (fan_speed g) (heater_active g) activate
           (fogger_pin g) (fan_pin g) activate (timers g) (calls g).

(** [auto_control_environment(sensor_data)] at local hour [current_hour].
    On a reading with all its keys nothing in the body raises: the device
    faults are caught inside the [control_*] methods. *)
Definition auto_control_environment (cfg : ControlConfig) (p : Platform)
  (current_hour : Z) (sensor_data : Doc) (g0 : GPIOControlService)
  : GPIOControlService :=
  let humidity := humidity sensor_data in
  let water_level := water_level sensor_data in
  (* Check water level first - disable fogger if water is too low *)
  let g1 :=
    if Qlt_bool water_level 15 then
      if fogger_active g0 then control_fogger p false None g0 else g0
    else g0 in
  (* Auto-fogger control based on humidity *)
  let g2 :=
    if Qlt_bool humidity (humidity_min cfg - 5)
       && negb (fogger_active g1) && Qlt_bool 20 water_level
    then control_fogger p true (Some (fogger_duration cfg)) g1
    else g1 in
  (* Auto-fan control based on humidity *)
  let g3 :=
    if Qlt_bool (humidity_max cfg + 5) humidity && (fan_speed g2 <? 50)%Z
    then control_fan p 50 g2
    else if Qle_bool humidity (humidity_max cfg) && (0 <? fan_speed g2)%Z
    then control_fan p 0 g2
    else g2 in
  (* Auto-light control based on time *)
  let should_lights_be_on :=
    (on_hour cfg <=? current_hour)%Z && (current_hour <? off_hour cfg)%Z in
  if Bool.eqb should_lights_be_on (lights_active g3) then g3
  else control_lights p should_lights_be_on g3.

(** *** [SensorService] *)

(** The attributes of the service: the dictionary built by [__init__] and
    whether each sensor object exists. *)
Record SensorService : Type := mkSensors {
  current_data : Doc;
  scd40 : bool;
  bh1750 : bool;
  water_sensor : bool
}.

(** [__init__] at clock reading [now]: the default values. *)
Definition init_current_data (now : Z) : Doc :=
  mkDoc 22 65 400 500 75 now DEVICE_ID None None None.

(** What one poll of the SCD40 can give. *)
Inductive Scd40Read : Type :=
| Scd40Raises
| Scd40NotReady
| Scd40Ready (temp : option Q) (relative_humidity : option Q) (CO2 : option Q).

(** What the outside world supplies to one call of [read_sensors]: the
    hardware outcomes ([None] where the driver call raises), the values the
    simulation would compute, and the clock. *)
Record SensorInputs : Type := mkInputs {
  scd40_read : Scd40Read;
  light_bytes : option (Z * Z);     (* the two bytes read from the BH1750 *)
  distance_m : option Q;            (* [DistanceSensor.distance] *)
  sim_temperature : Q;
  sim_humidity : Q;
  sim_co2 : Z;
  sim_light_intensity : Z;
  sim_water_level : Q;
  clock : Z
}.

(** [round(x, 2)] *)
Definition py_round2 (x : Q) : Q := (round_half_even (x * 100) # 100)%Q.

(** [BH1750.read_light_level] on an open bus. *)
Definition read_light_level (inp : SensorInputs) : option Q :=
  match light_bytes inp with
  | None => None
  | Some (hi, lo) =>
      Some (py_round1 (inject_Z (Z.lor (Z.shiftl hi 8) lo) / (12 # 10)))
  end.

(** [read_ultrasonic_distance] *)
Definition read_ultrasonic_distance (svc : SensorService)
  (inp : SensorInputs) : option Q :=
  if water_sensor svc then
    match distance_m inp with
    | None => None
    | Some d => Some (py_round2 (d * 100))
    end
  else None.

Definition Qmin (a b : Q) : Q := if Qle_bool a b then a else b.
Definition Qmax (a b : Q) : Q := if Qle_bool a b then b else a.

(** [calculate_water_level_percentage] on a distance that was read. *)
Definition calculate_water_level_percentage (distance_cm : Q) : Q :=
  let water_depth := Qmax 0 (Qmin max_depth_cm (sensor_height_cm - distance_cm)) in
  if Qle_bool water_depth min_depth_cm then 0
  else py_round1 ((water_depth - min_depth_cm) / (max_depth_cm - min_depth_cm) * 100).

Definition set_temperature (v : Q) (d : Doc) : Doc :=
  mkDoc v (humidity d) (co2 d) (light_intensity d) (water_level d)
        (timestamp d) (device_id d) (server_timestamp d) (_id d)
        (synced_to_atlas d).
Definition set_humidity (v : Q) (d : Doc) : Doc :=
  mkDoc (temperature d) v (co2 d) (light_intensity d) (water_level d)
        (timestamp d) (device_id d) (server_timestamp d) (_id d)
        (synced_to_atlas d).
Definition set_co2 (v : Z) (d : Doc) : Doc :=
  mkDoc (temperature d) (humidity d) v (light_intensity d) (water_level d)
        (timestamp d) (device_id d) (server_timestamp d) (_id d)
        (synced_to_atlas d).
Definition set_light_intensity (v : Z) (d : Doc) : Doc :=
  mkDoc (temperature d) (humidity d) (co2 d) v (water_level d)
        (timestamp d) (device_id d) (server_timestamp d) (_id d)
        (synced_to_atlas d).
Definition set_water_level (v : Q) (d : Doc) : Doc :=
  mkDoc (temperature d) (humidity d) (co2 d) (light_intensity d) v
        (timestamp d) (device_id d) (server_timestamp d) (_id d)
        (synced_to_atlas d).
Definition set_timestamp (v : Z) (d : Doc) : Doc :=
  mkDoc (temperature d) (humidity d) (co2 d) (light_intensity d)
        (water_level d) v (device_id d) (server_timestamp d) (_id d)
        (synced_to_atlas d).

(** [read_sensors]: starts from a copy of [current_data], overwrites the
    fields that were read, returns the copy.  The method assigns nothing to
    [self]. *)
Definition read_sensors (p : Platform) (svc : SensorService)
  (inp : SensorInputs) : Doc :=
  let data := current_data svc in
  if SIMULATION_MODE p then
    set_timestamp (clock inp)
      (set_water_level (sim_water_level inp)
         (set_light_intensity (sim_light_intensity inp)
            (set_co2 (sim_co2 inp)
               (set_humidity (sim_humidity inp)
                  (set_temperature (sim_temperature inp) data)))))
  else
    (* Read SCD40 (temperature, humidity, CO2) *)
    let data :=
      if scd40 svc then
        match scd40_read inp with
        | Scd40Ready (Some temp) (Some hum) (Some c) =>
            set_co2 (py_int (c + offset_co2))
              (set_humidity (py_round1 (hum + offset_humidity))
                 (set_temperature (py_round1 (temp + offset_temperature)) data))
        | _ => data
        end
      else data in
    (* Read BH1750 light sensor *)
    let data :=
      if bh1750 svc then
        match read_light_level inp with
        | Some light_lux =>
            set_light_intensity (py_int (light_lux + offset_light_intensity)) data
        | None => data
        end
      else data in
    (* Read water level via ultrasonic sensor *)
    let data :=
      match read_ultrasonic_distance svc inp with
      | Some distance =>
          set_water_level
            (calculate_water_level_percentage distance + offset_water_level) data
      | None => data
      end in
    set_timestamp (clock inp) data.

(** [get_sensor_data] *)
Definition get_sensor_data := read_sensors.

(** *** The acquisition loop *)

Inductive Step : Type := ReadStep | ControlStep | SaveStep | PublishStep.

(** What the outside world supplies to one pass of the loop.  [escapes st]
    is an exception that comes out of step [st] instead of its result. *)
Record Tick : Type := mkTick {
  inputs : SensorInputs;
  platform : Platform;
  current_hour : Z;
  utcnow : Z;
  escapes : Step -> option PyExn
}.

(** The module-level service objects, the servers, what was emitted on the
    socket and the sleeps taken so far (in seconds, oldest first). *)
Record World : Type := mkWorld {
  sensor_service : SensorService;
  gpio_control : GPIOControlService;
  db_service : DatabaseService;
  net : Net;
  published : list (Doc * GPIOControlService);
  sleeps : list Z
}.

Definition sleep (seconds : Z) (w : World) : World :=
  mkWorld (sensor_service w) (gpio_control w) (db_service w) (net w)
          (published w) (sleeps w ++ [seconds]).

(** The body of the [try] in [sensor_monitor], up to the final sleep. *)
Definition cycle (t : Tick) (w : World) : Res unit * World :=
  match escapes t ReadStep with
  | Some e => (Raise e, w)
  | None =>
      let sensor_data :=
        get_sensor_data (platform t) (sensor_service w) (inputs t) in
      match escapes t ControlStep with
      | Some e => (Raise e, w)
      | None =>
          let g := auto_control_environment MUSHROOM_CONFIG (platform t)
                     (current_hour t) sensor_data (gpio_control w) in
          let w1 := mkWorld (sensor_service w) g (db_service w) (net w)
                            (published w) (sleeps w) in
          match escapes t SaveStep with
          | Some e => (Raise e, w1)
          | None =>
              let '(r, db, n) :=
                save_reading (utcnow t) sensor_data (db_service w1) (net w1) in
              let w2 := mkWorld (sensor_service w1) g db n
                                (published w1) (sleeps w1) in
              match r with
              | Raise e => (Raise e, w2)
              | Ok _ =>
                  match escapes t PublishStep with
                  | Some e => (Raise e, w2)
                  | None =>
                      (Ok tt,
                       mkWorld (sensor_service w2) g db n
                               (published w2 ++ [(sensor_data, g)])
                               (sleeps w2))
                  end
              end
          end
      end
  end.

Inductive LoopStatus : Type :=
| Looping                 (* still inside [while True] *)
| Exited (e : PyExn).     (* an exception left the function *)

(** [sensor_monitor], run for as many passes as there are ticks. *)
Fixpoint sensor_monitor (ticks : list Tick) (w : World) : LoopStatus * World :=
  match ticks with
  | [] => (Looping, w)
  | t :: rest =>
      match cycle t w with
      | (Ok _, w') => sensor_monitor rest (sleep SENSOR_READ_INTERVAL w')
      | (Raise e, w') =>
          if is_Exception e then sensor_monitor rest (sleep 5 w')
          else (Exited e, w')
      end
  end.

(** *** Status reports *)

Inductive DatabaseType : Type :=
| SimulationStorage       (* 'Simulation Storage' *)
| MongoDBAtlas            (* 'MongoDB Atlas' *)
| LocalMongoDB            (* 'Local MongoDB' *)
| NoDatabase.             (* 'None' *)

Record DatabaseStatus : Type := mkStatus {
  status_local_mongodb : bool;
  status_atlas_connected : bool;
  status_database_type : DatabaseType;
  status_offline_mode : bool
}.

Definition hasattr_simulation_data (s : DatabaseService) : bool :=
  match simulation_data s with Some _ => true | None => false end.

Definition is_not_None {A} (o : option A) : bool :=
  match o with Some _ => true | None => false end.

(** [DatabaseService.get_database_status] *)
Definition get_database_status (s : DatabaseService) : DatabaseStatus :=
  let db_type :=
    if hasattr_simulation_data s then SimulationStorage
    else if using_atlas s then MongoDBAtlas
    else LocalMongoDB in
  mkStatus (is_not_None (local_mongo_db s) || hasattr_simulation_data s)
           (using_atlas s) db_type (negb (using_atlas s)).

(** [GPIOControlService.get_control_status]: the four attributes. *)
Definition get_control_status (g : GPIOControlService)
  : bool * Z * bool * bool :=
  (fogger_active g, fan_speed g, heater_active g, lights_active g).

End App.

(** ** [database_service.py] *)
Module DbService.

Record DatabaseService : Type := mkDb {
  local_db : option Database;
  atlas_db : option Database;
  using_atlas : bool
}.

Definition set_local (h : option Database) (s : DatabaseService) :=
  mkDb h (atlas_db s) (using_atlas s).
Definition set_atlas (h : option Database) (s : DatabaseService) :=
  mkDb (local_db s) h (using_atlas s).
Definition set_using_atlas (b : bool) (s : DatabaseService) :=
  mkDb (local_db s) (atlas_db s) b.

Definition DbM := M DatabaseService.

Definition lift_res {A} (r : Res A) : DbM A := fun s n => (r, s, n).

(** [save_reading(data)] at clock reading [now]: Atlas first, then always
    the local server. *)
Definition save_reading (now : Z) (data : Doc) : DbM bool :=
  try_except
    (let reading := set_server_timestamp (Some (TsDatetime now)) data in
     s <- get_self ;;
     match using_atlas s, atlas_db s with
     | true, Some atlas =>
         try_except
           (_ <- insert_one atlas reading ;; ret tt)
           (fun _ => modify_self (set_using_atlas false))
     | _, _ => ret tt
     end ;;
     s' <- get_self ;;
     match local_db s' with
     | Some local =>
         try_except
           (_ <- insert_one local reading ;; ret true)
           (fun _ => ret false)
     | None => ret false
     end)
    (fun _ => ret false).

(** [sync_offline_data] at clock reading [now]: the last 24 hours of the
    local store, duplicates skipped. *)
Definition sync_offline_data (now : Z) : DbM unit :=
  s <- get_self ;;
  match atlas_db s, local_db s with
  | Some atlas, Some local =>
      try_except
        (local_readings <- find local (ts_gte (hours_before now 24)) ;;
         for_each local_readings
           (fun reading =>
              try_except_duplicate
                (_ <- insert_one atlas reading ;; ret tt)
                (ret tt)))
        (fun _ => ret tt)
  | _, _ => ret tt
  end.

(** The loop body of both queries: [str] of the ['_id'], [isoformat()] of
    the timestamp when the key is there. *)
Definition stringify_doc (d : Doc) : Res Doc :=
  match _id d with
  | None => Raise KeyError
  | Some i =>
      match server_timestamp d with
      | Some (TsIso _) => Raise AttributeError
      | Some (TsDatetime t) =>
          Ok (set_server_timestamp (Some (TsIso t)) (set_id (Some (py_str i)) d))
      | None => Ok (set_id (Some (py_str i)) d)
      end
  end.

Fixpoint stringify_all (l : list Doc) : Res (list Doc) :=
  match l with
  | [] => Ok []
  | d :: rest =>
      match stringify_doc d with
      | Raise e => Raise e
      | Ok d' =>
          match stringify_all rest with
          | Raise e => Raise e
          | Ok rest' => Ok (d' :: rest')
          end
      end
  end.

(** [self.atlas_db if (self.using_atlas and self.atlas_db is not None)
    else self.local_db] *)
Definition read_db (s : DatabaseService) : option Database :=
  match using_atlas s, atlas_db s with
  | true, Some atlas => Some atlas
  | _, _ => local_db s
  end.

(** The [try] block of [get_latest_readings(limit)]. *)
Definition get_latest_readings_body (limit : Z) : DbM (list Doc) :=
  s <- get_self ;;
  match read_db s with
  | Some db =>
      cursor <- find_sorted db (fun _ => true) Descending limit ;;
      lift_res (stringify_all cursor)
  | None => ret []
  end.

(** [get_latest_readings(limit)] *)
Definition get_latest_readings (limit : Z) : DbM (list Doc) :=
  try_except (get_latest_readings_body limit) (fun _ => ret []).

(** The [try] block of [get_historical_data(hours)]; the cursor has no
    limit. *)
Definition get_historical_data_body (now hours : Z) : DbM (list Doc) :=
  s <- get_self ;;
  match read_db s with
  | Some db =>
      cursor <- find_sorted db (ts_gte (hours_before now hours)) Ascending 0 ;;
      lift_res (stringify_all cursor)
  | None => ret []
  end.

(** [get_historical_data(hours)] at clock reading [now]. *)
Definition get_historical_data (now hours : Z) : DbM (list Doc) :=
  try_except (get_historical_data_body now hours) (fun _ => ret []).

(** [setup_local_mongodb]: on a failure no handle and nothing else. *)
Definition setup_local_mongodb : DbM unit :=
  try_except
    (modify_self (set_local (Some LocalServer)) ;;
     ping LocalServer ;;          (* server_info() *)
     ping LocalServer ;;          (* create_index(device_id, server_timestamp) *)
     ping LocalServer)            (* create_index(server_timestamp) *)
    (fun _ => modify_self (set_local None)).

(** [connect_atlas] at clock reading [now]. *)
Definition connect_atlas (now : Z) : DbM (option bool) :=
  try_except
    (fun s n =>
       if mongodb_uri n then
         (modify_self (set_atlas (Some AtlasServer)) ;;
          ping AtlasServer ;;
          modify_self (set_using_atlas true) ;;
          sync_offline_data now ;;
          ret (Some true)) s n
       else ret None s n)
    (fun _ =>
       modify_self (set_using_atlas false) ;;
       modify_self (set_atlas None) ;;
       ret (Some false)).

(** [__init__] at clock reading [now]. *)
Definition new_DatabaseService (now : Z) (n : Net) : DatabaseService * Net :=
  let '(_, s, n') :=
    (setup_local_mongodb ;; _ <- connect_atlas now ;; ret tt)
      (mkDb None None false) n in
  (s, n').

(** [get_database_status]: local connected, Atlas connected, offline mode
    and the database type. *)
Definition get_database_status (s : DatabaseService)
  : bool * bool * bool * App.DatabaseType :=
  let local_connected := App.is_not_None (local_db s) in
  let atlas_connected := App.is_not_None (atlas_db s) && using_atlas s in
  (local_connected, atlas_connected, negb atlas_connected,
   if atlas_connected then App.MongoDBAtlas
   else if local_connected then App.LocalMongoDB
   else App.NoDatabase).

(** [test_connections]: [server_info()] and [count_documents({})] on each
    configured server; a failing Atlas clears [using_atlas]. *)
Definition test_connections : DbM unit :=
  s <- get_self ;;
  match local_db s with
  | Some local => try_except (ping local ;; ping local) (fun _ => ret tt)
  | None => ret tt
  end ;;
  s' <- get_self ;;
  match atlas_db s' with
  | Some atlas =>
      try_except (ping atlas ;; ping atlas)
                 (fun _ => modify_self (set_using_atlas false))
  | None => ret tt
  end.

End DbService.

(** * Vocabulary of the properties *)

Import App.

Unset Implicit Arguments.

(** ** Control policy *)

(** The calls that a control step added to the log. *)
Definition new_calls (g g' : GPIOControlService) : list Command :=
  skipn (List.length (calls g)) (calls g').


(** The speeds of the fan commands in a list of calls. *)
Fixpoint fan_speeds (l : list Command) : list Z :=
  match l with
  | [] => []
  | FanCommand s :: rest => s :: fan_speeds rest
  | _ :: rest => fan_speeds rest
  end.

(** The four rules of [auto_control_environment], one after the other. *)
Definition veto_rule (p : Platform) (d : Doc) (g : GPIOControlService) :=
  if Qlt_bool (water_level d) 15 then
    if fogger_active g then control_fogger p false None g else g
  else g.

Definition fogger_rule (cfg : ControlConfig) (p : Platform) (d : Doc)
  (g : GPIOControlService) :=
  if Qlt_bool (humidity d) (humidity_min cfg - 5)
     && negb (fogger_active g) && Qlt_bool 20 (water_level d)
  then control_fogger p true (Some (fogger_duration cfg)) g
  else g.

Definition fan_rule (cfg : ControlConfig) (p : Platform) (d : Doc)
  (g : GPIOControlService) :=
  if Qlt_bool (humidity_max cfg + 5) (humidity d) && (fan_speed g <? 50)%Z
  then control_fan p 50 g
  else if Qle_bool (humidity d) (humidity_max cfg) && (0 <? fan_speed g)%Z
  then control_fan p 0 g
  else g.

Definition lights_rule (cfg : ControlConfig) (p : Platform) (hour : Z)
  (g : GPIOControlService) :=
  let should := (on_hour cfg <=? hour)%Z && (hour <? off_hour cfg)%Z in
  if Bool.eqb should (lights_active g) then g else control_lights p should g.

Definition fan_decision (cfg : ControlConfig) (d : Doc) (speed : Z) : list Command :=
  if Qlt_bool (humidity_max cfg + 5) (humidity d) && (speed <? 50)%Z
  then [FanCommand 50]
  else if Qle_bool (humidity d) (humidity_max cfg) && (0 <? speed)%Z
  then [FanCommand 0]
  else [].

(** ** Computations of the services *)

(** A computation raises nothing that [except Exception] would miss. *)
Definition raises_only_Exceptions {Self A} (c : M Self A) : Prop :=
  forall s n e s' n', c s n = (Raise e, s', n') -> is_Exception e = true.

(** A computation always returns a value. *)
Definition never_raises {Self A} (c : M Self A) : Prop :=
  forall s n, exists a s' n', c s n = (Ok a, s', n').

Definition res_only_Exceptions {A} (r : Res A) : Prop :=
  match r with
  | Ok _ => True
  | Raise e => is_Exception e = true
  end.

(** ** Acquisition loop *)

(** Some step of the pass lets an exception out. *)
Definition faulty (t : Tick) : bool :=
  existsb (fun st => match escapes t st with Some _ => true | None => false end)
          [ReadStep; ControlStep; SaveStep; PublishStep].

(** The sleep that ends a pass: the fixed 5 s after a fault, the read
    interval otherwise. *)
Definition backoff (t : Tick) : Z :=
  if faulty t then 5%Z else SENSOR_READ_INTERVAL.

(** Every exception that the outside world injects derives from
    [Exception]. *)
Definition ordinary_faults (ticks : list Tick) : Prop :=
  forall t st e, In t ticks -> escapes t st = Some e -> is_Exception e = true.

(** ** Concrete inputs used in the examples *)

(** Real hardware, no device fault. *)
Definition pi_platform : Platform := mkPlatform true false false false false.

(** All three sensors answer: 25.0 degrees, 70.0 %, 600 ppm, 300 raw light
    counts (250 lux), 0.20 m to the water surface (40 %). *)
Definition good_inputs (now : Z) : SensorInputs :=
  mkInputs (Scd40Ready (Some 25) (Some 70) (Some 600)) (Some (1, 44)%Z)
           (Some (2 # 10)) 0 0 0 0 0 now.

(** Every sensor fails. *)
Definition failed_inputs (now : Z) : SensorInputs :=
  mkInputs Scd40Raises None None 0 0 0 0 0 now.

Definition no_escape : Step -> option PyExn := fun _ => None.

Definition escape_at (st : Step) (e : PyExn) : Step -> option PyExn :=
  fun st' =>
    match st, st' with
    | ReadStep, ReadStep | ControlStep, ControlStep
    | SaveStep, SaveStep | PublishStep, PublishStep => Some e
    | _, _ => None
    end.

(** The world after start-up with all sensors present, a reachable local
    server and no Atlas URI. *)
Definition started_world : World :=
  let '(db, n) := new_DatabaseService (mkNet empty_mongo empty_mongo false) in
  mkWorld (mkSensors (init_current_data 0) true true true) init_gpio db n [] [].

(** ** Persistence *)

(** A computation leaves an attribute (or any view [f]) of the service
    object as it was, whether it returns or raises. *)
Definition keeps {Self A B} (f : Self -> B) (c : M Self A) : Prop :=
  forall s n, f (snd (fst (c s n))) = f s.

(** The service of [app.py] connected to both servers. *)
Definition connected : App.DatabaseService :=
  App.mkDb (Some LocalServer) (Some AtlasServer) true None.

(** The service of [database_service.py] connected to both servers. *)
Definition db_connected : DbService.DatabaseService :=
  DbService.mkDb (Some LocalServer) (Some AtlasServer) true.

(** Both servers empty; Atlas fails the next call and works again after. *)
Definition atlas_outage : Net := mkNet empty_mongo (mkMongo [] 0 [true]) true.

(** A reading as the sensor gateway hands it over. *)
Definition reading0 : Doc := init_current_data 0.

(** A run of [save_reading] calls, each with its clock reading. *)
Fixpoint save_all (saves : list (Z * Doc)) (s : App.DatabaseService) (n : Net)
  : App.DatabaseService * Net :=
  match saves with
  | [] => (s, n)
  | (now, d) :: rest =>
      let '(_, s', n') := App.save_reading now d s n in save_all rest s' n'
  end.

(** The number of records in the in-memory store. *)
Definition buffered (s : App.DatabaseService) : nat :=
  match App.simulation_data s with
  | Some l => List.length l
  | None => 0
  end.

(** The service after a start-up at which the local server did not
    answer. *)
Definition fallback_start : App.DatabaseService * Net :=
  new_DatabaseService (mkNet (mkMongo [] 0 [true]) empty_mongo false).

(** C5 as the specification words it: some fixed bound holds for the
    in-memory store after every run of saves in fallback mode. *)
Definition buffer_bounded : Prop :=
  exists bound : nat,
    forall saves,
      (buffered (fst (save_all saves (fst fallback_start) (snd fallback_start)))
       <= bound)%nat.

(** The document that [save_reading] puts into the in-memory store. *)
Definition buffered_doc (position : nat) (now : Z) (d : Doc) : Doc :=
  set_id (Some (IntId (position + 1)))
    (set_device_id DEVICE_ID (set_server_timestamp (Some (TsDatetime now)) d)).

(** *** The replicated flag *)

(** A record and its later version: same ['_id'], and a flag that was
    true is still true. *)
Definition rec_le (d d' : Doc) : Prop :=
  _id d' = _id d
  /\ (synced_to_atlas d = Some true -> synced_to_atlas d' = Some true).

(** A collection and its later state: every record is still there, in
    place, in a later version; new records come after. *)
Definition store_le (l l' : list Doc) : Prop :=
  exists kept new, l' = kept ++ new /\ Forall2 rec_le l kept.

Definition local_le (n n' : Net) : Prop :=
  store_le (readings (local_srv n)) (readings (local_srv n')).

(** A computation steps the servers along a relation, whether it returns
    or raises. *)
Definition steps {Self A} (R : Net -> Net -> Prop) (c : M Self A) : Prop :=
  forall s n, R n (snd (c s n)).

(** The operations of the persistence core of [app.py]. *)
Inductive CoreOp : Type :=
| OpSave (now : Z) (d : Doc)
| OpSync
| OpConnect
| OpHealthMonitor
| OpLatest (limit : Z)
| OpHistorical (now hours limit : Z).

Definition forget {A} (c : App.DbM A) : App.DbM unit := _ <- c ;; ret tt.

Definition run_op (op : CoreOp) : App.DbM unit :=
  match op with
  | OpSave now d => forget (App.save_reading now d)
  | OpSync => App.sync_offline_data
  | OpConnect => forget App.connect_atlas
  | OpHealthMonitor => App.database_health_monitor_pass
  | OpLatest limit => forget (App.get_latest_readings limit)
  | OpHistorical now hours limit =>
      forget (App.get_historical_data now hours limit)
  end.

Fixpoint run_ops (ops : list CoreOp) (s : App.DatabaseService) (n : Net)
  : App.DatabaseService * Net :=
  match ops with
  | [] => (s, n)
  | op :: rest => let '(_, s', n') := run_op op s n in run_ops rest s' n'
  end.

(** The number of records flagged as replicated. *)
Definition replicated_count (l : list Doc) : nat :=
  List.length (filter (fun d => negb (not_synced d)) l).

(** *** Catch-up sync *)

(** What a computation appended to the Atlas collection. *)
Definition inserted_by (n n' : Net) : list Doc :=
  skipn (List.length (readings (atlas_srv n))) (readings (atlas_srv n')).

(** The instant under ['server_timestamp']. *)
Definition ts_of (d : Doc) : Z := bson_instant (server_timestamp d).

Definition ts_le (d d' : Doc) : Prop := (ts_of d <= ts_of d')%Z.

(** The unreplicated records of the local store, in storage order. *)
Definition unreplicated (n : Net) : list Doc :=
  filter not_synced (readings (local_srv n)).

(** C1 as the specification words it: of two unreplicated records the one
    with the smaller [server_timestamp] is inserted into Atlas first. *)
Definition sync_in_timestamp_order (s : App.DatabaseService) (n : Net) : Prop :=
  let inserted :=
    map (set_id None) (inserted_by n (snd (App.sync_offline_data s n))) in
  forall r1 r2,
    In r1 (unreplicated n) -> In r2 (unreplicated n) ->
    (ts_of r1 < ts_of r2)%Z ->
    exists i j, (i < j)%nat
                /\ nth_error inserted i = Some (App.strip_local_fields r1)
                /\ nth_error inserted j = Some (App.strip_local_fields r2).

(** Start-up with both servers reachable, then two saves during an Atlas
    outage between which the clock was set back from 200 to 100. *)
Definition clock_set_back : App.DatabaseService * Net :=
  let '(s0, n0) :=
    new_DatabaseService (mkNet empty_mongo (mkMongo [] 0 [false; true; true]) true) in
  save_all [(200%Z, reading0); (100%Z, reading0)] s0 n0.

(** The servers answer every call from now on. *)
Definition servers_up (n : Net) : Prop :=
  faults (local_srv n) = [] /\ faults (atlas_srv n) = [].

(** Start-up with both servers reachable, then two saves during an Atlas
    outage with the clock running forward from 100 to 200. *)
Definition clock_forward : App.DatabaseService * Net :=
  let '(s0, n0) :=
    new_DatabaseService (mkNet empty_mongo (mkMongo [] 0 [false; true; true]) true) in
  save_all [(100%Z, reading0); (200%Z, reading0)] s0 n0.

(** *** Order of the query results *)

Definition newest_first (l : list Doc) : Prop :=
  StronglySorted (fun a b => ts_le b a) l.

Definition oldest_first (l : list Doc) : Prop := StronglySorted ts_le l.

(** Every record of both servers carries a [datetime] under
    ['server_timestamp'], as the records written by [save_reading] do. *)
Definition dated (n : Net) : Prop :=
  forall db, Forall (fun d => ts_is_datetime d = true) (readings (server db n)).

(** The instants of what a query returned; nothing if it raised. *)
Definition answered {Self} (out : Res (list Doc) * Self * Net) : list Z :=
  match fst (fst out) with
  | Ok l => map ts_of l
  | Raise _ => []
  end.

(** The service of [database_service.py] on the local server alone. *)
Definition db_local_only : DbService.DatabaseService :=
  DbService.mkDb (Some LocalServer) None false.

(** * Vocabulary of the further properties *)

(** ** Control policy *)

(** The light schedule: on in the window [[on_hour, off_hour)]. *)
Definition should_lights_be_on (cfg : ControlConfig) (hour : Z) : bool :=
  (on_hour cfg <=? hour)%Z && (hour <? off_hour cfg)%Z.

(** The guard of the fogger rule on a reading, for a fogger that is off. *)
Definition fogger_wanted (cfg : ControlConfig) (d : Doc) : bool :=
  Qlt_bool (humidity d) (humidity_min cfg - 5) && Qlt_bool 20 (water_level d).

(** No output device raises during the cycle. *)
Definition devices_ok (p : Platform) : Prop :=
  simulated p = true
  \/ (fogger_fault p = false /\ fan_fault p = false /\ lights_fault p = false).

(** The speeds that the policy ever sets. *)
Definition policy_speed (s : Z) : Prop := s = 0%Z \/ s = 50%Z.

(** ** Sensor gateway *)

(** The water depth that [calculate_water_level_percentage] works on:
    sensor height minus distance, clamped to [[0, max_depth_cm]]. *)
Definition clamped_depth (distance_cm : Q) : Q :=
  Qmax 0 (Qmin max_depth_cm (sensor_height_cm - distance_cm)).

(** The three values of the SCD40 in a reading. *)
Definition scd40_fields (d : Doc) : Q * Q * Z :=
  (temperature d, humidity d, co2 d).

(** The SCD40 delivered all three values. *)
Definition scd40_complete (svc : SensorService) (inp : SensorInputs) : Prop :=
  scd40 svc = true
  /\ exists t h c, scd40_read inp = Scd40Ready (Some t) (Some h) (Some c).

(** ** Persistence *)

(** One of the three start-up calls on the local server fails. *)
Definition local_setup_fails (n : Net) : bool :=
  existsb (fun b => b) (firstn 3 (faults (local_srv n))).

(** The Atlas server answers the start-up probe. *)
Definition atlas_probe_ok (n : Net) : bool :=
  mongodb_uri n && negb (hd false (faults (atlas_srv n))).

(** The ObjectIds that the local server minted are below its counter, so
    the next one is new. *)
Definition oid_fresh (m : Mongo) : Prop :=
  forall d k, In d (readings m) -> _id d = Some (ObjectId LocalServer k) ->
              (k < next_oid m)%nat.

(** The local server takes the insert: it answers the call, and the
    reading brings no ['_id'] that is already stored. *)
Definition save_accepted (d : Doc) (n : Net) : bool :=
  negb (hd false (faults (local_srv n)))
  && match _id d with
     | Some i => negb (existsb (has_id i) (readings (local_srv n)))
     | None => true
     end.

(** The reading with the keys that [save_reading] adds before the local
    insert. *)
Definition stamped (now : Z) (d : Doc) : Doc :=
  set_synced (Some false)
    (set_device_id DEVICE_ID (set_server_timestamp (Some (TsDatetime now)) d)).




(** One turn of the insert loop of [sync_offline_data]. *)
Definition push_to_atlas (doc : Doc) : App.DbM unit :=
  _ <- insert_one AtlasServer (App.strip_local_fields doc) ;; ret tt.

(** The service in fallback mode: no local handle, the in-memory list. *)
Definition in_memory (atlas : option Database) (ua : bool) (sim : list Doc)
  : App.DatabaseService := App.mkDb None atlas ua (Some sim).

(** The list holds a [datetime] and an ISO string under
    ['server_timestamp']. *)
Definition mixed_kinds (sim : list Doc) : Prop :=
  existsb ts_is_datetime sim = true /\ existsb ts_is_iso sim = true.

(** Documents as [save_reading] appends them to the list: a [datetime]
    under ['server_timestamp'] and an ['_id']. *)
Definition saved_in_memory (sim : list Doc) : Prop :=
  Forall (fun d => ts_is_datetime d = true /\ _id d <> None) sim.

(** *** [database_service.py] *)

(** One turn of the insert loop of [sync_offline_data] of
    [database_service.py]: the document as it is, a duplicate key skipped. *)
Definition push_with_id (reading : Doc) : DbService.DbM unit :=
  try_except_duplicate (_ <- insert_one AtlasServer reading ;; ret tt) (ret tt).

(** The local documents that the sync of [database_service.py] looks at:
    those stamped within the 24 hours before [now]. *)
Definition last_day (now : Z) (n : Net) : list Doc :=
  filter (ts_gte (hours_before now 24)) (readings (local_srv n)).

(** Atlas holds a document under the ['_id'] of [d]. *)
Definition in_atlas (n : Net) (d : Doc) : Prop :=
  exists i, _id d = Some i /\ existsb (has_id i) (readings (atlas_srv n)) = true.

(** No document in Atlas carries the ObjectId that the local server
    mints next. *)
Definition local_id_unused (n : Net) : Prop :=
  forall x, In x (readings (atlas_srv n)) ->
            has_id (ObjectId LocalServer (next_oid (local_srv n))) x = false.

(** The server takes an insert of [d]: it answers the call, and [d] brings
    no ['_id'] that is already stored. *)
Definition takes (db : Database) (d : Doc) (n : Net) : bool :=
  negb (hd false (faults (server db n)))
  && match _id d with
     | Some i => negb (existsb (has_id i) (readings (server db n)))
     | None => true
     end.

(** The document as the server stores it: under its own ['_id'] or under a
    new ObjectId. *)
Definition stored_as (db : Database) (d : Doc) (n : Net) : Doc :=
  match _id d with
  | Some _ => d
  | None => set_id (Some (ObjectId db (next_oid (server db n)))) d
  end.

(** [self.using_atlas and self.atlas_db is not None] *)
Definition atlas_tried (s : DbService.DatabaseService) : bool :=
  DbService.using_atlas s && App.is_not_None (DbService.atlas_db s).

(** Each handle, when there is one, is on its own server. *)
Definition handles_ok (s : DbService.DatabaseService) : Prop :=
  DbService.local_db s <> Some AtlasServer
  /\ DbService.atlas_db s <> Some LocalServer.


(** *** Answers of the queries *)

(** A document of this device, its ['_id'] turned into a string. *)
Definition answer_of_device (d : Doc) : Prop :=
  device_id d = DEVICE_ID /\ exists i, _id d = Some (StrOf i).

(** Stamped at [cutoff] or later, the stamp converted to an ISO string. *)
Definition stamped_since (cutoff : Z) (d : Doc) : Prop :=
  exists t, server_timestamp d = Some (TsIso t) /\ (cutoff <= t)%Z.

(** At most [|limit|] documents, unless the limit is 0 (no limit). *)
Definition within_limit (limit : Z) (l : list Doc) : Prop :=
  limit <> 0%Z -> (Z.of_nat (List.length l) <= Z.abs limit)%Z.

(** *** The light sensor *)

(** The lux value that [read_sensors] stores for the two bytes of a
    measurement. *)
Definition stored_lux (hi lo : Z) : Z :=
  py_int (py_round1 (inject_Z (Z.lor (Z.shiftl hi 8) lo) / (12 # 10))
          + offset_light_intensity).

(** The values of a byte. *)
Definition bytes : list Z := map Z.of_nat (seq 0 256).

(** A value that [read_i2c_block_data] can deliver. *)
Definition is_byte (b : Z) : Prop := (0 <= b < 256)%Z.

(** *** What the replicated flag says *)

(** Atlas holds a copy of the local record [d]: the record without its
    local keys, under an ['_id'] of Atlas. *)
Definition has_copy (n : Net) (d : Doc) : Prop :=
  exists a, In a (readings (atlas_srv n))
            /\ set_id None a = App.strip_local_fields d.

(** Every local record flagged as replicated has its copy in Atlas. *)
Definition flag_sound (n : Net) : Prop :=
  forall d, In d (readings (local_srv n)) ->
            synced_to_atlas d = Some true -> has_copy n d.

(** Each handle of the service of [app.py], when there is one, is on its
    own server. *)
Definition app_handles_ok (s : App.DatabaseService) : Prop :=
  App.local_mongo_db s <> Some AtlasServer
  /\ App.atlas_mongo_db s <> Some LocalServer.

(** The readings handed to [save_reading] bring no ['_id'], as the
    dictionaries of the sensor gateway do. *)
Definition fresh_saves (ops : list CoreOp) : Prop :=
  Forall (fun op => match op with
                    | OpSave _ d => _id d = None
                    | _ => True
                    end) ops.

(** The invariant of the local store: new ObjectIds are new, and the flag
    tells the truth. *)
Definition sound (n : Net) : Prop := oid_fresh (local_srv n) /\ flag_sound n.

(** The servers hold what they held: only the outcomes of calls were
    consumed. *)
Definition same_data (n n' : Net) : Prop :=
  readings (local_srv n') = readings (local_srv n)
  /\ next_oid (local_srv n') = next_oid (local_srv n)
  /\ readings (atlas_srv n') = readings (atlas_srv n).

(** *** Runs of [database_service.py] *)

(** The operations of [database_service.py] after start-up. *)
Inductive DbOp : Type :=
| DbSave (now : Z) (d : Doc)
| DbSync (now : Z)
| DbLatest (limit : Z)
| DbHistorical (now hours : Z)
| DbTestConnections.

Definition db_forget {A} (c : DbService.DbM A) : DbService.DbM unit :=
  _ <- c ;; ret tt.

Definition run_db_op (op : DbOp) : DbService.DbM unit :=
  match op with
  | DbSave now d => db_forget (DbService.save_reading now d)
  | DbSync now => DbService.sync_offline_data now
  | DbLatest limit => db_forget (DbService.get_latest_readings limit)
  | DbHistorical now hours => db_forget (DbService.get_historical_data now hours)
  | DbTestConnections => DbService.test_connections
  end.

Fixpoint run_db_ops (ops : list DbOp) (s : DbService.DatabaseService) (n : Net)
  : DbService.DatabaseService * Net :=
  match ops with
  | [] => (s, n)
  | op :: rest => let '(_, s', n') := run_db_op op s n in run_db_ops rest s' n'
  end.

(** A computation moves the service object along a relation, whether it
    returns or raises. *)
Definition moves {Self A} (R : Self -> Self -> Prop) (c : M Self A) : Prop :=
  forall s n, R s (snd (fst (c s n))).

(** Same handles, and [using_atlas] set only if it was set. *)
Definition stays_offline (s s' : DbService.DatabaseService) : Prop :=
  DbService.local_db s' = DbService.local_db s
  /\ DbService.atlas_db s' = DbService.atlas_db s
  /\ (DbService.using_atlas s' = true -> DbService.using_atlas s = true).

(** * Properties *)

(** ** Helper facts *)

Lemma Qlt_bool_iff (x y : Q) : Qlt_bool x y = true <-> (x < y)%Q.
Proof.
  unfold Qlt_bool. rewrite negb_true_iff.
  split; intro H.
  - apply Qnot_le_lt. intro Hle. apply Qle_bool_iff in Hle. congruence.
  - destruct (Qle_bool y x) eqn:E; [|reflexivity].
    apply Qle_bool_iff in E. exfalso. exact (Qlt_not_le _ _ H E).
Qed.

Lemma Qlt_bool_false_iff (x y : Q) : Qlt_bool x y = false <-> (y <= x)%Q.
Proof.
  unfold Qlt_bool. rewrite negb_false_iff. apply Qle_bool_iff.
Qed.

Lemma Qle_bool_false_iff (x y : Q) : Qle_bool x y = false <-> (y < x)%Q.
Proof.
  split; intro H.
  - apply Qnot_le_lt. intro Hle. apply Qle_bool_iff in Hle. congruence.
  - destruct (Qle_bool x y) eqn:E; [|reflexivity].
    apply Qle_bool_iff in E. exfalso. exact (Qlt_not_le _ _ H E).
Qed.

(** ** The control policy *)

Lemma skipn_length_app {A} (l x : list A) : skipn (List.length l) (l ++ x) = x.
Proof. induction l as [|a l IH]; simpl; auto. Qed.


(** Each [control_*] method logs exactly its own call. *)
Lemma calls_control_fogger p a d g :
  calls (control_fogger p a d g) = calls g ++ [FoggerCommand a d].
Proof.
  unfold control_fogger.
  destruct (simulated p), (fogger_fault p), a; reflexivity.
Qed.

Lemma calls_control_fan p s g :
  calls (control_fan p s g) = calls g ++ [FanCommand s].
Proof.
  unfold control_fan. destruct (simulated p), (fan_fault p); reflexivity.
Qed.

Lemma calls_control_lights p a g :
  calls (control_lights p a g) = calls g ++ [LightsCommand a].
Proof.
  unfold control_lights. destruct (simulated p), (lights_fault p); reflexivity.
Qed.

Lemma auto_control_rules cfg p hour d g :
  auto_control_environment cfg p hour d g
  = lights_rule cfg p hour (fan_rule cfg p d (fogger_rule cfg p d (veto_rule p d g))).
Proof. reflexivity. Qed.

(** What each rule adds to the log. *)
Lemma veto_rule_calls p d g :
  calls (veto_rule p d g)
  = calls g ++ (if Qlt_bool (water_level d) 15 && fogger_active g
                then [FoggerCommand false None] else []).
Proof.
  unfold veto_rule.
  destruct (Qlt_bool (water_level d) 15), (fogger_active g); simpl;
    rewrite ?calls_control_fogger, ?app_nil_r; reflexivity.
Qed.

Lemma fogger_rule_calls cfg p d g :
  calls (fogger_rule cfg p d g)
  = calls g ++ (if Qlt_bool (humidity d) (humidity_min cfg - 5)
                   && negb (fogger_active g) && Qlt_bool 20 (water_level d)
                then [FoggerCommand true (Some (fogger_duration cfg))] else []).
Proof.
  unfold fogger_rule.
  destruct (Qlt_bool (humidity d) (humidity_min cfg - 5)
            && negb (fogger_active g) && Qlt_bool 20 (water_level d));
    rewrite ?calls_control_fogger, ?app_nil_r; reflexivity.
Qed.

Lemma fan_rule_calls cfg p d g :
  calls (fan_rule cfg p d g) = calls g ++ fan_decision cfg d (fan_speed g).
Proof.
  unfold fan_rule, fan_decision.
  destruct (Qlt_bool (humidity_max cfg + 5) (humidity d) && (fan_speed g <? 50)%Z).
  - apply calls_control_fan.
  - destruct (Qle_bool (humidity d) (humidity_max cfg) && (0 <? fan_speed g)%Z).
    + apply calls_control_fan.
    + now rewrite app_nil_r.
Qed.

Lemma lights_rule_calls cfg p hour g :
  exists l, calls (lights_rule cfg p hour g) = calls g ++ l
            /\ forall c, In c l -> exists a, c = LightsCommand a.
Proof.
  unfold lights_rule.
  destruct (Bool.eqb _ _).
  - exists []. rewrite app_nil_r. split; [reflexivity|]. intros c [].
  - eexists. split; [apply calls_control_lights|].
    intros c [<-|[]]. eauto.
Qed.

(** The fogger and lights rules leave the fan alone, the veto and fogger
    rules leave the fan speed alone. *)
Lemma fan_speed_control_fogger p a d g :
  fan_speed (control_fogger p a d g) = fan_speed g.
Proof.
  unfold control_fogger.
  destruct (simulated p), (fogger_fault p), a; reflexivity.
Qed.

Lemma fan_speed_control_lights p a g :
  fan_speed (control_lights p a g) = fan_speed g.
Proof.
  unfold control_lights. destruct (simulated p), (lights_fault p); reflexivity.
Qed.

Lemma fan_speed_veto_rule p d g : fan_speed (veto_rule p d g) = fan_speed g.
Proof.
  unfold veto_rule.
  destruct (Qlt_bool _ _), (fogger_active g);
    rewrite ?fan_speed_control_fogger; reflexivity.
Qed.

Lemma fan_speed_fogger_rule cfg p d g :
  fan_speed (fogger_rule cfg p d g) = fan_speed g.
Proof.
  unfold fogger_rule.
  destruct (_ && _); rewrite ?fan_speed_control_fogger; reflexivity.
Qed.

Lemma fan_speed_lights_rule cfg p hour g :
  fan_speed (lights_rule cfg p hour g) = fan_speed g.
Proof.
  unfold lights_rule.
  destruct (Bool.eqb _ _); rewrite ?fan_speed_control_lights; reflexivity.
Qed.

Lemma new_calls_app g g' x : calls g' = calls g ++ x -> new_calls g g' = x.
Proof. unfold new_calls. intros ->. apply skipn_length_app. Qed.

(** The fan and lights rules do not touch the fogger. *)
Lemma fogger_fan_rule cfg p d g :
  fogger_active (fan_rule cfg p d g) = fogger_active g
  /\ fogger_pin (fan_rule cfg p d g) = fogger_pin g.
Proof.
  unfold fan_rule, control_fan.
  destruct (_ && _); [|destruct (_ && _)];
    destruct (simulated p), (fan_fault p); split; reflexivity.
Qed.

Lemma fogger_lights_rule cfg p hour g :
  fogger_active (lights_rule cfg p hour g) = fogger_active g
  /\ fogger_pin (lights_rule cfg p hour g) = fogger_pin g.
Proof.
  unfold lights_rule, control_lights.
  destruct (Bool.eqb _ _); [split; reflexivity|].
  destruct (simulated p), (lights_fault p); split; reflexivity.
Qed.

(** Below 15 % of water the fogger rule cannot fire: it asks for more
    than 20 %. *)
Lemma fogger_rule_low_water cfg p d g :
  (water_level d < 15)%Q -> fogger_rule cfg p d g = g.
Proof.
  intro H. unfold fogger_rule.
  assert (E : Qlt_bool 20 (water_level d) = false).
  { apply Qlt_bool_false_iff. apply Qlt_le_weak.
    apply Qlt_trans with (y := 15%Q); [exact H | reflexivity]. }
  rewrite E, andb_false_r. reflexivity.
Qed.

(** What the cycle adds to the log on a reading with low water: the
    fogger-off call when the fogger was on, the fan decision and lights
    calls. *)
Lemma low_water_calls cfg p hour d g :
  (water_level d < 15)%Q ->
  exists lights,
    new_calls g (auto_control_environment cfg p hour d g)
    = (if fogger_active g then [FoggerCommand false None] else [])
      ++ fan_decision cfg d (fan_speed g) ++ lights
    /\ forall c, In c lights -> exists a, c = LightsCommand a.
Proof.
  intro H. rewrite auto_control_rules, fogger_rule_low_water by exact H.
  destruct (lights_rule_calls cfg p hour (fan_rule cfg p d (veto_rule p d g)))
    as (l & El & Hl).
  exists l. split; [|exact Hl].
  apply new_calls_app.
  rewrite El, fan_rule_calls, veto_rule_calls, fan_speed_veto_rule.
  apply Qlt_bool_iff in H. rewrite H. simpl.
  now rewrite <- !app_assoc.
Qed.

(** C4 (safety veto).  On every reading with [water_level < 15], whatever
    the humidity, the thresholds, the hour, the platform and the actuator
    state: the cycle makes no fogger-on call; it makes the fogger-off call
    when the fogger was on; it never raises the fogger flag or pin; and the
    flag is down after the cycle whenever the fogger device did not fault
    on the off call. *)
Theorem safety_veto_low_water cfg p hour d g :
  (water_level d < 15)%Q ->
  let g' := auto_control_environment cfg p hour d g in
  (forall duration, ~ In (FoggerCommand true duration) (new_calls g g'))
  /\ (fogger_active g = true -> In (FoggerCommand false None) (new_calls g g'))
  /\ (fogger_active g' = true -> fogger_active g = true)
  /\ (fogger_pin g' = true -> fogger_pin g = true)
  /\ (simulated p = true \/ fogger_fault p = false -> fogger_active g' = false).
Proof.
  intros H g'.
  destruct (low_water_calls cfg p hour d g H) as (l & El & Hl).
  fold g' in El.
  assert (Hstate : fogger_active g' = fogger_active (veto_rule p d g)
                   /\ fogger_pin g' = fogger_pin (veto_rule p d g)).
  { unfold g'. rewrite auto_control_rules, fogger_rule_low_water by exact H.
    destruct (fogger_lights_rule cfg p hour (fan_rule cfg p d (veto_rule p d g)))
      as [-> ->].
    apply fogger_fan_rule. }
  destruct Hstate as [Ea Ep].
  apply Qlt_bool_iff in H.
  repeat split.
  - intros duration Hin. rewrite El in Hin.
    apply in_app_or in Hin. destruct Hin as [Hin|Hin].
    { destruct (fogger_active g); simpl in Hin; [destruct Hin as [Hc|[]]|destruct Hin].
      discriminate Hc. }
    apply in_app_or in Hin. destruct Hin as [Hin|Hin].
    { unfold fan_decision in Hin.
      destruct (_ && _); [|destruct (_ && _)]; simpl in Hin;
        try (destruct Hin as [Hc|[]]; discriminate Hc); destruct Hin. }
    apply Hl in Hin. destruct Hin as [a Hc]. discriminate Hc.
  - intro Hon. rewrite El, Hon. simpl. now left.
  - rewrite Ea. unfold veto_rule, control_fogger. rewrite H.
    destruct (fogger_active g) eqn:Eg; [reflexivity|].
    rewrite Eg. auto.
  - rewrite Ep. unfold veto_rule, control_fogger. rewrite H.
    destruct (fogger_active g) eqn:Eg; [|auto].
    destruct (simulated p); [auto|]. destruct (fogger_fault p); [auto|].
    simpl. discriminate.
  - intros Hok. rewrite Ea. unfold veto_rule, control_fogger. rewrite H.
    destruct (fogger_active g) eqn:Eg; [|exact Eg].
    destruct (simulated p); [reflexivity|].
    destruct Hok as [Hc|Hf]; [discriminate Hc|]. rewrite Hf. reflexivity.
Qed.

(** A reading with 10 % of water and 50 % of humidity, fogger running on
    real hardware. *)
Lemma safety_veto_low_water_witness :
  let p := mkPlatform true false false false false in
  let d := set_water_level 10 (set_humidity 50 (init_current_data 0)) in
  let g := control_fogger p true (Some 30%Z) init_gpio in
  let g' := auto_control_environment MUSHROOM_CONFIG p 12 d g in
  (forall duration, ~ In (FoggerCommand true duration) (new_calls g g'))
  /\ (fogger_active g = true -> In (FoggerCommand false None) (new_calls g g'))
  /\ (fogger_active g' = true -> fogger_active g = true)
  /\ (fogger_pin g' = true -> fogger_pin g = true)
  /\ (simulated p = true \/ fogger_fault p = false -> fogger_active g' = false).
Proof.
  intros p d g.
  apply (safety_veto_low_water MUSHROOM_CONFIG p 12%Z d g).
  reflexivity.
Defined.

(** ** Fan hysteresis *)

Lemma fan_speeds_app l1 l2 : fan_speeds (l1 ++ l2) = fan_speeds l1 ++ fan_speeds l2.
Proof.
  induction l1 as [|c l1 IH]; simpl; [reflexivity|].
  destruct c; simpl; rewrite IH; reflexivity.
Qed.

Lemma fan_speeds_In s l : In (FanCommand s) l <-> In s (fan_speeds l).
Proof.
  induction l as [|c l IH]; simpl; [tauto|].
  destruct c as [a dur|s'|a]; simpl; rewrite <- IH.
  - split; [intros [H|H]; [discriminate H|exact H] | auto].
  - split; (intros [H|H]; [left|right; exact H]); congruence.
  - split; [intros [H|H]; [discriminate H|exact H] | auto].
Qed.

Lemma fan_speeds_lights l :
  (forall c, In c l -> exists a, c = LightsCommand a) -> fan_speeds l = [].
Proof.
  induction l as [|c l IH]; intro H; [reflexivity|].
  destruct (H c (or_introl eq_refl)) as [a ->]. simpl.
  apply IH. intros c' Hc'. apply H. now right.
Qed.

(** The fan commands of a cycle are exactly the fan decision taken on the
    humidity of the reading and the fan speed before the cycle. *)
Lemma auto_control_fan_speeds cfg p hour d g :
  fan_speeds (new_calls g (auto_control_environment cfg p hour d g))
  = fan_speeds (fan_decision cfg d (fan_speed g)).
Proof.
  rewrite auto_control_rules.
  destruct (lights_rule_calls cfg p hour
              (fan_rule cfg p d (fogger_rule cfg p d (veto_rule p d g))))
    as (l & El & Hl).
  erewrite new_calls_app.
  2:{ rewrite El, fan_rule_calls, fogger_rule_calls, veto_rule_calls.
      rewrite <- !app_assoc. reflexivity. }
  rewrite fan_speed_fogger_rule, fan_speed_veto_rule.
  rewrite !fan_speeds_app, (fan_speeds_lights l Hl), app_nil_r.
  destruct (Qlt_bool (water_level d) 15 && fogger_active g);
    destruct (_ && _); reflexivity.
Qed.

(** The fan speed after a cycle is the one the fan rule leaves. *)
Lemma auto_control_fan_speed cfg p hour d g :
  fan_speed (auto_control_environment cfg p hour d g)
  = fan_speed (fan_rule cfg p d (fogger_rule cfg p d (veto_rule p d g))).
Proof. rewrite auto_control_rules. apply fan_speed_lights_rule. Qed.

Lemma fan_rule_speed cfg p d g :
  fan_speed (fan_rule cfg p d g)
  = match fan_decision cfg d (fan_speed g) with
    | FanCommand s :: _ =>
        if simulated p || negb (fan_fault p) then s else fan_speed g
    | _ => fan_speed g
    end.
Proof.
  unfold fan_rule, fan_decision, control_fan.
  destruct (_ && _); [|destruct (_ && _)];
    destruct (simulated p), (fan_fault p); reflexivity.
Qed.

(** C6 (fan hysteresis).  With the thresholds of [config.py]
    ([humidity_max = 95]): a cycle at humidity 101 with the fan off makes
    the call [control_fan(50)]; a cycle at humidity 96 makes no fan call and
    leaves the speed as it is; a cycle at humidity 94 with the fan running
    makes the call [control_fan(0)].  The speed follows the call unless the
    fan device faults.  For any thresholds, a fan call of a cycle is either
    [control_fan(50)] on [humidity > humidity_max + 5] or [control_fan(0)] on
    [humidity <= humidity_max]. *)
Theorem fan_hysteresis :
  (forall p hour d g,
      (humidity d == 101)%Q -> fan_speed g = 0%Z ->
      let g' := auto_control_environment MUSHROOM_CONFIG p hour d g in
      fan_speeds (new_calls g g') = [50%Z]
      /\ (simulated p = true \/ fan_fault p = false -> fan_speed g' = 50%Z))
  /\ (forall p hour d g,
      (humidity d == 96)%Q ->
      let g' := auto_control_environment MUSHROOM_CONFIG p hour d g in
      fan_speeds (new_calls g g') = [] /\ fan_speed g' = fan_speed g)
  /\ (forall p hour d g,
      (humidity d == 94)%Q -> (0 < fan_speed g)%Z ->
      let g' := auto_control_environment MUSHROOM_CONFIG p hour d g in
      fan_speeds (new_calls g g') = [0%Z]
      /\ (simulated p = true \/ fan_fault p = false -> fan_speed g' = 0%Z))
  /\ (forall cfg p hour d g s,
      In (FanCommand s) (new_calls g (auto_control_environment cfg p hour d g)) ->
      (s = 50%Z /\ (humidity_max cfg + 5 < humidity d)%Q /\ (fan_speed g < 50)%Z)
      \/ (s = 0%Z /\ (humidity d <= humidity_max cfg)%Q /\ (0 < fan_speed g)%Z)).
Proof.
  assert (Hno_fault : forall p (s0 s : Z),
             simulated p = true \/ fan_fault p = false ->
             (if simulated p || negb (fan_fault p) then s else s0) = s).
  { intros p s0 s [-> | ->]; [reflexivity|]. now rewrite orb_true_r. }
  repeat split.
  - rewrite auto_control_fan_speeds. unfold fan_decision.
    assert (E : Qlt_bool (humidity_max MUSHROOM_CONFIG + 5) (humidity d) = true).
    { apply Qlt_bool_iff. simpl. lra. }
    rewrite E, H0. reflexivity.
  - intro Hok. rewrite auto_control_fan_speed, fan_rule_speed.
    rewrite fan_speed_fogger_rule, fan_speed_veto_rule. unfold fan_decision.
    assert (E : Qlt_bool (humidity_max MUSHROOM_CONFIG + 5) (humidity d) = true).
    { apply Qlt_bool_iff. simpl. lra. }
    rewrite E, H0. simpl. now apply Hno_fault.
  - rewrite auto_control_fan_speeds. unfold fan_decision.
    assert (E1 : Qlt_bool (humidity_max MUSHROOM_CONFIG + 5) (humidity d) = false).
    { apply Qlt_bool_false_iff. simpl. lra. }
    assert (E2 : Qle_bool (humidity d) (humidity_max MUSHROOM_CONFIG) = false).
    { apply Qle_bool_false_iff. simpl. lra. }
    rewrite E1, E2. reflexivity.
  - rewrite auto_control_fan_speed, fan_rule_speed.
    rewrite fan_speed_fogger_rule, fan_speed_veto_rule. unfold fan_decision.
    assert (E1 : Qlt_bool (humidity_max MUSHROOM_CONFIG + 5) (humidity d) = false).
    { apply Qlt_bool_false_iff. simpl. lra. }
    assert (E2 : Qle_bool (humidity d) (humidity_max MUSHROOM_CONFIG) = false).
    { apply Qle_bool_false_iff. simpl. lra. }
    rewrite E1, E2. reflexivity.
  - rewrite auto_control_fan_speeds. unfold fan_decision.
    assert (E1 : Qlt_bool (humidity_max MUSHROOM_CONFIG + 5) (humidity d) = false).
    { apply Qlt_bool_false_iff. simpl. lra. }
    assert (E2 : Qle_bool (humidity d) (humidity_max MUSHROOM_CONFIG) = true).
    { apply Qle_bool_iff. simpl. lra. }
    apply Z.ltb_lt in H0. rewrite E1, E2, H0. reflexivity.
  - intro Hok. rewrite auto_control_fan_speed, fan_rule_speed.
    rewrite fan_speed_fogger_rule, fan_speed_veto_rule. unfold fan_decision.
    assert (E1 : Qlt_bool (humidity_max MUSHROOM_CONFIG + 5) (humidity d) = false).
    { apply Qlt_bool_false_iff. simpl. lra. }
    assert (E2 : Qle_bool (humidity d) (humidity_max MUSHROOM_CONFIG) = true).
    { apply Qle_bool_iff. simpl. lra. }
    apply Z.ltb_lt in H0. rewrite E1, E2, H0. simpl. now apply Hno_fault.
  - intros cfg p hour d g s Hin.
    apply fan_speeds_In in Hin. rewrite auto_control_fan_speeds in Hin.
    unfold fan_decision in Hin.
    destruct (Qlt_bool (humidity_max cfg + 5) (humidity d)) eqn:E1;
      destruct (fan_speed g <? 50)%Z eqn:E2; simpl in Hin;
      try (destruct Hin as [<-|[]]; left;
           apply Qlt_bool_iff in E1; apply Z.ltb_lt in E2; now auto);
      (destruct (Qle_bool (humidity d) (humidity_max cfg)) eqn:E3;
       destruct (0 <? fan_speed g)%Z eqn:E4; simpl in Hin;
       try (destruct Hin as [<-|[]]; right;
            apply Qle_bool_iff in E3; apply Z.ltb_lt in E4; now auto);
       try contradiction).
Qed.

(** The scenario of the claim run from the initial actuator state in
    simulation mode: humidity 101, then 96, then 94. *)
Lemma fan_hysteresis_witness :
  let p := mkPlatform false true false false false in
  let reading h := set_humidity h (init_current_data 0) in
  let g1 := auto_control_environment MUSHROOM_CONFIG p 12 (reading 101) init_gpio in
  let g2 := auto_control_environment MUSHROOM_CONFIG p 12 (reading 96) g1 in
  let g3 := auto_control_environment MUSHROOM_CONFIG p 12 (reading 94) g2 in
  (fan_speeds (new_calls init_gpio g1) = [50%Z] /\ fan_speed g1 = 50%Z)
  /\ (fan_speeds (new_calls g1 g2) = [] /\ fan_speed g2 = 50%Z)
  /\ (fan_speeds (new_calls g2 g3) = [0%Z] /\ fan_speed g3 = 0%Z)
  /\ (101 > humidity_max MUSHROOM_CONFIG + 5)%Q.
Proof.
  intros p reading g1 g2 g3.
  destruct fan_hysteresis as (Hon & Hkeep & Hoff & Honly).
  destruct (Hon p 12%Z (reading 101) init_gpio) as [C1 S1];
    [reflexivity | reflexivity |].
  specialize (S1 (or_introl eq_refl)). fold g1 in C1, S1.
  destruct (Hkeep p 12%Z (reading 96) g1) as [C2 S2]; [reflexivity|].
  fold g2 in C2, S2.
  destruct (Hoff p 12%Z (reading 94) g2) as [C3 S3];
    [reflexivity | rewrite S2, S1; reflexivity |].
  specialize (S3 (or_introl eq_refl)). fold g3 in C3, S3.
  destruct (Honly MUSHROOM_CONFIG p 12%Z (reading 101) init_gpio 50%Z)
    as [(_ & Hgt & _) | (Hc & _)].
  - apply fan_speeds_In. fold g1. rewrite C1. now left.
  - rewrite S1 in S2. repeat split; assumption.
  - discriminate Hc.
Defined.

(** ** Exceptions of the service computations *)

Section Exceptions.
Context {Self : Type}.

Lemma roe_ret {A} (a : A) : raises_only_Exceptions (ret (Self := Self) a).
Proof. intros s n e s' n' H. discriminate H. Qed.

Lemma roe_get_self : raises_only_Exceptions (get_self (Self := Self)).
Proof. intros s n e s' n' H. discriminate H. Qed.

Lemma roe_modify_self f : raises_only_Exceptions (modify_self (Self := Self) f).
Proof. intros s n e s' n' H. discriminate H. Qed.

Lemma roe_bind {A B} (c : M Self A) (k : A -> M Self B) :
  raises_only_Exceptions c -> (forall a, raises_only_Exceptions (k a)) ->
  raises_only_Exceptions (bind c k).
Proof.
  intros Hc Hk s n e s' n' H. unfold bind in H.
  destruct (c s n) as [[[a|e0] s0] n0] eqn:E.
  - exact (Hk a _ _ _ _ _ H).
  - inversion H; subst. exact (Hc _ _ _ _ _ E).
Qed.

Lemma roe_try_except {A} (c : M Self A) h :
  raises_only_Exceptions c -> (forall e, raises_only_Exceptions (h e)) ->
  raises_only_Exceptions (try_except c h).
Proof.
  intros Hc Hh s n e s' n' H. unfold try_except in H.
  destruct (c s n) as [[[a|e0] s0] n0] eqn:E; [discriminate H|].
  destruct (is_Exception e0) eqn:Ee.
  - exact (Hh e0 _ _ _ _ _ H).
  - inversion H; subst. exact (Hc _ _ _ _ _ E).
Qed.

Lemma roe_try_except_duplicate {A} (c h : M Self A) :
  raises_only_Exceptions c -> raises_only_Exceptions h ->
  raises_only_Exceptions (try_except_duplicate c h).
Proof.
  intros Hc Hh s n e s' n' H. unfold try_except_duplicate in H.
  destruct (c s n) as [[[a|e0] s0] n0] eqn:E; [discriminate H|].
  destruct e0; try (inversion H; subst; exact (Hc _ _ _ _ _ E)).
  exact (Hh _ _ _ _ _ H).
Qed.

Lemma roe_for_each {A} (l : list A) (body : A -> M Self unit) :
  (forall x, raises_only_Exceptions (body x)) ->
  raises_only_Exceptions (for_each l body).
Proof.
  intro Hb. induction l as [|x l IH]; simpl.
  - apply roe_ret.
  - apply roe_bind; [apply Hb | intros _; exact IH].
Qed.

(** The driver raises [ConnectionFailure] or [DuplicateKeyError]. *)
Lemma roe_ping db : raises_only_Exceptions (ping (Self := Self) db).
Proof.
  intros s n e s' n' H. unfold ping in H.
  destruct (pop_fault (server db n)) as [[|] m]; inversion H; reflexivity.
Qed.

Lemma roe_insert_one db d : raises_only_Exceptions (insert_one (Self := Self) db d).
Proof.
  intros s n e s' n' H. unfold insert_one in H.
  destruct (pop_fault (server db n)) as [[|] m]; [inversion H; reflexivity|].
  destruct (_id d); [destruct (existsb _ _)|]; inversion H; reflexivity.
Qed.

Lemma roe_find db q : raises_only_Exceptions (find (Self := Self) db q).
Proof.
  intros s n e s' n' H. unfold find in H.
  destruct (pop_fault (server db n)) as [[|] m]; inversion H; reflexivity.
Qed.

Lemma roe_find_sorted db q dir limit :
  raises_only_Exceptions (find_sorted (Self := Self) db q dir limit).
Proof.
  intros s n e s' n' H. unfold find_sorted in H.
  destruct (pop_fault (server db n)) as [[|] m]; inversion H; reflexivity.
Qed.

Lemma roe_update_one_synced db i :
  raises_only_Exceptions (update_one_synced (Self := Self) db i).
Proof.
  intros s n e s' n' H. unfold update_one_synced in H.
  destruct (pop_fault (server db n)) as [[|] m]; inversion H; reflexivity.
Qed.

Lemma roe_update_many_synced db :
  raises_only_Exceptions (update_many_synced (Self := Self) db).
Proof.
  intros s n e s' n' H. unfold update_many_synced in H.
  destruct (pop_fault (server db n)) as [[|] m]; inversion H; reflexivity.
Qed.

(** [try: c except Exception: h] returns whenever [c] raises nothing
    beyond [Exception] and the handler returns. *)
Lemma try_except_never_raises {A} (c : M Self A) h :
  raises_only_Exceptions c -> (forall e, never_raises (h e)) ->
  never_raises (try_except c h).
Proof.
  intros Hc Hh s n. unfold try_except.
  destruct (c s n) as [[[a|e] s0] n0] eqn:E; [eauto|].
  rewrite (Hc _ _ _ _ _ E). apply Hh.
Qed.

Lemma ret_never_raises {A} (a : A) : never_raises (ret (Self := Self) a).
Proof. intros s n. unfold ret. eauto. Qed.

(** When the [try] block raises, the handler's value is the result. *)
Lemma try_except_handler {A} (c : M Self A) (x : A) s n e s' n' :
  raises_only_Exceptions c -> c s n = (Raise e, s', n') ->
  try_except c (fun _ => ret x) s n = (Ok x, s', n').
Proof.
  intros Hc E. unfold try_except. rewrite E, (Hc _ _ _ _ _ E). reflexivity.
Qed.

End Exceptions.

Create HintDb roe.

#[local] Hint Resolve roe_ret roe_get_self roe_modify_self roe_ping
  roe_insert_one roe_find roe_find_sorted roe_update_one_synced
  roe_update_many_synced : roe.

(** Breaks a computation down to the driver calls. *)
Ltac roe :=
  repeat first
    [ progress auto with roe
    | apply roe_bind; [|intro]
    | apply roe_try_except; [|intro]
    | apply roe_try_except_duplicate
    | apply roe_for_each; intro
    | match goal with
      | |- raises_only_Exceptions (match ?x with _ => _ end) => destruct x
      | |- raises_only_Exceptions (if ?x then _ else _) => destruct x
      end ].

Lemma roe_app_lift_res {A} (r : Res A) :
  res_only_Exceptions r -> raises_only_Exceptions (App.lift_res r).
Proof.
  intros Hr s n e s' n' H. unfold App.lift_res in H.
  inversion H; subst. exact Hr.
Qed.

Lemma roe_db_lift_res {A} (r : Res A) :
  res_only_Exceptions r -> raises_only_Exceptions (DbService.lift_res r).
Proof.
  intros Hr s n e s' n' H. unfold DbService.lift_res in H.
  inversion H; subst. exact Hr.
Qed.



(** ** The queries never raise *)

Lemma app_stringify_all_exn l : res_only_Exceptions (App.stringify_all l).
Proof.
  induction l as [|d l IH]; simpl; [exact I|].
  unfold App.stringify_doc. destruct (_id d); simpl; [|reflexivity].
  destruct (App.stringify_all l); simpl; auto.
Qed.

Lemma db_stringify_all_exn l : res_only_Exceptions (DbService.stringify_all l).
Proof.
  induction l as [|d l IH]; simpl; [exact I|].
  unfold DbService.stringify_doc.
  destruct (_id d); simpl; [|reflexivity].
  destruct (server_timestamp d) as [[t|t]|]; simpl; try reflexivity;
    destruct (DbService.stringify_all l); simpl; auto.
Qed.

Lemma sorted_newest_first_exn l : res_only_Exceptions (sorted_newest_first l).
Proof.
  unfold sorted_newest_first.
  destruct (forallb has_server_timestamp l); [|reflexivity].
  destruct (_ || _); simpl; auto.
Qed.

Lemma stringify_in_place_exn idxs : forall store,
  res_only_Exceptions (fst (stringify_in_place idxs store)).
Proof.
  induction idxs as [|i idxs IH]; intro store; simpl; [exact I|].
  destruct (nth_error store i) as [d|]; simpl; [|exact I].
  unfold App.stringify_doc. destruct (_id d); simpl; [apply IH|reflexivity].
Qed.

Lemma roe_app_latest_body limit :
  raises_only_Exceptions (App.get_latest_readings_body limit).
Proof.
  unfold App.get_latest_readings_body.
  apply roe_bind; [roe|intro s].
  destruct (local_mongo_db s) as [local|].
  - apply roe_bind; [roe|intro]. apply roe_app_lift_res, app_stringify_all_exn.
  - destruct (simulation_data s) as [sim|]; [|roe].
    apply roe_bind; [apply roe_app_lift_res, sorted_newest_first_exn | intro sorted].
    pose proof (stringify_in_place_exn (map fst (py_slice_to limit sorted)) sim) as Hs.
    destruct (stringify_in_place _ sim) as [r sim'].
    apply roe_bind; [roe|intro]. apply roe_bind; [|intro; roe].
    apply roe_app_lift_res. exact Hs.
Qed.

Lemma roe_app_historical_body now hours limit :
  raises_only_Exceptions (App.get_historical_data_body now hours limit).
Proof.
  unfold App.get_historical_data_body.
  apply roe_bind; [roe|intro s].
  destruct (local_mongo_db s) as [local|]; [|roe].
  apply roe_bind; [roe|intro]. apply roe_app_lift_res, app_stringify_all_exn.
Qed.

Lemma roe_db_latest_body limit :
  raises_only_Exceptions (DbService.get_latest_readings_body limit).
Proof.
  unfold DbService.get_latest_readings_body.
  apply roe_bind; [roe|intro s].
  destruct (DbService.read_db s) as [db|]; [|roe].
  apply roe_bind; [roe|intro]. apply roe_db_lift_res, db_stringify_all_exn.
Qed.

Lemma roe_db_historical_body now hours :
  raises_only_Exceptions (DbService.get_historical_data_body now hours).
Proof.
  unfold DbService.get_historical_data_body.
  apply roe_bind; [roe|intro s].
  destruct (DbService.read_db s) as [db|]; [|roe].
  apply roe_bind; [roe|intro]. apply roe_db_lift_res, db_stringify_all_exn.
Qed.

(** C10 (queries never raise).  In every state of the service and of the
    servers, [get_latest_readings] and [get_historical_data] of [app.py]
    and of [database_service.py] return a list; when anything inside their
    [try] block raises, the list is empty; with no backend at all the list
    is empty. *)
Theorem queries_never_raise :
  (forall limit, never_raises (App.get_latest_readings limit))
  /\ (forall now hours limit,
         never_raises (App.get_historical_data now hours limit))
  /\ (forall limit, never_raises (DbService.get_latest_readings limit))
  /\ (forall now hours, never_raises (DbService.get_historical_data now hours))
  /\ (forall limit s n e s' n',
         App.get_latest_readings_body limit s n = (Raise e, s', n') ->
         App.get_latest_readings limit s n = (Ok [], s', n'))
  /\ (forall now hours limit s n e s' n',
         App.get_historical_data_body now hours limit s n = (Raise e, s', n') ->
         App.get_historical_data now hours limit s n = (Ok [], s', n'))
  /\ (forall limit s n e s' n',
         DbService.get_latest_readings_body limit s n = (Raise e, s', n') ->
         DbService.get_latest_readings limit s n = (Ok [], s', n'))
  /\ (forall now hours s n e s' n',
         DbService.get_historical_data_body now hours s n = (Raise e, s', n') ->
         DbService.get_historical_data now hours s n = (Ok [], s', n'))
  /\ (forall limit now hours atlas ua n,
         let s := App.mkDb None atlas ua None in
         App.get_latest_readings limit s n = (Ok [], s, n)
         /\ App.get_historical_data now hours limit s n = (Ok [], s, n)).
Proof.
  repeat split.
  - intro limit. apply try_except_never_raises;
      [apply roe_app_latest_body | intro; apply ret_never_raises].
  - intros now hours limit. apply try_except_never_raises;
      [apply roe_app_historical_body | intro; apply ret_never_raises].
  - intro limit. apply try_except_never_raises;
      [apply roe_db_latest_body | intro; apply ret_never_raises].
  - intros now hours. apply try_except_never_raises;
      [apply roe_db_historical_body | intro; apply ret_never_raises].
  - intros limit s n e s' n' H.
    eapply try_except_handler; [apply roe_app_latest_body | exact H].
  - intros now hours limit s n e s' n' H.
    eapply try_except_handler; [apply roe_app_historical_body | exact H].
  - intros limit s n e s' n' H.
    eapply try_except_handler; [apply roe_db_latest_body | exact H].
  - intros now hours s n e s' n' H.
    eapply try_except_handler; [apply roe_db_historical_body | exact H].
Qed.

(** A local server that fails the next call: the query answers the empty
    list. *)
Lemma queries_never_raise_witness :
  let s := App.mkDb (Some LocalServer) None false None in
  let n := mkNet (mkMongo [] 0 [true]) empty_mongo false in
  App.get_latest_readings 10 s n
  = (Ok [], s, mkNet empty_mongo empty_mongo false).
Proof.
  intros s n.
  destruct queries_never_raise as (_ & _ & _ & _ & H & _).
  apply (H 10%Z s n ConnectionFailure). reflexivity.
Defined.

(** ** The acquisition loop survives faulty cycles *)

Lemma save_reading_never_raises now d : never_raises (App.save_reading now d).
Proof.
  unfold App.save_reading.
  apply try_except_never_raises; [roe | intro; apply ret_never_raises].
Qed.

(** A pass either completes, and then no step let an exception out, or it
    raises the exception that some step let out. *)
Lemma cycle_outcome t w :
  (fst (cycle t w) = Ok tt /\ faulty t = false)
  \/ (exists st e, fst (cycle t w) = Raise e /\ escapes t st = Some e
                   /\ faulty t = true).
Proof.
  unfold cycle, faulty. simpl.
  destruct (escapes t ReadStep) as [e|] eqn:E1.
  { right. exists ReadStep, e. auto. }
  destruct (escapes t ControlStep) as [e|] eqn:E2.
  { right. exists ControlStep, e. auto. }
  destruct (escapes t SaveStep) as [e|] eqn:E3.
  { right. exists SaveStep, e. auto. }
  match goal with
  | |- context [App.save_reading ?now ?d ?s ?n] =>
      destruct (save_reading_never_raises now d s n) as (a & s' & n' & ->)
  end.
  destruct (escapes t PublishStep) as [e|] eqn:E4.
  { right. exists PublishStep, e. auto. }
  left. auto.
Qed.

Lemma sleeps_cycle t w : sleeps (snd (cycle t w)) = sleeps w.
Proof.
  unfold cycle.
  destruct (escapes t ReadStep); [reflexivity|].
  destruct (escapes t ControlStep); [reflexivity|].
  destruct (escapes t SaveStep); [reflexivity|].
  destruct (App.save_reading _ _ _ _) as [[[a|e] s'] n']; [|reflexivity].
  destruct (escapes t PublishStep); reflexivity.
Qed.

(** The loop equation for one pass under ordinary faults. *)
Lemma sensor_monitor_step t rest w :
  (forall st e, escapes t st = Some e -> is_Exception e = true) ->
  sensor_monitor (t :: rest) w
  = sensor_monitor rest (sleep (backoff t) (snd (cycle t w))).
Proof.
  intro Hord. simpl. unfold backoff.
  destruct (cycle_outcome t w) as [[Hr ->] | (st & e & Hr & He & ->)];
    destruct (cycle t w) as [r w']; simpl in *; subst r; [reflexivity|].
  rewrite (Hord st e He). reflexivity.
Qed.

(** C9 (a failed cycle never ends the loop).  When the exceptions that
    come out of the steps derive from [Exception], then after any number of
    passes, whichever of them fail at whichever step, the loop is still
    running; every pass ended in exactly one sleep, of the fixed 5 s after
    a failed pass and of the read interval after a good one; and after a
    failed pass the loop goes on with the next pass. *)
Theorem sensor_monitor_survives_faults ticks w :
  ordinary_faults ticks ->
  fst (sensor_monitor ticks w) = Looping
  /\ sleeps (snd (sensor_monitor ticks w)) = sleeps w ++ map backoff ticks
  /\ (forall t rest, ticks = t :: rest -> faulty t = true ->
      exists e, fst (cycle t w) = Raise e
                /\ sensor_monitor ticks w
                   = sensor_monitor rest (sleep 5 (snd (cycle t w)))).
Proof.
  revert w. induction ticks as [|t ticks IH]; intros w Hord.
  - simpl. rewrite app_nil_r. repeat split. intros t rest H. discriminate H.
  - assert (Ht : forall st e, escapes t st = Some e -> is_Exception e = true).
    { intros st e. apply Hord. now left. }
    assert (Hrest : ordinary_faults ticks).
    { intros t' st e Hin. apply Hord. now right. }
    rewrite (sensor_monitor_step t ticks w Ht).
    destruct (IH (sleep (backoff t) (snd (cycle t w))) Hrest) as (IH1 & IH2 & _).
    split; [exact IH1|]. split.
    + rewrite IH2. simpl. rewrite sleeps_cycle, <- app_assoc. reflexivity.
    + intros t0 rest E Hf. inversion E; subst t0 rest.
      destruct (cycle_outcome t w) as [[_ Hc] | (st & e & Hr & _ & _)];
        [congruence|].
      exists e. split; [exact Hr|].
      unfold backoff. rewrite Hf. reflexivity.
Qed.

(** Four passes: a good one, one whose publish step raises, one whose
    sensor read raises, a good one. *)
Lemma sensor_monitor_survives_faults_witness :
  let ticks :=
    [ mkTick (good_inputs 1) pi_platform 12 1 no_escape;
      mkTick (good_inputs 2) pi_platform 12 2 (escape_at PublishStep TypeError);
      mkTick (good_inputs 3) pi_platform 12 3 (escape_at ReadStep OSError);
      mkTick (good_inputs 4) pi_platform 12 4 no_escape ] in
  fst (sensor_monitor ticks started_world) = Looping
  /\ sleeps (snd (sensor_monitor ticks started_world)) = [10; 5; 5; 10]%Z.
Proof.
  intro ticks.
  destruct (sensor_monitor_survives_faults ticks started_world) as (H1 & H2 & _).
  - intros t st e Hin He. simpl in Hin.
    destruct Hin as [<-|[<-|[<-|[<-|[]]]]]; destruct st; simpl in He;
      inversion He; reflexivity.
  - split; [exact H1 | exact H2].
Defined.

(** ** The sensor gateway falls back to the start-up defaults *)

(** [read_sensors] never assigns [current_data], and neither does the
    loop. *)
Lemma sensor_service_cycle t w : sensor_service (snd (cycle t w)) = sensor_service w.
Proof.
  unfold cycle.
  destruct (escapes t ReadStep); [reflexivity|].
  destruct (escapes t ControlStep); [reflexivity|].
  destruct (escapes t SaveStep); [reflexivity|].
  destruct (App.save_reading _ _ _ _) as [[[a|e] s'] n']; [|reflexivity].
  destruct (escapes t PublishStep); reflexivity.
Qed.

Lemma sensor_service_sensor_monitor ticks : forall w,
  sensor_service (snd (sensor_monitor ticks w)) = sensor_service w.
Proof.
  induction ticks as [|t ticks IH]; intro w; simpl; [reflexivity|].
  pose proof (sensor_service_cycle t w) as Hc.
  destruct (cycle t w) as [[[]|e] w']; simpl in Hc.
  - rewrite IH. exact Hc.
  - destruct (is_Exception e); [rewrite IH|]; exact Hc.
Qed.

(** The fields that a read leaves alone on real hardware. *)
Lemma read_sensors_failed p svc now :
  SIMULATION_MODE p = false ->
  let d := read_sensors p svc (failed_inputs now) in
  temperature d = temperature (current_data svc)
  /\ humidity d = humidity (current_data svc)
  /\ co2 d = co2 (current_data svc)
  /\ light_intensity d = light_intensity (current_data svc)
  /\ water_level d = water_level (current_data svc).
Proof.
  intro Hp. unfold read_sensors. rewrite Hp.
  unfold read_ultrasonic_distance, read_light_level. simpl.
  destruct (scd40 svc), (bh1750 svc), (water_sensor svc); simpl; auto.
Qed.

(** C2 (fallback of a failed sensor read), evaluated.  After any number of
    passes of the loop [current_data] is what [__init__] made it; and in
    two consecutive passes on real hardware, the first reading 25.0
    degrees, 70.0 %, 600 ppm, 250 lux and 40 % of water, the second with
    every sensor failing, the second reading carries the start-up defaults
    22.0, 65.0, 400, 500 and 75.0 and not the values read before. *)
Theorem read_sensors_fallback_is_startup_default :
  (forall ticks w,
      current_data (sensor_service (snd (sensor_monitor ticks w)))
      = current_data (sensor_service w))
  /\ (let ticks :=
        [ mkTick (good_inputs 1) pi_platform 12 1 no_escape;
          mkTick (failed_inputs 2) pi_platform 12 2 no_escape ] in
      exists first second g1 g2,
        published (snd (sensor_monitor ticks started_world))
        = [(first, g1); (second, g2)]
        /\ (temperature first == 25 /\ humidity first == 70
            /\ co2 first = 600%Z /\ light_intensity first = 250%Z
            /\ water_level first == 40)%Q
        /\ (temperature second = 22 /\ humidity second = 65
            /\ co2 second = 400%Z /\ light_intensity second = 500%Z
            /\ water_level second = 75)%Q).
Proof.
  split.
  - intros ticks w. now rewrite sensor_service_sensor_monitor.
  - simpl. do 4 eexists. split; [reflexivity|].
    repeat split; reflexivity.
Qed.

(** ** What a computation leaves unchanged *)

Section Keeps.
Context {Self B : Type} (f : Self -> B).

Lemma keeps_ret {A} (a : A) : keeps f (ret a).
Proof. intros s n. reflexivity. Qed.

Lemma keeps_raise {A} e : keeps f (raise (A := A) e).
Proof. intros s n. reflexivity. Qed.

Lemma keeps_get_self : keeps f get_self.
Proof. intros s n. reflexivity. Qed.

Lemma keeps_modify_self g : (forall s, f (g s) = f s) -> keeps f (modify_self g).
Proof. intros H s n. apply H. Qed.

Lemma keeps_bind {A C} (c : M Self A) (k : A -> M Self C) :
  keeps f c -> (forall a, keeps f (k a)) -> keeps f (bind c k).
Proof.
  intros Hc Hk s n. unfold bind.
  specialize (Hc s n). destruct (c s n) as [[[a|e] s0] n0]; simpl in *.
  - rewrite Hk. exact Hc.
  - exact Hc.
Qed.

Lemma keeps_try_except {A} (c : M Self A) h :
  keeps f c -> (forall e, keeps f (h e)) -> keeps f (try_except c h).
Proof.
  intros Hc Hh s n. unfold try_except.
  specialize (Hc s n). destruct (c s n) as [[[a|e] s0] n0]; simpl in *.
  - exact Hc.
  - destruct (is_Exception e); simpl; [rewrite Hh|]; exact Hc.
Qed.

Lemma keeps_try_except_duplicate {A} (c h : M Self A) :
  keeps f c -> keeps f h -> keeps f (try_except_duplicate c h).
Proof.
  intros Hc Hh s n. unfold try_except_duplicate.
  specialize (Hc s n). destruct (c s n) as [[[a|e] s0] n0]; simpl in *.
  - exact Hc.
  - destruct e; simpl; try exact Hc. rewrite Hh. exact Hc.
Qed.

Lemma keeps_for_each {A} (l : list A) (body : A -> M Self unit) :
  (forall x, keeps f (body x)) -> keeps f (for_each l body).
Proof.
  intro Hb. induction l as [|x l IH]; simpl.
  - apply keeps_ret.
  - apply keeps_bind; [apply Hb | intros _; exact IH].
Qed.

(** The driver calls do not touch the service object. *)
Lemma keeps_ping db : keeps f (ping db).
Proof.
  intros s n. unfold ping.
  destruct (pop_fault (server db n)) as [[|] m]; reflexivity.
Qed.

Lemma keeps_insert_one db d : keeps f (insert_one db d).
Proof.
  intros s n. unfold insert_one.
  destruct (pop_fault (server db n)) as [[|] m]; [reflexivity|].
  destruct (_id d); [destruct (existsb _ _)|]; reflexivity.
Qed.

Lemma keeps_find db q : keeps f (find db q).
Proof.
  intros s n. unfold find.
  destruct (pop_fault (server db n)) as [[|] m]; reflexivity.
Qed.

Lemma keeps_find_sorted db q dir limit : keeps f (find_sorted db q dir limit).
Proof.
  intros s n. unfold find_sorted.
  destruct (pop_fault (server db n)) as [[|] m]; reflexivity.
Qed.

Lemma keeps_update_one_synced db i : keeps f (update_one_synced db i).
Proof.
  intros s n. unfold update_one_synced.
  destruct (pop_fault (server db n)) as [[|] m]; reflexivity.
Qed.

Lemma keeps_update_many_synced db : keeps f (update_many_synced db).
Proof.
  intros s n. unfold update_many_synced.
  destruct (pop_fault (server db n)) as [[|] m]; reflexivity.
Qed.

End Keeps.

Create HintDb keeps.

#[local] Hint Resolve keeps_ret keeps_raise keeps_get_self keeps_ping
  keeps_insert_one keeps_find keeps_find_sorted keeps_update_one_synced
  keeps_update_many_synced : keeps.

Ltac keeps :=
  repeat first
    [ progress auto with keeps
    | apply keeps_modify_self; intro; reflexivity
    | apply keeps_bind; [|intro]
    | apply keeps_try_except; [|intro]
    | apply keeps_try_except_duplicate
    | apply keeps_for_each; intro
    | match goal with
      | |- keeps _ (match ?x with _ => _ end) => destruct x
      | |- keeps _ (if ?x then _ else _) => destruct x
      end ].

(** ** A failed Atlas write during [save_reading] *)

(** [save_reading] of [app.py] assigns neither [using_atlas] nor a
    handle. *)
Lemma save_reading_keeps_connection now d :
  keeps (fun s => (App.using_atlas s, App.atlas_mongo_db s, App.local_mongo_db s))
        (App.save_reading now d).
Proof. unfold App.save_reading. keeps. Qed.

(** C3 (a failed replica write drops the connection), evaluated on
    [app.py].  [save_reading] never changes [using_atlas].  On the
    connected service with Atlas failing the insert: the save returns the
    new id and the record is in the local store, unreplicated, but
    [using_atlas] is still true; the next pass of the health monitor
    therefore does not reconnect and the record stays unreplicated although
    Atlas answers again.  [save_reading] of [database_service.py] on the
    same input sets [using_atlas] to false. *)
Theorem save_reading_failed_replica_write :
  (forall now d s n,
      App.using_atlas (snd (fst (App.save_reading now d s n))) = App.using_atlas s)
  /\ (let '(r, s', n') := App.save_reading 100 reading0 connected atlas_outage in
      r = Ok (Some (StrOf (ObjectId LocalServer 0)))
      /\ App.using_atlas s' = true
      /\ map (fun d => (_id d, synced_to_atlas d)) (readings (local_srv n'))
         = [(Some (ObjectId LocalServer 0), Some false)]
      /\ readings (atlas_srv n') = []
      /\ faults (atlas_srv n') = []
      /\ let '(_, s'', n'') := App.database_health_monitor_pass s' n' in
         App.using_atlas s'' = true
         /\ map synced_to_atlas (readings (local_srv n'')) = [Some false]
         /\ readings (atlas_srv n'') = [])
  /\ (let '(r, s', n') :=
        DbService.save_reading 100 reading0 db_connected atlas_outage in
      r = Ok true
      /\ DbService.using_atlas s' = false
      /\ List.length (readings (local_srv n')) = 1%nat
      /\ readings (atlas_srv n') = []).
Proof.
  split; [|split].
  - intros now d s n.
    pose proof (save_reading_keeps_connection now d s n) as H.
    simpl in H. congruence.
  - vm_compute. repeat split; reflexivity.
  - vm_compute. repeat split; reflexivity.
Qed.

(** ** The in-memory store of the fallback mode *)

Lemma save_reading_fallback now d atlas ua sim n :
  App.save_reading now d (App.mkDb None atlas ua (Some sim)) n
  = (Ok (Some (StrOf (IntId (List.length sim + 1)))),
     App.mkDb None atlas ua (Some (sim ++ [buffered_doc (List.length sim) now d])),
     n).
Proof. reflexivity. Qed.

Lemma save_all_fallback saves : forall atlas ua sim n,
  exists sim',
    save_all saves (App.mkDb None atlas ua (Some sim)) n
    = (App.mkDb None atlas ua (Some (sim ++ sim')), n)
    /\ List.length sim' = List.length saves.
Proof.
  induction saves as [|[now d] saves IH]; intros atlas ua sim n.
  - exists []. now rewrite app_nil_r.
  - cbn [save_all]. rewrite save_reading_fallback.
    destruct (IH atlas ua (sim ++ [buffered_doc (List.length sim) now d]) n)
      as (sim' & E & Hlen).
    exists (buffered_doc (List.length sim) now d :: sim'). split.
    + rewrite E, <- app_assoc. reflexivity.
    + simpl. now rewrite Hlen.
Qed.

Lemma fallback_start_eq :
  fallback_start = (App.mkDb None None false (Some []),
                    mkNet empty_mongo empty_mongo false).
Proof. reflexivity. Qed.

(** C5, refuted as worded: no bound holds for the in-memory store; a run
    of [bound + 1] saves exceeds any proposed [bound]. *)
Lemma buffer_not_bounded : ~ buffer_bounded.
Proof.
  intros [bound H].
  specialize (H (repeat (0%Z, reading0) (S bound))).
  rewrite fallback_start_eq in H. cbn [fst snd] in H.
  destruct (save_all_fallback (repeat (0%Z, reading0) (S bound))
              None false [] (mkNet empty_mongo empty_mongo false))
    as (sim' & E & Hlen).
  rewrite E in H. unfold buffered in H. simpl in H.
  rewrite Hlen, repeat_length in H. lia.
Qed.

(** C5, amended.  A start-up at which the local server does not answer
    leaves the service without a local handle and with an empty in-memory
    list.  In that mode every save returns an id and appends exactly one
    record: after a run of saves the list holds what it held before plus
    one record per save, with no upper bound, and the service is still in
    that mode. *)
Theorem fallback_buffer_grows_by_one_per_save :
  (forall rest atlas uri,
      let '(s, _) := new_DatabaseService
                       (mkNet (mkMongo [] 0 (true :: rest)) atlas uri) in
      App.local_mongo_db s = None /\ App.simulation_data s = Some [])
  /\ (forall now d atlas ua sim n,
      App.save_reading now d (App.mkDb None atlas ua (Some sim)) n
      = (Ok (Some (StrOf (IntId (List.length sim + 1)))),
         App.mkDb None atlas ua
           (Some (sim ++ [buffered_doc (List.length sim) now d])), n))
  /\ (forall saves atlas ua sim n,
      let s' := fst (save_all saves (App.mkDb None atlas ua (Some sim)) n) in
      App.local_mongo_db s' = None
      /\ buffered s' = (List.length sim + List.length saves)%nat).
Proof.
  split; [|split].
  - intros rest atlas uri.
    unfold new_DatabaseService, App.setup_databases.
    unfold bind at 1.
    assert (E : App.setup_local_mongodb init_db
                  (mkNet (mkMongo [] 0 (true :: rest)) atlas uri)
                = (Ok tt, App.mkDb None None false (Some []),
                   mkNet (mkMongo [] 0 rest) atlas uri)) by reflexivity.
    rewrite E.
    pose proof (keeps_bind (fun s => (App.local_mongo_db s, App.simulation_data s))
                  App.connect_atlas (fun _ => ret tt)) as K.
    assert (Kc : keeps (fun s => (App.local_mongo_db s, App.simulation_data s))
                   App.connect_atlas).
    { unfold App.connect_atlas. apply keeps_try_except; [|intro; keeps].
      intros s n. destruct (mongodb_uri n); [|reflexivity].
      assert (Ks : keeps (fun s => (App.local_mongo_db s, App.simulation_data s))
                     App.sync_offline_data).
      { unfold App.sync_offline_data. keeps. }
      revert s n. change (keeps (fun s => (App.local_mongo_db s, App.simulation_data s))
        (modify_self (App.set_atlas (Some AtlasServer)) ;;
         ping AtlasServer ;;
         modify_self (App.set_using_atlas true) ;;
         App.sync_offline_data ;; ret (Some true))).
      keeps. }
    specialize (K Kc (fun _ => keeps_ret _ tt)
                  (App.mkDb None None false (Some []))
                  (mkNet (mkMongo [] 0 rest) atlas uri)).
    destruct (bind App.connect_atlas _ _ _) as [[r s] n]. simpl in K.
    inversion K. auto.
  - intros. apply save_reading_fallback.
  - intros saves atlas ua sim n s'.
    destruct (save_all_fallback saves atlas ua sim n) as (sim' & E & Hlen).
    unfold s'. rewrite E. unfold buffered. simpl.
    rewrite length_app, Hlen. auto.
Qed.

(** ** The replicated flag is set idempotently and never cleared *)

Section Steps.
Context {Self : Type} (R : Net -> Net -> Prop).
Context (R_refl : forall n, R n n).
Context (R_trans : forall a b c, R a b -> R b c -> R a c).

Lemma steps_ret {A} (a : A) : steps (Self := Self) R (ret a).
Proof. intros s n. apply R_refl. Qed.

Lemma steps_get_self : steps (Self := Self) R get_self.
Proof. intros s n. apply R_refl. Qed.

Lemma steps_modify_self g : steps (Self := Self) R (modify_self g).
Proof. intros s n. apply R_refl. Qed.

Lemma steps_bind {A C} (c : M Self A) (k : A -> M Self C) :
  steps R c -> (forall a, steps R (k a)) -> steps R (bind c k).
Proof.
  intros Hc Hk s n. unfold bind.
  specialize (Hc s n). destruct (c s n) as [[[a|e] s0] n0]; simpl in *.
  - eapply R_trans; [exact Hc | apply Hk].
  - exact Hc.
Qed.

Lemma steps_try_except {A} (c : M Self A) h :
  steps R c -> (forall e, steps R (h e)) -> steps R (try_except c h).
Proof.
  intros Hc Hh s n. unfold try_except.
  specialize (Hc s n). destruct (c s n) as [[[a|e] s0] n0]; simpl in *.
  - exact Hc.
  - destruct (is_Exception e); simpl; [|exact Hc].
    eapply R_trans; [exact Hc | apply Hh].
Qed.

Lemma steps_for_each {A} (l : list A) (body : A -> M Self unit) :
  (forall x, steps R (body x)) -> steps R (for_each l body).
Proof.
  intro Hb. induction l as [|x l IH]; simpl.
  - apply steps_ret.
  - apply steps_bind; [apply Hb | intros _; exact IH].
Qed.

End Steps.

Lemma rec_le_refl d : rec_le d d.
Proof. split; auto. Qed.

Lemma rec_le_trans a b c : rec_le a b -> rec_le b c -> rec_le a c.
Proof. intros [H1 H2] [H3 H4]. split; [congruence | auto]. Qed.

Lemma Forall2_rec_le_refl l : Forall2 rec_le l l.
Proof. induction l; constructor; auto using rec_le_refl. Qed.

Lemma Forall2_rec_le_trans a : forall b c,
  Forall2 rec_le a b -> Forall2 rec_le b c -> Forall2 rec_le a c.
Proof.
  induction a as [|x a IH]; intros b c Hab Hbc.
  - inversion Hab; subst. inversion Hbc; subst. constructor.
  - inversion Hab; subst. inversion Hbc; subst. constructor.
    + eapply rec_le_trans; eauto.
    + eapply IH; eauto.
Qed.

Lemma store_le_refl l : store_le l l.
Proof.
  exists l, []. split; [now rewrite app_nil_r | apply Forall2_rec_le_refl].
Qed.

Lemma store_le_trans a b c : store_le a b -> store_le b c -> store_le a c.
Proof.
  intros (k & nw & -> & Hk) (k' & nw' & -> & Hk').
  apply Forall2_app_inv_l in Hk'. destruct Hk' as (k1 & k2 & H1 & H2 & ->).
  exists k1, (k2 ++ nw'). split; [now rewrite app_assoc|].
  eapply Forall2_rec_le_trans; eauto.
Qed.

Lemma store_le_append l x : store_le l (l ++ x).
Proof. exists l, x. split; [reflexivity | apply Forall2_rec_le_refl]. Qed.

Lemma store_le_same_shape l l' : Forall2 rec_le l l' -> store_le l l'.
Proof. intro H. exists l', []. split; [now rewrite app_nil_r | exact H]. Qed.

Lemma rec_le_set_synced_true d : rec_le d (set_synced (Some true) d).
Proof. split; reflexivity. Qed.

Lemma mark_synced_one_le i l : Forall2 rec_le l (mark_synced_one i l).
Proof.
  induction l as [|d l IH]; simpl; [constructor|].
  destruct (has_id i d).
  - constructor; [apply rec_le_set_synced_true | apply Forall2_rec_le_refl].
  - constructor; [apply rec_le_refl | exact IH].
Qed.

Lemma mark_synced_many_le l : Forall2 rec_le l (mark_synced_many l).
Proof.
  induction l as [|d l IH]; simpl; constructor; [|exact IH].
  destruct (not_synced d); [apply rec_le_set_synced_true | apply rec_le_refl].
Qed.

Lemma local_le_refl n : local_le n n.
Proof. apply store_le_refl. Qed.

Lemma local_le_trans a b c : local_le a b -> local_le b c -> local_le a c.
Proof. apply store_le_trans. Qed.

(** Each driver call steps the local collection forward. *)
Section DriverSteps.
Context {Self : Type}.

Lemma steps_ping db : steps (Self := Self) local_le (ping db).
Proof.
  intros s n. unfold ping, local_le.
  destruct db; simpl; unfold pop_fault;
    destruct (faults _) as [|[|] fs]; simpl; apply store_le_refl.
Qed.

Lemma steps_find db q : steps (Self := Self) local_le (find db q).
Proof.
  intros s n. unfold find, local_le.
  destruct db; simpl; unfold pop_fault;
    destruct (faults _) as [|[|] fs]; simpl; apply store_le_refl.
Qed.

Lemma steps_find_sorted db q dir limit :
  steps (Self := Self) local_le (find_sorted db q dir limit).
Proof.
  intros s n. unfold find_sorted, local_le.
  destruct db; simpl; unfold pop_fault;
    destruct (faults _) as [|[|] fs]; simpl; apply store_le_refl.
Qed.

Lemma steps_insert_one db d : steps (Self := Self) local_le (insert_one db d).
Proof.
  intros s n. unfold insert_one, local_le.
  destruct db; simpl; unfold pop_fault;
    destruct (faults _) as [|[|] fs]; simpl; try apply store_le_refl;
    destruct (_id d); try destruct (existsb _ _); simpl;
    first [apply store_le_refl | apply store_le_append].
Qed.

Lemma steps_update_one_synced db i :
  steps (Self := Self) local_le (update_one_synced db i).
Proof.
  intros s n. unfold update_one_synced, local_le.
  destruct db; simpl; unfold pop_fault;
    destruct (faults _) as [|[|] fs]; simpl;
    first [apply store_le_refl | apply store_le_same_shape, mark_synced_one_le].
Qed.

Lemma steps_update_many_synced db :
  steps (Self := Self) local_le (update_many_synced db).
Proof.
  intros s n. unfold update_many_synced, local_le.
  destruct db; simpl; unfold pop_fault;
    destruct (faults _) as [|[|] fs]; simpl;
    first [apply store_le_refl | apply store_le_same_shape, mark_synced_many_le].
Qed.

End DriverSteps.

Create HintDb steps.

#[local] Hint Resolve local_le_refl local_le_trans steps_ping steps_find
  steps_find_sorted steps_insert_one steps_update_one_synced
  steps_update_many_synced : steps.

Ltac steps :=
  repeat first
    [ apply steps_ping | apply steps_find | apply steps_find_sorted
    | apply steps_insert_one | apply steps_update_one_synced
    | apply steps_update_many_synced
    | apply steps_ret; exact local_le_refl
    | apply steps_get_self; exact local_le_refl
    | apply steps_modify_self; exact local_le_refl
    | apply (steps_bind local_le local_le_trans); [|intro]
    | apply (steps_try_except local_le local_le_trans); [|intro]
    | apply (steps_for_each local_le local_le_refl local_le_trans); intro
    | match goal with
      | |- steps _ (match ?x with _ => _ end) => destruct x
      | |- steps _ (if ?x then _ else _) => destruct x
      end ].

Lemma steps_app_lift_res {A} (r : Res A) : steps local_le (App.lift_res r).
Proof. intros s n. apply local_le_refl. Qed.

Lemma steps_sync_offline_data : steps local_le App.sync_offline_data.
Proof. unfold App.sync_offline_data. steps. Qed.

Lemma steps_connect_atlas : steps local_le App.connect_atlas.
Proof.
  unfold App.connect_atlas.
  apply (steps_try_except local_le local_le_trans); [|intro; steps].
  intros s n. destruct (mongodb_uri n); [|apply local_le_refl].
  revert s n.
  change (steps local_le
            (modify_self (App.set_atlas (Some AtlasServer)) ;;
             ping AtlasServer ;;
             modify_self (App.set_using_atlas true) ;;
             App.sync_offline_data ;; ret (Some true))).
  apply (steps_bind local_le local_le_trans); [steps|intro].
  apply (steps_bind local_le local_le_trans); [steps|intro].
  apply (steps_bind local_le local_le_trans); [steps|intro].
  apply (steps_bind local_le local_le_trans);
    [apply steps_sync_offline_data | intro; steps].
Qed.

Lemma steps_save_reading now d : steps local_le (App.save_reading now d).
Proof. unfold App.save_reading. steps. Qed.

Lemma steps_get_latest_readings limit :
  steps local_le (App.get_latest_readings limit).
Proof.
  unfold App.get_latest_readings, App.get_latest_readings_body.
  apply (steps_try_except local_le local_le_trans); [|intro; steps].
  apply (steps_bind local_le local_le_trans); [steps|intro s].
  destruct (App.local_mongo_db s).
  - apply (steps_bind local_le local_le_trans);
      [steps | intro; apply steps_app_lift_res].
  - destruct (App.simulation_data s) as [sim|]; [|steps].
    apply (steps_bind local_le local_le_trans);
      [apply steps_app_lift_res | intro sorted].
    destruct (stringify_in_place _ sim) as [r sim'].
    apply (steps_bind local_le local_le_trans); [steps|intro].
    apply (steps_bind local_le local_le_trans);
      [apply steps_app_lift_res | intro; steps].
Qed.

Lemma steps_get_historical_data now hours limit :
  steps local_le (App.get_historical_data now hours limit).
Proof.
  unfold App.get_historical_data, App.get_historical_data_body.
  apply (steps_try_except local_le local_le_trans); [|intro; steps].
  apply (steps_bind local_le local_le_trans); [steps|intro s].
  destruct (App.local_mongo_db s); [|steps].
  apply (steps_bind local_le local_le_trans);
    [steps | intro; apply steps_app_lift_res].
Qed.

Lemma steps_run_op op : steps local_le (run_op op).
Proof.
  destruct op; simpl; unfold forget, App.database_health_monitor_pass.
  - apply (steps_bind local_le local_le_trans);
      [apply steps_save_reading | intro; steps].
  - apply steps_sync_offline_data.
  - apply (steps_bind local_le local_le_trans);
      [apply steps_connect_atlas | intro; steps].
  - apply (steps_try_except local_le local_le_trans); [|intro; steps].
    apply (steps_bind local_le local_le_trans); [steps|intro s].
    destruct (App.using_atlas s); [steps|].
    apply (steps_bind local_le local_le_trans);
      [apply steps_connect_atlas | intro; steps].
  - apply (steps_bind local_le local_le_trans);
      [apply steps_get_latest_readings | intro; steps].
  - apply (steps_bind local_le local_le_trans);
      [apply steps_get_historical_data | intro; steps].
Qed.

Lemma run_ops_local_le ops : forall s n, local_le n (snd (run_ops ops s n)).
Proof.
  induction ops as [|op ops IH]; intros s n; simpl; [apply local_le_refl|].
  pose proof (steps_run_op op s n) as H.
  destruct (run_op op s n) as [[r s'] n']. simpl in H.
  eapply local_le_trans; [exact H | apply IH].
Qed.


Lemma mark_synced_one_idem i l :
  mark_synced_one i (mark_synced_one i l) = mark_synced_one i l.
Proof.
  induction l as [|d l IH]; simpl; [reflexivity|].
  destruct (has_id i d) eqn:E; simpl.
  - unfold has_id in *. simpl. rewrite E. reflexivity.
  - rewrite E, IH. reflexivity.
Qed.

Lemma mark_synced_many_idem l :
  mark_synced_many (mark_synced_many l) = mark_synced_many l.
Proof.
  unfold mark_synced_many. rewrite map_map. apply map_ext.
  intro d. destruct (not_synced d) eqn:E; [reflexivity|]. now rewrite E.
Qed.

(** After the update the first record with that id carries the flag. *)
Lemma mark_synced_one_flag i l :
  List.find (has_id i) (mark_synced_one i l)
  = option_map (set_synced (Some true)) (List.find (has_id i) l).
Proof.
  induction l as [|d l IH]; simpl; [reflexivity|].
  destruct (has_id i d) eqn:E; simpl.
  - unfold has_id in *. simpl. rewrite E. reflexivity.
  - rewrite E. exact IH.
Qed.

(** C8 (marking replicated is idempotent and monotonic).  The update that
    marks a record, run twice on a reachable server, succeeds both times
    and the second run changes nothing: the record carries
    [synced_to_atlas = True] and the collection, hence the number of
    flagged records, is as after the first run; the same holds for the
    bulk update of the sync.  And along every run of operations of the
    core (save, sync, connect, health monitor, the two queries), from any
    state and under any faults, every record of the local store stays in
    place with its id, and a flag that is true stays true. *)
Theorem mark_replicated_idempotent_monotonic :
  (forall (s : App.DatabaseService) n db i,
      faults (server db n) = [] ->
      let '(r1, s1, n1) := update_one_synced db i s n in
      let '(r2, s2, n2) := update_one_synced db i s1 n1 in
      r1 = Ok tt /\ r2 = Ok tt /\ n2 = n1
      /\ replicated_count (readings (server db n2))
         = replicated_count (readings (server db n1))
      /\ List.find (has_id i) (readings (server db n2))
         = option_map (set_synced (Some true))
             (List.find (has_id i) (readings (server db n))))
  /\ (forall (s : App.DatabaseService) n db,
      faults (server db n) = [] ->
      let '(r1, s1, n1) := update_many_synced db s n in
      let '(r2, s2, n2) := update_many_synced db s1 n1 in
      r1 = Ok tt /\ r2 = Ok tt /\ n2 = n1)
  /\ (forall ops s n,
      store_le (readings (local_srv n))
               (readings (local_srv (snd (run_ops ops s n))))).
Proof.
  split; [|split].
  - intros s n db i Hup.
    unfold update_one_synced, pop_fault. rewrite Hup.
    destruct db, n as [[lr lo lf] [ar ao af] uri]; simpl in *; subst;
      simpl; rewrite !mark_synced_one_idem, mark_synced_one_flag; auto.
  - intros s n db Hup.
    unfold update_many_synced, pop_fault. rewrite Hup.
    destruct db, n as [[lr lo lf] [ar ao af] uri]; simpl in *; subst;
      simpl; rewrite !mark_synced_many_idem; auto.
  - intros ops s n. apply run_ops_local_le.
Qed.

(** One unreplicated record in the local store, marked twice. *)
Lemma mark_replicated_idempotent_monotonic_witness :
  let record := set_synced (Some false)
                  (set_id (Some (ObjectId LocalServer 0)) reading0) in
  let n := mkNet (mkMongo [record] 1 []) empty_mongo true in
  let i := ObjectId LocalServer 0 in
  let '(r1, s1, n1) := update_one_synced LocalServer i connected n in
  let '(r2, s2, n2) := update_one_synced LocalServer i s1 n1 in
  r1 = Ok tt /\ r2 = Ok tt /\ n2 = n1
  /\ replicated_count (readings (server LocalServer n2))
     = replicated_count (readings (server LocalServer n1))
  /\ List.find (has_id i) (readings (server LocalServer n2))
     = option_map (set_synced (Some true))
         (List.find (has_id i) (readings (server LocalServer n))).
Proof.
  intros record n i.
  exact (proj1 mark_replicated_idempotent_monotonic connected n LocalServer i
           eq_refl).
Defined.



(** The insert loop of the sync: it appends to Atlas the stripped
    documents of a prefix of its input, in the order of the input, and
    touches nothing else; with Atlas up the prefix is the whole input. *)
Lemma for_each_insert_stripped docs : forall (s : App.DatabaseService) n,
  let '(r, s', n') :=
    for_each docs
      (fun doc => _ <- insert_one AtlasServer (App.strip_local_fields doc) ;;
                  ret tt) s n in
  exists k ins,
    readings (atlas_srv n') = readings (atlas_srv n) ++ ins
    /\ map (set_id None) ins = map App.strip_local_fields (firstn k docs)
    /\ local_srv n' = local_srv n
    /\ (faults (atlas_srv n) = [] ->
        r = Ok tt /\ k = List.length docs /\ faults (atlas_srv n') = []).
Proof.
  induction docs as [|d docs IH]; intros s n.
  - simpl. exists 0%nat, []. rewrite app_nil_r. repeat split; auto.
  - cbn [for_each]. unfold bind at 1. unfold bind at 1.
    unfold insert_one, pop_fault. simpl server.
    destruct (faults (atlas_srv n)) as [|[|] fs] eqn:Ef; simpl.
    + specialize (IH s (mkNet (local_srv n)
                          (mkMongo (readings (atlas_srv n)
                                    ++ [set_id (Some (ObjectId AtlasServer (next_oid (atlas_srv n))))
                                          (App.strip_local_fields d)])
                                   (S (next_oid (atlas_srv n))) (faults (atlas_srv n)))
                          (mongodb_uri n))).
      destruct (for_each docs _ s _) as [[r s'] n'].
      destruct IH as (k & ins & E1 & E2 & E3 & E4). simpl in *.
      exists (S k), (set_id (Some (ObjectId AtlasServer (next_oid (atlas_srv n))))
                       (App.strip_local_fields d) :: ins).
      rewrite E1, <- app_assoc. simpl. rewrite E2.
      repeat split; auto; destruct (E4 Ef) as (? & ? & ?); auto.
    + exists 0%nat, []. rewrite app_nil_r. repeat split; auto; discriminate.
    + specialize (IH s (mkNet (local_srv n)
                          (mkMongo (readings (atlas_srv n)
                                    ++ [set_id (Some (ObjectId AtlasServer (next_oid (atlas_srv n))))
                                          (App.strip_local_fields d)])
                                   (S (next_oid (atlas_srv n))) fs)
                          (mongodb_uri n))).
      destruct (for_each docs _ s _) as [[r s'] n'].
      destruct IH as (k & ins & E1 & E2 & E3 & E4). simpl in *.
      exists (S k), (set_id (Some (ObjectId AtlasServer (next_oid (atlas_srv n))))
                       (App.strip_local_fields d) :: ins).
      rewrite E1, <- app_assoc. simpl. rewrite E2.
      repeat split; auto; discriminate.
Qed.

Lemma unreplicated_mark_synced_many l :
  filter not_synced (mark_synced_many l) = [].
Proof.
  induction l as [|d l IH]; simpl; [reflexivity|].
  destruct (not_synced d) eqn:E; simpl; [exact IH|]. rewrite E. exact IH.
Qed.

(** The bulk update of the sync, run after the insert loop. *)
Lemma update_many_after_loop (r : Res unit) (s : App.DatabaseService) n :
  let res :=
    (let (p, n') :=
       match r with
       | Ok _ => update_many_synced LocalServer s n
       | Raise e => (Raise e, s, n)
       end in
     let (r, s') := p in
     match r with
     | Ok a => (Ok a, s', n')
     | Raise e => if is_Exception e then ret tt s' n' else (Raise e, s', n')
     end) in
  atlas_srv (snd res) = atlas_srv n
  /\ (r = Ok tt -> faults (local_srv n) = [] ->
      readings (local_srv (snd res)) = mark_synced_many (readings (local_srv n))).
Proof.
  destruct r as [[]|e]; simpl.
  - unfold update_many_synced, pop_fault. simpl.
    destruct (faults (local_srv n)) as [|[|] fs]; simpl; split; auto;
      intros; discriminate.
  - destruct (is_Exception e); simpl; split; auto; intros; discriminate.
Qed.

Lemma sync_atlas_shape ua sim n :
  let s := App.mkDb (Some LocalServer) (Some AtlasServer) ua sim in
  let n' := snd (App.sync_offline_data s n) in
  exists k ins,
    readings (atlas_srv n') = readings (atlas_srv n) ++ ins
    /\ map (set_id None) ins
       = map App.strip_local_fields (firstn k (unreplicated n))
    /\ (servers_up n ->
        k = List.length (unreplicated n) /\ unreplicated n' = []).
Proof.
  intros s n'. subst n'.
  remember (App.sync_offline_data s n) as res eqn:Eres.
  unfold App.sync_offline_data in Eres.
  unfold bind at 1 in Eres. cbn [get_self s atlas_mongo_db local_mongo_db] in Eres.
  unfold try_except in Eres. unfold bind at 1 in Eres.
  unfold find at 1, pop_fault in Eres. cbn [server] in Eres.
  unfold servers_up, unreplicated.
  destruct (faults (local_srv n)) as [|[|] fs] eqn:Ef;
    cbn [readings next_oid faults] in Eres.
  - destruct (filter not_synced (readings (local_srv n))) as [|d0 docs] eqn:Eu.
    + subst res. simpl. exists 0%nat, []. rewrite app_nil_r.
      split; [reflexivity|]. split; [reflexivity|]. intros _. auto.
    + set (n1 := set_server LocalServer (local_srv n) n) in Eres.
      pose proof (for_each_insert_stripped (d0 :: docs) s n1) as H.
      unfold bind at 1 in Eres.
      destruct (for_each (d0 :: docs) _ s n1) as [[r s'] n2].
      destruct H as (k & ins & E1 & E2 & E3 & E4).
      destruct (update_many_after_loop r s' n2) as [Ha Hl].
      rewrite <- Eres in Ha, Hl.
      exists k, ins. rewrite Ha, E1.
      split; [reflexivity|]. split; [exact E2|].
      intros [_ Hup]. apply E4 in Hup. destruct Hup as (Hr & Hk & _).
      split; [exact Hk|].
      rewrite Hl; [apply unreplicated_mark_synced_many | exact Hr |].
      rewrite E3. exact Ef.
  - subst res. simpl. exists 0%nat, []. rewrite app_nil_r.
    split; [reflexivity|]. split; [reflexivity|].
    intros [Hl _]. discriminate Hl.
  - destruct (filter not_synced (readings (local_srv n))) as [|d0 docs] eqn:Eu.
    + subst res. simpl. exists 0%nat, []. rewrite app_nil_r.
      split; [reflexivity|]. split; [reflexivity|].
      intros [Hl _]. discriminate Hl.
    + set (n1 := set_server LocalServer _ n) in Eres.
      pose proof (for_each_insert_stripped (d0 :: docs) s n1) as H.
      unfold bind at 1 in Eres.
      destruct (for_each (d0 :: docs) _ s n1) as [[r s'] n2].
      destruct H as (k & ins & E1 & E2 & E3 & E4).
      destruct (update_many_after_loop r s' n2) as [Ha Hl].
      rewrite <- Eres in Ha, Hl.
      exists k, ins. rewrite Ha, E1.
      split; [reflexivity|]. split; [exact E2|].
      intros [Hl0 _]. discriminate Hl0.
Qed.

Lemma StronglySorted_map_ts l :
  StronglySorted ts_le l <-> StronglySorted Z.le (map ts_of l).
Proof.
  induction l as [|d l IH]; simpl.
  - split; constructor.
  - split; intro H; inversion H as [|x l' Hs Hall]; subst; constructor.
    + apply IH. exact Hs.
    + apply Forall_map. exact Hall.
    + apply IH. exact Hs.
    + rewrite Forall_map in Hall. exact Hall.
Qed.

Lemma StronglySorted_filter {A} (R : A -> A -> Prop) f l :
  StronglySorted R l -> StronglySorted R (filter f l).
Proof.
  induction 1 as [|x l Hs IH Hx]; simpl; [constructor|].
  destruct (f x); [|exact IH].
  constructor; [exact IH|].
  rewrite Forall_forall in *. intros y Hy. apply Hx.
  apply filter_In in Hy. tauto.
Qed.

Lemma Forall_firstn {A} (P : A -> Prop) k : forall l,
  Forall P l -> Forall P (firstn k l).
Proof.
  induction k as [|k IH]; intros l H; simpl; [constructor|].
  destruct H as [|x l Hx Hl]; constructor; auto.
Qed.

Lemma StronglySorted_firstn {A} (R : A -> A -> Prop) k : forall l,
  StronglySorted R l -> StronglySorted R (firstn k l).
Proof.
  induction k as [|k IH]; intros l H; simpl; [constructor|].
  destruct H as [|x l Hs Hall]; constructor.
  - apply IH. exact Hs.
  - apply Forall_firstn. exact Hall.
Qed.

Lemma ts_of_strip d : ts_of (App.strip_local_fields d) = ts_of d.
Proof. reflexivity. Qed.

Lemma ts_of_set_id i d : ts_of (set_id i d) = ts_of d.
Proof. reflexivity. Qed.

(** C1, refuted as worded.  After two saves made during an Atlas outage,
    between which the clock was set back from 200 to 100, the sync inserts
    the record stamped 200 before the record stamped 100. *)
Lemma sync_not_in_timestamp_order :
  ~ sync_in_timestamp_order (fst clock_set_back) (snd clock_set_back).
Proof.
  intro H.
  set (stamped t :=
         set_synced (Some false)
           (set_device_id DEVICE_ID
              (set_server_timestamp (Some (TsDatetime t)) reading0))).
  specialize (H (set_id (Some (ObjectId LocalServer 1)) (stamped 100%Z))
                (set_id (Some (ObjectId LocalServer 0)) (stamped 200%Z))).
  destruct H as (i & j & Hlt & Hi & Hj).
  - vm_compute. right. left. reflexivity.
  - vm_compute. left. reflexivity.
  - reflexivity.
  - destruct j as [|j].
    + inversion Hlt.
    + destruct j as [|j]; vm_compute in Hj; [discriminate Hj|].
      destruct j; discriminate Hj.
Qed.

(** C1, amended.  The sync inserts into Atlas the unreplicated records of
    the local store in their storage order, that is the order in which
    they were saved: what it appends to Atlas is, ids apart, a prefix of
    the stripped unreplicated records, and all of them when both servers
    answer, after which no local record is unreplicated.  Whenever the
    local store is in non-decreasing [server_timestamp] order, which the
    saves produce as long as the clock does not go back, the inserted
    records are in non-decreasing [server_timestamp] order too. *)
Theorem sync_offline_data_storage_order ua sim n :
  let s := App.mkDb (Some LocalServer) (Some AtlasServer) ua sim in
  let n' := snd (App.sync_offline_data s n) in
  (exists k, map (set_id None) (inserted_by n n')
             = map App.strip_local_fields (firstn k (unreplicated n)))
  /\ (servers_up n ->
      map (set_id None) (inserted_by n n')
      = map App.strip_local_fields (unreplicated n)
      /\ unreplicated n' = [])
  /\ (StronglySorted ts_le (readings (local_srv n)) ->
      StronglySorted ts_le (inserted_by n n')).
Proof.
  intros s n'.
  destruct (sync_atlas_shape ua sim n) as (k & ins & E1 & E2 & E3).
  fold s in E1, E3. fold n' in E1, E3.
  assert (Ei : inserted_by n n' = ins).
  { unfold inserted_by. rewrite E1. apply skipn_length_app. }
  rewrite Ei. split; [|split].
  - exists k. exact E2.
  - intro Hup. destruct (E3 Hup) as [Hk Hu]. split; [|exact Hu].
    rewrite E2, Hk, firstn_all. reflexivity.
  - intro Hs. apply StronglySorted_map_ts.
    assert (Em : map ts_of ins = map ts_of (firstn k (unreplicated n))).
    { rewrite <- (map_ext _ _ (ts_of_set_id None)), <- map_map, E2, map_map.
      apply map_ext. intro d. apply ts_of_strip. }
    rewrite Em. apply StronglySorted_map_ts.
    apply StronglySorted_firstn. unfold unreplicated.
    apply StronglySorted_filter. exact Hs.
Qed.

(** Two saves during an Atlas outage with the clock running forward:
    the sync replicates both, the record stamped 100 first. *)
Lemma sync_offline_data_storage_order_witness :
  let n := snd clock_forward in
  let n' := snd (App.sync_offline_data connected n) in
  (map (set_id None) (inserted_by n n')
   = map App.strip_local_fields (unreplicated n)
   /\ unreplicated n' = [])
  /\ StronglySorted ts_le (inserted_by n n')
  /\ map ts_of (inserted_by n n') = [100%Z; 200%Z].
Proof.
  intros n n'.
  destruct (sync_offline_data_storage_order true None n) as (_ & H2 & H3).
  split; [|split].
  - apply H2. split; reflexivity.
  - apply H3. apply StronglySorted_map_ts. vm_compute.
    repeat constructor; discriminate.
  - reflexivity.
Defined.

(** ** Order of the query results *)

Section SortBy.
Context {A : Type} (le : A -> A -> bool).
Context (le_total : forall a b, le a b = true \/ le b a = true).
Context (le_trans : forall a b c, le a b = true -> le b c = true -> le a c = true).

Lemma Forall_insert_by (P : A -> Prop) x l :
  P x -> Forall P l -> Forall P (insert_by le x l).
Proof.
  intros Hx Hl. induction Hl as [|y l Hy Hl IH]; simpl.
  - constructor; [exact Hx | constructor].
  - destruct (le x y); repeat constructor; auto.
Qed.

Lemma Forall_sort_by (P : A -> Prop) l : Forall P l -> Forall P (sort_by le l).
Proof.
  induction 1 as [|x l Hx Hl IH]; simpl; [constructor|].
  apply Forall_insert_by; assumption.
Qed.

Lemma insert_by_sorted x l :
  StronglySorted (fun a b => le a b = true) l ->
  StronglySorted (fun a b => le a b = true) (insert_by le x l).
Proof.
  induction 1 as [|y l Hs IH Hy]; simpl.
  - repeat constructor.
  - destruct (le x y) eqn:E.
    + constructor; [constructor; assumption|].
      constructor; [exact E|].
      eapply Forall_impl; [|exact Hy]. intros z Hz. eapply le_trans; eauto.
    + constructor; [exact IH|].
      apply Forall_insert_by; [|exact Hy].
      destruct (le_total x y) as [H|H]; [congruence | exact H].
Qed.

Lemma sort_by_sorted l : StronglySorted (fun a b => le a b = true) (sort_by le l).
Proof.
  induction l as [|x l IH]; simpl; [constructor|].
  apply insert_by_sorted. exact IH.
Qed.

End SortBy.

Lemma StronglySorted_impl_on {A} (P : A -> Prop) (R Q : A -> A -> Prop) l :
  (forall a b, P a -> P b -> R a b -> Q a b) ->
  Forall P l -> StronglySorted R l -> StronglySorted Q l.
Proof.
  intros HRQ HP Hs. induction Hs as [|x l Hs IH Hx]; [constructor|].
  inversion HP as [|x' l' Px Pl]; subst. constructor; [apply IH; exact Pl|].
  rewrite Forall_forall in *. intros y Hy. apply HRQ; auto.
Qed.

Lemma bson_leb_total a b : bson_leb a b = true \/ bson_leb b a = true.
Proof.
  unfold bson_leb.
  rewrite !orb_true_iff, !andb_true_iff, !Z.ltb_lt, !Z.eqb_eq, !Z.leb_le. lia.
Qed.

Lemma bson_leb_trans a b c :
  bson_leb a b = true -> bson_leb b c = true -> bson_leb a c = true.
Proof.
  unfold bson_leb.
  rewrite !orb_true_iff, !andb_true_iff, !Z.ltb_lt, !Z.eqb_eq, !Z.leb_le. lia.
Qed.

(** On dated records MongoDB's order is the order of the instants. *)
Lemma bson_leb_dated a b :
  ts_is_datetime a = true -> ts_is_datetime b = true ->
  bson_leb (server_timestamp a) (server_timestamp b) = true -> ts_le a b.
Proof.
  unfold ts_is_datetime, bson_leb, ts_le, ts_of.
  destruct (server_timestamp a) as [[ta|ta]|], (server_timestamp b) as [[tb|tb]|];
    simpl; try discriminate; intros _ _ H.
  apply Z.leb_le. exact H.
Qed.

Lemma Forall_filter {A} (P : A -> Prop) f l : Forall P l -> Forall P (filter f l).
Proof.
  induction 1 as [|x l Hx Hl IH]; simpl; [constructor|].
  destruct (f x); [constructor|]; assumption.
Qed.

Lemma cursor_limit_sorted {A} (R : A -> A -> Prop) limit l :
  StronglySorted R l -> StronglySorted R (cursor_limit limit l).
Proof.
  intro H. unfold cursor_limit.
  destruct (limit =? 0)%Z; [exact H | apply StronglySorted_firstn; exact H].
Qed.

(** A sorted, limited cursor over dated records is in the order asked
    for. *)
Lemma cursor_descending_newest_first q limit l :
  Forall (fun d => ts_is_datetime d = true) l ->
  newest_first (cursor_limit limit (cursor_sort Descending (filter q l))).
Proof.
  intro Hd. apply cursor_limit_sorted. simpl.
  apply StronglySorted_impl_on
    with (P := fun d => ts_is_datetime d = true)
         (R := fun a b => bson_leb (server_timestamp b) (server_timestamp a) = true).
  - intros a b Ha Hb H. apply bson_leb_dated; assumption.
  - apply Forall_sort_by, Forall_filter, Hd.
  - apply sort_by_sorted.
    + intros a b. apply bson_leb_total.
    + intros a b c H1 H2. eapply bson_leb_trans; eauto.
Qed.

Lemma cursor_ascending_oldest_first q limit l :
  Forall (fun d => ts_is_datetime d = true) l ->
  oldest_first (cursor_limit limit (cursor_sort Ascending (filter q l))).
Proof.
  intro Hd. apply cursor_limit_sorted. simpl.
  apply StronglySorted_impl_on
    with (P := fun d => ts_is_datetime d = true)
         (R := fun a b => bson_leb (server_timestamp a) (server_timestamp b) = true).
  - intros a b Ha Hb H. apply bson_leb_dated; assumption.
  - apply Forall_sort_by, Forall_filter, Hd.
  - apply sort_by_sorted.
    + intros a b. apply bson_leb_total.
    + intros a b c H1 H2. eapply bson_leb_trans; eauto.
Qed.

(** The conversions for the caller keep the instants. *)
Lemma app_stringify_doc_ts d d' :
  App.stringify_doc d = Ok d' -> ts_of d' = ts_of d.
Proof.
  unfold App.stringify_doc. destruct (_id d); [|discriminate].
  intro H. inversion H; subst. unfold ts_of. simpl.
  destruct (server_timestamp d) as [[t|t]|]; reflexivity.
Qed.

Lemma app_stringify_all_ts l : forall l',
  App.stringify_all l = Ok l' -> map ts_of l' = map ts_of l.
Proof.
  induction l as [|d l IH]; intros l' H; simpl in H.
  - inversion H. reflexivity.
  - destruct (App.stringify_doc d) as [d'|] eqn:Ed; [|discriminate].
    destruct (App.stringify_all l) as [r|]; [|discriminate].
    inversion H; subst. simpl.
    rewrite (app_stringify_doc_ts _ _ Ed), (IH r eq_refl). reflexivity.
Qed.

Lemma db_stringify_all_ts l : forall l',
  DbService.stringify_all l = Ok l' -> map ts_of l' = map ts_of l.
Proof.
  induction l as [|d l IH]; intros l' H; simpl in H.
  - inversion H. reflexivity.
  - destruct (DbService.stringify_doc d) as [d'|] eqn:Ed; [|discriminate].
    destruct (DbService.stringify_all l) as [r|]; [|discriminate].
    inversion H; subst. simpl. rewrite (IH r eq_refl). f_equal.
    unfold DbService.stringify_doc in Ed.
    destruct (_id d); [|discriminate].
    unfold ts_of.
    destruct (server_timestamp d) as [[t|t]|] eqn:Et;
      inversion Ed; subst; simpl; rewrite ?Et; reflexivity.
Qed.

Lemma newest_first_map_ts l l' :
  map ts_of l' = map ts_of l -> newest_first l -> newest_first l'.
Proof.
  unfold newest_first. intros E H.
  assert (G : forall m, StronglySorted (fun a b => ts_le b a) m
                   <-> StronglySorted Z.ge (map ts_of m)).
  { induction m as [|d m IH]; simpl; [split; constructor|].
    split; intro K; inversion K as [|x m' Hs Hall]; subst; constructor.
    - apply IH. exact Hs.
    - apply Forall_map. eapply Forall_impl; [|exact Hall].
      intros a Ha. unfold ts_le in Ha. lia.
    - apply IH. exact Hs.
    - rewrite Forall_map in Hall. eapply Forall_impl; [|exact Hall].
      intros a Ha. unfold ts_le. simpl in Ha. lia. }
  apply G. rewrite E. apply G. exact H.
Qed.

Lemma oldest_first_map_ts l l' :
  map ts_of l' = map ts_of l -> oldest_first l -> oldest_first l'.
Proof.
  unfold oldest_first. intros E H.
  apply StronglySorted_map_ts. rewrite E. apply StronglySorted_map_ts. exact H.
Qed.

(** *** The in-memory store: conversions in place *)

Lemma nth_error_update_nth {A} (x : A) : forall l i j,
  nth_error (update_nth i x l) j
  = if Nat.eqb i j then option_map (fun _ => x) (nth_error l j)
    else nth_error l j.
Proof.
  induction l as [|y l IH]; intros i j.
  - destruct i, j; simpl; try reflexivity; destruct (Nat.eqb i j); reflexivity.
  - destruct i as [|i], j as [|j]; simpl; try reflexivity. apply IH.
Qed.

(** The loop of conversions changes no instant of the store. *)
Lemma stringify_in_place_ts idxs : forall store r store',
  stringify_in_place idxs store = (r, store') ->
  forall j, option_map ts_of (nth_error store' j)
            = option_map ts_of (nth_error store j).
Proof.
  induction idxs as [|i idxs IH]; intros store r store' H j; simpl in H.
  - inversion H. reflexivity.
  - destruct (nth_error store i) as [d|] eqn:Ei; [|inversion H; reflexivity].
    destruct (App.stringify_doc d) as [d'|e] eqn:Ed; [|inversion H; reflexivity].
    rewrite (IH _ _ _ H j), nth_error_update_nth.
    destruct (Nat.eqb i j) eqn:Eij; [|reflexivity].
    apply Nat.eqb_eq in Eij. subst j. rewrite Ei. simpl.
    now rewrite (app_stringify_doc_ts _ _ Ed).
Qed.

Lemma enumerate_from_nth {A} (l : list A) : forall k i d,
  In (i, d) (combine (seq k (List.length l)) l) ->
  (k <= i)%nat /\ nth_error l (i - k) = Some d.
Proof.
  induction l as [|x l IH]; intros k i d H; simpl in H; [destruct H|].
  destruct H as [H|H].
  - inversion H; subst. rewrite Nat.sub_diag. auto.
  - apply IH in H. destruct H as [Hle Hn]. split; [lia|].
    replace (i - k)%nat with (S (i - S k)) by lia. exact Hn.
Qed.

Lemma enumerate_nth {A} (l : list A) :
  Forall (fun p => nth_error l (fst p) = Some (snd p)) (enumerate l).
Proof.
  apply Forall_forall. intros [i d] H. simpl.
  apply enumerate_from_nth in H. rewrite Nat.sub_0_r in H. tauto.
Qed.

(** The documents handed out are those of the chosen positions, with the
    instants they had before the conversions. *)
Lemma pick_ts (pairs : list (nat * Doc)) store store' :
  Forall (fun p => nth_error store (fst p) = Some (snd p)) pairs ->
  (forall j, option_map ts_of (nth_error store' j)
             = option_map ts_of (nth_error store j)) ->
  map ts_of (pick (map fst pairs) store') = map ts_of (map snd pairs).
Proof.
  intros Hp Hts. induction Hp as [|[i d] pairs Hi Hp IH]; simpl; [reflexivity|].
  simpl in Hi. specialize (Hts i). rewrite Hi in Hts.
  destruct (nth_error store' i) as [d'|]; [|discriminate].
  simpl in *. inversion Hts. rewrite IH. reflexivity.
Qed.

Lemma py_slice_to_firstn {A} limit (l : list A) :
  exists k, py_slice_to limit l = firstn k l.
Proof. unfold py_slice_to. destruct (0 <=? limit)%Z; eauto. Qed.

Lemma StronglySorted_map {A B} (f : A -> B) (R : B -> B -> Prop) l :
  StronglySorted (fun a b => R (f a) (f b)) l -> StronglySorted R (map f l).
Proof.
  induction 1 as [|x l Hs IH Hx]; simpl; constructor; [exact IH|].
  apply Forall_map. exact Hx.
Qed.

(** Whatever the in-memory store holds, what [get_latest_readings] takes
    from it is newest first. *)
Lemma sim_latest_newest_first limit sim sorted r sim' :
  sorted_newest_first sim = Ok sorted ->
  stringify_in_place (map fst (py_slice_to limit sorted)) sim = (r, sim') ->
  newest_first (pick (map fst (py_slice_to limit sorted)) sim').
Proof.
  intros Hsorted Hplace.
  unfold sorted_newest_first in Hsorted.
  destruct (forallb has_server_timestamp sim); [|discriminate].
  destruct (_ || _); [|discriminate].
  injection Hsorted as Es.
  destruct (py_slice_to_firstn limit sorted) as [k Ek].
  rewrite Ek in Hplace |- *.
  assert (Hnth : Forall (fun p => nth_error sim (fst p) = Some (snd p))
                   (firstn k sorted)).
  { apply Forall_firstn. rewrite <- Es. apply Forall_sort_by, enumerate_nth. }
  apply newest_first_map_ts with (l := map snd (firstn k sorted)).
  - apply pick_ts with (store := sim); [exact Hnth|].
    apply (stringify_in_place_ts _ _ _ _ Hplace).
  - apply StronglySorted_map, StronglySorted_firstn. rewrite <- Es.
    apply StronglySorted_impl_on
      with (P := fun _ => True)
           (R := fun a b => ts_geb (snd a) (snd b) = true).
    + intros a b _ _ H. unfold ts_geb in H. apply Z.leb_le in H. exact H.
    + apply Forall_forall. auto.
    + apply sort_by_sorted.
      * intros a b. unfold ts_geb. rewrite !Z.leb_le. lia.
      * intros a b c. unfold ts_geb. rewrite !Z.leb_le. lia.
Qed.

(** *** The queries on a server *)

Lemma readings_pop_fault m : readings (snd (pop_fault m)) = readings m.
Proof. unfold pop_fault. destruct (faults m); reflexivity. Qed.

(** A sorted query followed by the conversions of [app.py], inside its
    [try]: the instants of the answer are those of the cursor, or the
    answer is empty. *)
Lemma app_cursor_query db q dir limit (s : App.DatabaseService) n :
  exists l s' n',
    try_except
      (cursor <- find_sorted db q dir limit ;;
       App.lift_res (App.stringify_all cursor))
      (fun _ => ret []) s n = (Ok l, s', n')
    /\ (l = []
        \/ map ts_of l
           = map ts_of (cursor_limit limit
                          (cursor_sort dir (filter q (readings (server db n)))))).
Proof.
  unfold try_except, bind, find_sorted, App.lift_res.
  pose proof (readings_pop_fault (server db n)) as Hr.
  destruct (pop_fault (server db n)) as [[|] m]; simpl in Hr.
  - exists [], s, (set_server db m n). split; [reflexivity | left; reflexivity].
  - rewrite Hr.
    pose proof (app_stringify_all_exn
                  (cursor_limit limit
                     (cursor_sort dir (filter q (readings (server db n)))))) as He.
    destruct (App.stringify_all _) as [l|e] eqn:El.
    + do 3 eexists. split; [reflexivity|]. right.
      apply app_stringify_all_ts. exact El.
    + simpl in He. rewrite He.
      exists [], s, (set_server db m n). split; [reflexivity | left; reflexivity].
Qed.

Lemma db_cursor_query db q dir limit (s : DbService.DatabaseService) n :
  exists l s' n',
    try_except
      (cursor <- find_sorted db q dir limit ;;
       DbService.lift_res (DbService.stringify_all cursor))
      (fun _ => ret []) s n = (Ok l, s', n')
    /\ (l = []
        \/ map ts_of l
           = map ts_of (cursor_limit limit
                          (cursor_sort dir (filter q (readings (server db n)))))).
Proof.
  unfold try_except, bind, find_sorted, DbService.lift_res.
  pose proof (readings_pop_fault (server db n)) as Hr.
  destruct (pop_fault (server db n)) as [[|] m]; simpl in Hr.
  - exists [], s, (set_server db m n). split; [reflexivity | left; reflexivity].
  - rewrite Hr.
    pose proof (db_stringify_all_exn
                  (cursor_limit limit
                     (cursor_sort dir (filter q (readings (server db n)))))) as He.
    destruct (DbService.stringify_all _) as [l|e] eqn:El.
    + do 3 eexists. split; [reflexivity|]. right.
      apply db_stringify_all_ts. exact El.
    + simpl in He. rewrite He.
      exists [], s, (set_server db m n). split; [reflexivity | left; reflexivity].
Qed.

Lemma newest_first_nil : newest_first [].
Proof. constructor. Qed.


Lemma app_get_latest_readings_order limit s n :
  dated n ->
  exists l s' n',
    App.get_latest_readings limit s n = (Ok l, s', n') /\ newest_first l.
Proof.
  intro Hd. destruct s as [lo at_ ua sim].
  unfold App.get_latest_readings, App.get_latest_readings_body.
  destruct lo as [db|].
  - destruct (app_cursor_query db has_device_id Descending limit
                (App.mkDb (Some db) at_ ua sim) n)
      as (l & s' & n' & E & [->|Hl]).
    + exists [], s', n'. split; [exact E | apply newest_first_nil].
    + exists l, s', n'. split; [exact E|].
      eapply newest_first_map_ts; [exact Hl|].
      apply cursor_descending_newest_first, Hd.
  - destruct sim as [sim|]; [|do 3 eexists; split; [reflexivity|constructor]].
    unfold try_except, bind, App.lift_res. cbn [get_self App.local_mongo_db
      App.simulation_data].
    pose proof (sorted_newest_first_exn sim) as Hs.
    destruct (sorted_newest_first sim) as [sorted|e] eqn:Es.
    + pose proof (stringify_in_place_exn (map fst (py_slice_to limit sorted)) sim)
        as Hp.
      pose proof (fun r sim' => sim_latest_newest_first limit sim sorted r sim' Es)
        as Hn.
      destruct (stringify_in_place _ sim) as [r sim'].
      specialize (Hn r sim' eq_refl). simpl in Hp.
      destruct r as [[]|e]; simpl.
      * do 3 eexists. split; [reflexivity | exact Hn].
      * rewrite Hp. simpl. do 3 eexists. split; [reflexivity | constructor].
    + simpl in Hs. rewrite Hs. simpl.
      do 3 eexists. split; [reflexivity | constructor].
Qed.

Lemma app_get_historical_data_order now hours limit s n :
  dated n ->
  exists l s' n',
    App.get_historical_data now hours limit s n = (Ok l, s', n')
    /\ newest_first l.
Proof.
  intro Hd. destruct s as [lo at_ ua sim].
  unfold App.get_historical_data, App.get_historical_data_body.
  destruct lo as [db|]; [|do 3 eexists; split; [reflexivity|constructor]].
  destruct (app_cursor_query db
              (fun d => ts_gte (hours_before now hours) d && has_device_id d)
              Descending limit (App.mkDb (Some db) at_ ua sim) n)
    as (l & s' & n' & E & [->|Hl]).
  - exists [], s', n'. split; [exact E | apply newest_first_nil].
  - exists l, s', n'. split; [exact E|].
    eapply newest_first_map_ts; [exact Hl|].
    apply cursor_descending_newest_first, Hd.
Qed.

Lemma db_get_latest_readings_order limit s n :
  dated n ->
  exists l s' n',
    DbService.get_latest_readings limit s n = (Ok l, s', n') /\ newest_first l.
Proof.
  intro Hd.
  unfold DbService.get_latest_readings, DbService.get_latest_readings_body.
  destruct (DbService.read_db s) as [db|] eqn:Er.
  - destruct (db_cursor_query db (fun _ => true) Descending limit s n)
      as (l & s' & n' & E & H).
    exists l, s', n'. split.
    + revert E. unfold try_except, bind. cbn [get_self]. rewrite Er. auto.
    + destruct H as [->|Hl]; [constructor|].
      eapply newest_first_map_ts; [exact Hl|].
      apply cursor_descending_newest_first, Hd.
  - unfold try_except, bind. cbn [get_self]. rewrite Er.
    do 3 eexists. split; [reflexivity|constructor].
Qed.

Lemma db_get_historical_data_order now hours s n :
  dated n ->
  exists l s' n',
    DbService.get_historical_data now hours s n = (Ok l, s', n')
    /\ oldest_first l.
Proof.
  intro Hd.
  unfold DbService.get_historical_data, DbService.get_historical_data_body.
  destruct (DbService.read_db s) as [db|] eqn:Er.
  - destruct (db_cursor_query db (ts_gte (hours_before now hours)) Ascending 0 s n)
      as (l & s' & n' & E & H).
    exists l, s', n'. split.
    + revert E. unfold try_except, bind. cbn [get_self]. rewrite Er. auto.
    + destruct H as [->|Hl]; [constructor|].
      eapply oldest_first_map_ts; [exact Hl|].
      apply cursor_ascending_oldest_first, Hd.
  - unfold try_except, bind. cbn [get_self]. rewrite Er.
    do 3 eexists. split; [reflexivity|constructor].
Qed.

(** C7 (order of the query results), evaluated.  On servers whose records
    are dated, in every state of the services: [get_latest_readings]
    answers newest first in both modules; [get_historical_data] of
    [database_service.py] answers oldest first; [get_historical_data] of
    [app.py], the one behind the application's history route, answers
    newest first.  On a local store holding the records stamped 100 and
    200, the range query of [app.py] answers 200 before 100, the one of
    [database_service.py] 100 before 200. *)
Theorem historical_data_order :
  (forall limit s n, dated n ->
      exists l s' n',
        App.get_latest_readings limit s n = (Ok l, s', n') /\ newest_first l)
  /\ (forall limit s n, dated n ->
      exists l s' n',
        DbService.get_latest_readings limit s n = (Ok l, s', n')
        /\ newest_first l)
  /\ (forall now hours s n, dated n ->
      exists l s' n',
        DbService.get_historical_data now hours s n = (Ok l, s', n')
        /\ oldest_first l)
  /\ (forall now hours limit s n, dated n ->
      exists l s' n',
        App.get_historical_data now hours limit s n = (Ok l, s', n')
        /\ newest_first l)
  /\ (let n := snd clock_forward in
      map ts_of (readings (local_srv n)) = [100; 200]%Z
      /\ answered (App.get_historical_data 300 1 500 connected n) = [200; 100]%Z
      /\ answered (App.get_latest_readings 10 connected n) = [200; 100]%Z
      /\ answered (DbService.get_historical_data 300 1 db_local_only n)
         = [100; 200]%Z).
Proof.
  split; [|split; [|split; [|split]]].
  - intros. now apply app_get_latest_readings_order.
  - intros. now apply db_get_latest_readings_order.
  - intros. now apply db_get_historical_data_order.
  - intros. now apply app_get_historical_data_order.
  - vm_compute. repeat split; reflexivity.
Qed.

(** The store with the records stamped 100 and 200 is dated; the range
    query of [app.py] answers it newest first. *)
Lemma historical_data_order_witness :
  exists l s' n',
    App.get_historical_data 300 1 500 connected (snd clock_forward)
    = (Ok l, s', n')
    /\ newest_first l.
Proof.
  destruct historical_data_order as (_ & _ & _ & H & _).
  apply H. intros [|]; vm_compute; repeat constructor.
Defined.

(** ** Further evaluations *)

(** The sync of [database_service.py] on the store written with the clock
    set back: it pushes the records of the last 24 hours in storage order
    as well, the one stamped 200 first. *)
Example db_sync_offline_data_storage_order :
  let n := snd clock_set_back in
  map ts_of (inserted_by n (snd (DbService.sync_offline_data 300 db_connected n)))
  = [200; 100]%Z.
Proof. reflexivity. Qed.

(** The in-memory store hands out its own dictionaries: a first query
    turns the stored timestamps into strings; after one more save the
    store mixes a [datetime] with strings, the sort raises [TypeError] and
    the query answers the empty list. *)
Example latest_on_in_memory_store :
  let '(s0, n0) := fallback_start in
  let '(s1, n1) := save_all [(100%Z, reading0); (200%Z, reading0)] s0 n0 in
  let '(r1, s2, n2) := App.get_latest_readings 10 s1 n1 in
  let '(s3, n3) := save_all [(300%Z, reading0)] s2 n2 in
  let '(r2, _, _) := App.get_latest_readings 10 s3 n3 in
  option_map (map server_timestamp) (App.simulation_data s1)
  = Some [Some (TsDatetime 100); Some (TsDatetime 200)]
  /\ answered (r1, s2, n2) = [200; 100]%Z
  /\ option_map (map server_timestamp) (App.simulation_data s3)
     = Some [Some (TsIso 100); Some (TsIso 200); Some (TsDatetime 300)]
  /\ r2 = Ok [].
Proof. vm_compute. repeat split; reflexivity. Qed.

(** * Further properties *)

(** ** Control policy: lights, fogger timer, repeated cycles *)

Lemma lights_active_control_fogger p a d g :
  lights_active (control_fogger p a d g) = lights_active g.
Proof.
  unfold control_fogger.
  destruct (simulated p), (fogger_fault p), a; reflexivity.
Qed.

Lemma lights_active_control_fan p s g :
  lights_active (control_fan p s g) = lights_active g.
Proof.
  unfold control_fan. destruct (simulated p), (fan_fault p); reflexivity.
Qed.

Lemma lights_active_before_lights_rule cfg p d g :
  lights_active (fan_rule cfg p d (fogger_rule cfg p d (veto_rule p d g)))
  = lights_active g.
Proof.
  unfold fan_rule, fogger_rule, veto_rule.
  repeat match goal with
         | |- context [if ?b then _ else _] => destruct b
         end;
    rewrite ?lights_active_control_fan, ?lights_active_control_fogger;
    reflexivity.
Qed.

Lemma lights_rule_new_calls cfg p hour g :
  calls (lights_rule cfg p hour g)
  = calls g ++ (if Bool.eqb (should_lights_be_on cfg hour) (lights_active g)
                then [] else [LightsCommand (should_lights_be_on cfg hour)]).
Proof.
  unfold lights_rule, should_lights_be_on.
  destruct (Bool.eqb _ _).
  - now rewrite app_nil_r.
  - apply calls_control_lights.
Qed.

(** The calls of a cycle, rule by rule. *)
Lemma auto_control_new_calls cfg p hour d g :
  new_calls g (auto_control_environment cfg p hour d g)
  = (if Qlt_bool (water_level d) 15 && fogger_active g
     then [FoggerCommand false None] else [])
    ++ (if fogger_wanted cfg d && negb (fogger_active (veto_rule p d g))
        then [FoggerCommand true (Some (fogger_duration cfg))] else [])
    ++ fan_decision cfg d (fan_speed g)
    ++ (if Bool.eqb (should_lights_be_on cfg hour) (lights_active g)
        then [] else [LightsCommand (should_lights_be_on cfg hour)]).
Proof.
  rewrite auto_control_rules. apply new_calls_app.
  rewrite lights_rule_new_calls, lights_active_before_lights_rule.
  rewrite fan_rule_calls, fan_speed_fogger_rule, fan_speed_veto_rule.
  rewrite fogger_rule_calls, veto_rule_calls.
  rewrite <- !app_assoc. do 2 f_equal.
  unfold fogger_wanted.
  destruct (Qlt_bool (humidity d) (humidity_min cfg - 5)),
    (fogger_active (veto_rule p d g)), (Qlt_bool 20 (water_level d));
    reflexivity.
Qed.

Lemma lights_active_auto_control cfg p hour d g :
  simulated p = true \/ lights_fault p = false ->
  lights_active (auto_control_environment cfg p hour d g)
  = should_lights_be_on cfg hour.
Proof.
  intro Hok. rewrite auto_control_rules.
  unfold lights_rule. fold (should_lights_be_on cfg hour).
  rewrite lights_active_before_lights_rule.
  destruct (Bool.eqb (should_lights_be_on cfg hour) (lights_active g)) eqn:E.
  - rewrite lights_active_before_lights_rule.
    symmetry. now apply eqb_prop.
  - unfold control_lights.
    destruct (simulated p); [reflexivity|].
    destruct Hok as [Hc|Hf]; [discriminate Hc|]. rewrite Hf. reflexivity.
Qed.

(** X1.  The lights follow the hour-of-day window [[on_hour, off_hour)]: a
    cycle calls [control_lights] exactly when the lights are not in the
    state the schedule asks for, with that state as argument, and unless
    the lights device faults the flag then equals the schedule. *)
Theorem lights_follow_schedule cfg p hour d g :
  let g' := auto_control_environment cfg p hour d g in
  (forall a, In (LightsCommand a) (new_calls g g')
             <-> a = should_lights_be_on cfg hour /\ lights_active g <> a)
  /\ (simulated p = true \/ lights_fault p = false ->
      lights_active g' = should_lights_be_on cfg hour).
Proof.
  intro g'. split; [|apply lights_active_auto_control].
  intro a. unfold g'. rewrite auto_control_new_calls.
  rewrite !in_app_iff. split.
  - intros [H|[H|[H|H]]].
    + destruct (_ && _); simpl in H; [destruct H as [H|[]]; discriminate H | destruct H].
    + destruct (_ && _); simpl in H; [destruct H as [H|[]]; discriminate H | destruct H].
    + unfold fan_decision in H.
      destruct (_ && _); [|destruct (_ && _)]; simpl in H;
        try (destruct H as [H|[]]; discriminate H); destruct H.
    + destruct (Bool.eqb _ _) eqn:E; simpl in H; [destruct H|].
      destruct H as [H|[]]. inversion H; subst a. split; [reflexivity|].
      intro Hc. rewrite Hc, eqb_reflx in E. discriminate E.
  - intros [-> Hne]. right. right. right.
    destruct (Bool.eqb _ _) eqn:E.
    + apply eqb_prop in E. congruence.
    + now left.
Qed.

Lemma lights_follow_schedule_witness :
  let g' := auto_control_environment MUSHROOM_CONFIG pi_platform 12 reading0
              init_gpio in
  In (LightsCommand true) (new_calls init_gpio g') /\ lights_active g' = true.
Proof.
  intro g'.
  destruct (lights_follow_schedule MUSHROOM_CONFIG pi_platform 12%Z reading0
              init_gpio) as [H1 H2].
  split.
  - apply H1. split; [reflexivity | discriminate].
  - apply H2. right. reflexivity.
Defined.

(** *** The state after a cycle when no device faults *)

Lemma fogger_ok p : devices_ok p -> simulated p = true \/ fogger_fault p = false.
Proof. intros [H|(H & _ & _)]; auto. Qed.

Lemma fan_ok p : devices_ok p -> simulated p = true \/ fan_fault p = false.
Proof. intros [H|(_ & H & _)]; auto. Qed.

Lemma lights_ok p : devices_ok p -> simulated p = true \/ lights_fault p = false.
Proof. intros [H|(_ & _ & H)]; auto. Qed.

Lemma fogger_active_control_fogger p a dur g :
  simulated p = true \/ fogger_fault p = false ->
  fogger_active (control_fogger p a dur g) = a.
Proof.
  intro Hok. unfold control_fogger.
  destruct (simulated p); [reflexivity|].
  destruct Hok as [Hc|Hf]; [discriminate Hc|]. rewrite Hf.
  destruct a; reflexivity.
Qed.

Lemma fogger_active_veto_rule p d g :
  simulated p = true \/ fogger_fault p = false ->
  fogger_active (veto_rule p d g)
  = negb (Qlt_bool (water_level d) 15) && fogger_active g.
Proof.
  intro Hok. unfold veto_rule.
  destruct (Qlt_bool (water_level d) 15); simpl; [|reflexivity].
  destruct (fogger_active g) eqn:E; [|exact E].
  now apply fogger_active_control_fogger.
Qed.

Lemma fogger_rule_unfold cfg p d g :
  fogger_rule cfg p d g
  = if fogger_wanted cfg d && negb (fogger_active g)
    then control_fogger p true (Some (fogger_duration cfg)) g else g.
Proof.
  unfold fogger_rule, fogger_wanted.
  destruct (Qlt_bool (humidity d) (humidity_min cfg - 5)),
    (fogger_active g), (Qlt_bool 20 (water_level d)); reflexivity.
Qed.

Lemma fogger_active_auto_control cfg p hour d g :
  simulated p = true \/ fogger_fault p = false ->
  fogger_active (auto_control_environment cfg p hour d g)
  = let off_by_veto := negb (Qlt_bool (water_level d) 15) && fogger_active g in
    (fogger_wanted cfg d && negb off_by_veto) || off_by_veto.
Proof.
  intro Hok. rewrite auto_control_rules.
  destruct (fogger_lights_rule cfg p hour
              (fan_rule cfg p d (fogger_rule cfg p d (veto_rule p d g))))
    as [-> _].
  destruct (fogger_fan_rule cfg p d (fogger_rule cfg p d (veto_rule p d g)))
    as [-> _].
  rewrite fogger_rule_unfold, (fogger_active_veto_rule p d g Hok). simpl.
  destruct (fogger_wanted cfg d && _) eqn:E; simpl.
  - now apply fogger_active_control_fogger.
  - rewrite (fogger_active_veto_rule p d g Hok). reflexivity.
Qed.

Lemma fogger_wanted_low_water cfg d :
  Qlt_bool (water_level d) 15 = true -> fogger_wanted cfg d = false.
Proof.
  intro H. unfold fogger_wanted. apply Qlt_bool_iff in H.
  assert (E : Qlt_bool 20 (water_level d) = false).
  { apply Qlt_bool_false_iff. lra. }
  rewrite E. apply andb_false_r.
Qed.

Lemma fan_speed_auto_control cfg p hour d g :
  simulated p = true \/ fan_fault p = false ->
  fan_speed (auto_control_environment cfg p hour d g)
  = match fan_decision cfg d (fan_speed g) with
    | FanCommand s :: _ => s
    | _ => fan_speed g
    end.
Proof.
  intro Hok. rewrite auto_control_fan_speed, fan_rule_speed.
  rewrite fan_speed_fogger_rule, fan_speed_veto_rule.
  destruct (fan_decision cfg d (fan_speed g)) as [|[a dur|s|a] rest];
    try reflexivity.
  destruct Hok as [-> | ->]; [reflexivity | now rewrite orb_true_r].
Qed.

(** The fan decision taken on the speed that the decision itself produces
    is to do nothing: the two thresholds exclude each other. *)
Lemma fan_decision_settled cfg d speed :
  fan_decision cfg d
    (match fan_decision cfg d speed with
     | FanCommand s :: _ => s
     | _ => speed
     end) = [].
Proof.
  unfold fan_decision.
  destruct (Qlt_bool (humidity_max cfg + 5) (humidity d)) eqn:E1;
    destruct (Qle_bool (humidity d) (humidity_max cfg)) eqn:E2.
  - apply Qlt_bool_iff in E1. apply Qle_bool_iff in E2. lra.
  - destruct (speed <? 50)%Z eqn:E3; cbn [andb]; rewrite ?E3; reflexivity.
  - destruct (0 <? speed)%Z eqn:E3; cbn [andb]; rewrite ?E3; reflexivity.
  - reflexivity.
Qed.

(** X2.  A cycle settles the actuators: when no output device faults, a
    second cycle on the same reading in the same hour makes no call at
    all, whatever the reading, the thresholds and the state before. *)
Theorem auto_control_settles cfg p hour d g :
  devices_ok p ->
  let g' := auto_control_environment cfg p hour d g in
  new_calls g' (auto_control_environment cfg p hour d g') = [].
Proof.
  intros Hok g'. rewrite auto_control_new_calls.
  assert (Hfa := fogger_active_auto_control cfg p hour d g (fogger_ok p Hok)).
  fold g' in Hfa. simpl in Hfa.
  rewrite (fogger_active_veto_rule p d g' (fogger_ok p Hok)), Hfa.
  unfold g'. rewrite (fan_speed_auto_control cfg p hour d g (fan_ok p Hok)).
  rewrite fan_decision_settled.
  rewrite (lights_active_auto_control cfg p hour d g (lights_ok p Hok)).
  rewrite eqb_reflx.
  destruct (Qlt_bool (water_level d) 15) eqn:Ew.
  - rewrite (fogger_wanted_low_water cfg d Ew). reflexivity.
  - simpl. destruct (fogger_wanted cfg d), (fogger_active g); reflexivity.
Qed.

(** A dry reading (humidity 50, water 75) from the initial state on real
    hardware: the first cycle switches fogger and lights, the second
    makes no call. *)
Lemma auto_control_settles_witness :
  let d := set_humidity 50 reading0 in
  let g' := auto_control_environment MUSHROOM_CONFIG pi_platform 12 d init_gpio in
  new_calls init_gpio g'
  = [FoggerCommand true (Some 30%Z); LightsCommand true]
  /\ new_calls g' (auto_control_environment MUSHROOM_CONFIG pi_platform 12 d g')
     = [].
Proof.
  intros d g'. split; [reflexivity|].
  apply (auto_control_settles MUSHROOM_CONFIG pi_platform 12%Z d init_gpio).
  right. repeat split; reflexivity.
Defined.

(** *** The auto-off timer of the fogger *)

Lemma timers_control_fan p s g : timers (control_fan p s g) = timers g.
Proof.
  unfold control_fan. destruct (simulated p), (fan_fault p); reflexivity.
Qed.

Lemma timers_control_lights p a g : timers (control_lights p a g) = timers g.
Proof.
  unfold control_lights. destruct (simulated p), (lights_fault p); reflexivity.
Qed.

Lemma timers_control_fogger p a dur g :
  timers (control_fogger p a dur g)
  = if negb (simulated p) && negb (fogger_fault p) && a
    then match dur with
         | Some t => if (t =? 0)%Z then timers g else timers g ++ [t]
         | None => timers g
         end
    else timers g.
Proof.
  unfold control_fogger.
  destruct (simulated p), (fogger_fault p), a; reflexivity.
Qed.

Lemma timers_after_fogger_rule cfg p hour d g :
  timers (auto_control_environment cfg p hour d g)
  = timers (fogger_rule cfg p d (veto_rule p d g)).
Proof.
  rewrite auto_control_rules. unfold lights_rule, fan_rule.
  repeat match goal with
         | |- context [if ?b then _ else _] => destruct b
         end;
    rewrite ?timers_control_lights, ?timers_control_fan; reflexivity.
Qed.

Lemma timers_veto_rule p d g : timers (veto_rule p d g) = timers g.
Proof.
  unfold veto_rule.
  destruct (Qlt_bool _ _), (fogger_active g); try reflexivity.
  rewrite timers_control_fogger. now rewrite andb_false_r.
Qed.

(** X3.  The timed auto-off exists on real hardware only.  There a
    fogger-on call of the policy that the device accepts schedules one
    timer of [fogger_duration] seconds (none when the duration is 0), and
    nothing else in a cycle schedules a timer.  In simulation mode
    [control_fogger] returns before the timer is created: a cycle never
    schedules one, and a fogger that is on stays on through every cycle
    whose reading has at least 15 % of water. *)
Theorem fogger_auto_off_timer cfg p hour d g :
  let g' := auto_control_environment cfg p hour d g in
  let fired := fogger_wanted cfg d && negb (fogger_active (veto_rule p d g)) in
  (simulated p = true -> timers g' = timers g)
  /\ (simulated p = false -> fogger_fault p = false ->
      timers g'
      = timers g ++ (if fired && negb (fogger_duration cfg =? 0)%Z
                     then [fogger_duration cfg] else []))
  /\ (simulated p = true -> Qlt_bool (water_level d) 15 = false ->
      fogger_active g = true -> fogger_active g' = true).
Proof.
  intros g' fired. unfold g'.
  rewrite timers_after_fogger_rule, fogger_rule_unfold. fold fired.
  split; [|split].
  - intro Hs. destruct fired; [|apply timers_veto_rule].
    rewrite timers_control_fogger, Hs. apply timers_veto_rule.
  - intros Hs Hf. destruct fired; simpl.
    + rewrite timers_control_fogger, Hs, Hf, timers_veto_rule. simpl.
      destruct (fogger_duration cfg =? 0)%Z; simpl;
        [now rewrite app_nil_r | reflexivity].
    + rewrite timers_veto_rule. now rewrite app_nil_r.
  - intros Hs Hw Hon.
    rewrite (fogger_active_auto_control cfg p hour d g (or_introl Hs)).
    simpl. rewrite Hw, Hon. simpl. apply orb_true_r.
Qed.

(** The same dry reading on real hardware and in simulation mode: 30 s
    timer in the first case, none in the second, where the fogger is
    still on after a further cycle at humidity 90. *)
Lemma fogger_auto_off_timer_witness :
  let dry := set_humidity 50 reading0 in
  let humid := set_humidity 90 reading0 in
  let sim := mkPlatform false true false false false in
  let on_pi := auto_control_environment MUSHROOM_CONFIG pi_platform 12 dry init_gpio in
  let on_sim := auto_control_environment MUSHROOM_CONFIG sim 12 dry init_gpio in
  timers on_pi = [30%Z]
  /\ timers on_sim = []
  /\ fogger_active (auto_control_environment MUSHROOM_CONFIG sim 12 humid on_sim)
     = true.
Proof.
  intros dry humid sim on_pi on_sim.
  destruct (fogger_auto_off_timer MUSHROOM_CONFIG pi_platform 12%Z dry init_gpio)
    as (_ & Hpi & _).
  destruct (fogger_auto_off_timer MUSHROOM_CONFIG sim 12%Z dry init_gpio)
    as (Hsim & _ & _).
  destruct (fogger_auto_off_timer MUSHROOM_CONFIG sim 12%Z humid on_sim)
    as (_ & _ & Hon).
  split; [|split].
  - apply Hpi; reflexivity.
  - apply Hsim. reflexivity.
  - apply Hon; reflexivity.
Defined.

(** *** What the loop never does to the actuators *)

Lemma heater_speed_control_fogger p a dur g :
  heater_active (control_fogger p a dur g) = heater_active g.
Proof.
  unfold control_fogger.
  destruct (simulated p), (fogger_fault p), a; reflexivity.
Qed.

Lemma heater_control_fan p s g :
  heater_active (control_fan p s g) = heater_active g.
Proof.
  unfold control_fan. destruct (simulated p), (fan_fault p); reflexivity.
Qed.

Lemma heater_control_lights p a g :
  heater_active (control_lights p a g) = heater_active g.
Proof.
  unfold control_lights. destruct (simulated p), (lights_fault p); reflexivity.
Qed.

Lemma heater_auto_control cfg p hour d g :
  heater_active (auto_control_environment cfg p hour d g) = heater_active g.
Proof.
  rewrite auto_control_rules.
  unfold lights_rule, fan_rule, fogger_rule, veto_rule.
  repeat match goal with
         | |- context [if ?b then _ else _] => destruct b
         end;
    rewrite ?heater_control_lights, ?heater_control_fan,
      ?heater_speed_control_fogger; reflexivity.
Qed.

Lemma policy_speed_auto_control cfg p hour d g :
  policy_speed (fan_speed g) ->
  policy_speed (fan_speed (auto_control_environment cfg p hour d g)).
Proof.
  intro H. rewrite auto_control_fan_speed, fan_rule_speed.
  rewrite fan_speed_fogger_rule, fan_speed_veto_rule.
  unfold fan_decision.
  destruct (_ && _); [|destruct (_ && _)]; try exact H;
    destruct (simulated p || negb (fan_fault p)); try exact H;
    [right | left]; reflexivity.
Qed.

Lemma gpio_cycle_cases t w :
  gpio_control (snd (cycle t w)) = gpio_control w
  \/ gpio_control (snd (cycle t w))
     = auto_control_environment MUSHROOM_CONFIG (platform t) (current_hour t)
         (get_sensor_data (platform t) (sensor_service w) (inputs t))
         (gpio_control w).
Proof.
  unfold cycle.
  destruct (escapes t ReadStep); [now left|].
  destruct (escapes t ControlStep); [now left|].
  destruct (escapes t SaveStep); [now right|].
  destruct (App.save_reading _ _ _ _) as [[[a|e] s'] n']; [|now right].
  destruct (escapes t PublishStep); now right.
Qed.

(** X4.  Whatever the readings, the hours, the device faults and the
    exceptions of the steps, the acquisition loop never changes
    [heater_active], and a fan speed that is 0 or 50 stays 0 or 50: the
    policy commands no other speed. *)
Theorem sensor_monitor_actuator_invariants ticks : forall w,
  policy_speed (fan_speed (gpio_control w)) ->
  let w' := snd (sensor_monitor ticks w) in
  heater_active (gpio_control w') = heater_active (gpio_control w)
  /\ policy_speed (fan_speed (gpio_control w')).
Proof.
  induction ticks as [|t ticks IH]; intros w H; simpl; [auto|].
  assert (Hc : heater_active (gpio_control (snd (cycle t w)))
               = heater_active (gpio_control w)
               /\ policy_speed (fan_speed (gpio_control (snd (cycle t w))))).
  { destruct (gpio_cycle_cases t w) as [-> | ->]; [auto|].
    split; [apply heater_auto_control | now apply policy_speed_auto_control]. }
  destruct Hc as [Hh Hp].
  destruct (cycle t w) as [[[]|e] w1]; simpl in Hh, Hp.
  - destruct (IH (sleep SENSOR_READ_INTERVAL w1) Hp) as [IH1 IH2].
    split; [rewrite IH1; exact Hh | exact IH2].
  - destruct (is_Exception e).
    + destruct (IH (sleep 5 w1) Hp) as [IH1 IH2].
      split; [rewrite IH1; exact Hh | exact IH2].
    + simpl. auto.
Qed.

Lemma sensor_monitor_actuator_invariants_witness :
  let ticks :=
    [ mkTick (good_inputs 1) pi_platform 12 1 no_escape;
      mkTick (failed_inputs 2) pi_platform 19 2 (escape_at PublishStep TypeError) ] in
  let w' := snd (sensor_monitor ticks started_world) in
  heater_active (gpio_control w') = false
  /\ policy_speed (fan_speed (gpio_control w')).
Proof.
  intros ticks w'.
  apply (sensor_monitor_actuator_invariants ticks started_world).
  left. reflexivity.
Defined.

(** ** Sensor gateway: the water level *)

Lemma round_half_even_floor x :
  (Qfloor x <= round_half_even x <= Qfloor x + 1)%Z.
Proof.
  unfold round_half_even.
  destruct (Qcompare _ _); [destruct (Z.even _)| |]; lia.
Qed.

Lemma round_half_even_bounds x (a b : Z) :
  inject_Z a <= x -> x <= inject_Z b ->
  (a <= round_half_even x <= b)%Z.
Proof.
  intros Ha Hb.
  pose proof (Qfloor_le x) as Hf. pose proof (Qlt_floor x) as Hf'.
  assert (Hfa : (a <= Qfloor x)%Z).
  { rewrite <- (Qfloor_Z a). now apply Qfloor_resp_le. }
  assert (Hfb : (Qfloor x <= b)%Z).
  { rewrite <- (Qfloor_Z b). now apply Qfloor_resp_le. }
  split; [pose proof (round_half_even_floor x); lia|].
  unfold round_half_even.
  assert (Hup : x - inject_Z (Qfloor x) > 0 -> (Qfloor x + 1 <= b)%Z).
  { intro Hpos. assert (inject_Z (Qfloor x) < inject_Z b) by lra.
    rewrite <- Zlt_Qlt in H. lia. }
  destruct (Qcompare_spec (x - inject_Z (Qfloor x)) (1 # 2)) as [E|E|E].
  - destruct (Z.even _); [lia|]. apply Hup. rewrite E. reflexivity.
  - lia.
  - apply Hup. lra.
Qed.

Lemma round_half_even_mono x y :
  x <= y -> (round_half_even x <= round_half_even y)%Z.
Proof.
  intro Hxy.
  pose proof (Qfloor_resp_le x y Hxy) as Hf.
  destruct (Z.eq_dec (Qfloor x) (Qfloor y)) as [E|E].
  - unfold round_half_even. rewrite E.
    destruct (Qcompare_spec (x - inject_Z (Qfloor y)) (1 # 2)) as [E1|E1|E1];
      destruct (Qcompare_spec (y - inject_Z (Qfloor y)) (1 # 2)) as [E2|E2|E2];
      destruct (Z.even (Qfloor y)); try lia; lra.
  - pose proof (round_half_even_floor x). pose proof (round_half_even_floor y).
    lia.
Qed.

Lemma py_round1_percent x : 0 <= x -> x <= 100 -> 0 <= py_round1 x <= 100.
Proof.
  intros Ha Hb.
  destruct (round_half_even_bounds (x * 10) 0 1000) as [H1 H2];
    [unfold inject_Z; lra | unfold inject_Z; lra |].
  unfold py_round1, Qle. simpl. lia.
Qed.

Lemma py_round1_mono x y : x <= y -> py_round1 x <= py_round1 y.
Proof.
  intro H. unfold py_round1.
  assert (Hm : (round_half_even (x * 10) <= round_half_even (y * 10))%Z).
  { apply round_half_even_mono. lra. }
  unfold Qle. simpl. lia.
Qed.

Lemma clamped_depth_spec d :
  (0 <= clamped_depth d <= 30)
  /\ (30 <= d -> clamped_depth d <= 5)
  /\ (d <= 5 -> clamped_depth d = max_depth_cm)
  /\ forall d', d <= d' -> clamped_depth d' <= clamped_depth d.
Proof.
  assert (Hcases : forall x,
             (30 <= 35 - x /\ clamped_depth x = max_depth_cm)
             \/ (0 <= 35 - x < 30 /\ clamped_depth x = 35 - x)
             \/ (35 - x < 0 /\ clamped_depth x = 0)).
  { intro x. unfold clamped_depth, Qmax, Qmin, max_depth_cm, sensor_height_cm.
    destruct (Qle_bool 30 (35 - x)) eqn:E1.
    - left. apply Qle_bool_iff in E1. split; [exact E1 | reflexivity].
    - apply Qle_bool_false_iff in E1.
      destruct (Qle_bool 0 (35 - x)) eqn:E2.
      + apply Qle_bool_iff in E2. right. left. split; [lra | reflexivity].
      + apply Qle_bool_false_iff in E2. right. right. split; [lra | reflexivity]. }
  unfold max_depth_cm in Hcases.
  split; [|split; [|split]].
  - destruct (Hcases d) as [[H ->]|[[H ->]|[H ->]]]; lra.
  - intro Hd. destruct (Hcases d) as [[H ->]|[[H ->]|[H ->]]]; lra.
  - intro Hd. destruct (Hcases d) as [[H E]|[[H E]|[H E]]];
      [exact E | lra | lra].
  - intros d' Hd.
    destruct (Hcases d) as [[H ->]|[[H ->]|[H ->]]];
      destruct (Hcases d') as [[H' ->]|[[H' ->]|[H' ->]]]; lra.
Qed.

Lemma percentage_unfold d :
  calculate_water_level_percentage d
  = if Qle_bool (clamped_depth d) min_depth_cm then 0
    else py_round1 ((clamped_depth d - min_depth_cm) / (max_depth_cm - min_depth_cm) * 100).
Proof. reflexivity. Qed.

Lemma percentage_scale x :
  (x - min_depth_cm) / (max_depth_cm - min_depth_cm) * 100 == (x - 5) * 4.
Proof. unfold min_depth_cm, max_depth_cm. field. Qed.

Lemma water_level_percentage_facts d :
  (0 <= calculate_water_level_percentage d <= 100)
  /\ (30 <= d -> calculate_water_level_percentage d = 0)
  /\ (d <= 5 -> calculate_water_level_percentage d == 100)
  /\ (forall d', d <= d' ->
        calculate_water_level_percentage d'
        <= calculate_water_level_percentage d).
Proof.
  destruct (clamped_depth_spec d) as (Hr & Hfar & Hnear & Hmono).
  assert (Hrange : forall x, 0 <= calculate_water_level_percentage x <= 100).
  { intro x. rewrite percentage_unfold. destruct (clamped_depth_spec x) as (Hx & _).
    destruct (Qle_bool (clamped_depth x) min_depth_cm) eqn:E; [lra|].
    apply Qle_bool_false_iff in E. unfold min_depth_cm in E.
    apply py_round1_percent; rewrite percentage_scale; lra. }
  split; [apply Hrange|]. split; [|split].
  - intro H. rewrite percentage_unfold.
    assert (E : Qle_bool (clamped_depth d) min_depth_cm = true).
    { apply Qle_bool_iff. unfold min_depth_cm. now apply Hfar. }
    now rewrite E.
  - intro H. rewrite percentage_unfold, (Hnear H). reflexivity.
  - intros d' H. specialize (Hmono d' H). rewrite !percentage_unfold.
    destruct (Qle_bool (clamped_depth d') min_depth_cm) eqn:E'.
    + fold (calculate_water_level_percentage d). rewrite <- percentage_unfold.
      apply Hrange.
    + apply Qle_bool_false_iff in E'.
      assert (E : Qle_bool (clamped_depth d) min_depth_cm = false).
      { apply Qle_bool_false_iff. lra. }
      rewrite E. apply py_round1_mono. rewrite !percentage_scale. lra.
Qed.

(** X5.  The water level computed from an ultrasonic distance is a
    percentage: between 0 and 100 for every distance, 0 from 30 cm on
    (5 cm of water or less), 100 up to 5 cm, and never larger for a larger
    distance.  Hence every reading taken on real hardware with an
    answering ultrasonic sensor carries a [water_level] between 0 and
    100. *)
Theorem water_level_percentage_range :
  (forall d, 0 <= calculate_water_level_percentage d <= 100)
  /\ (forall d, 30 <= d -> calculate_water_level_percentage d = 0)
  /\ (forall d, d <= 5 -> calculate_water_level_percentage d == 100)
  /\ (forall d d', d <= d' ->
        calculate_water_level_percentage d'
        <= calculate_water_level_percentage d)
  /\ (forall p svc inp m,
        SIMULATION_MODE p = false -> water_sensor svc = true ->
        distance_m inp = Some m ->
        0 <= water_level (read_sensors p svc inp) <= 100).
Proof.
  split; [|split; [|split; [|split]]].
  - intro d. apply water_level_percentage_facts.
  - intro d. apply water_level_percentage_facts.
  - intro d. apply water_level_percentage_facts.
  - intros d d'. apply water_level_percentage_facts.
  - intros p svc inp m Hp Hs Hm.
    unfold read_sensors. rewrite Hp.
    unfold read_ultrasonic_distance. rewrite Hs, Hm. cbn [water_level set_timestamp set_water_level].
    destruct (water_level_percentage_facts (py_round2 (m * 100))) as (H & _).
    unfold offset_water_level. lra.
Qed.

(** 20 cm to the surface is 40 %; 10 cm is not less. *)
Lemma water_level_percentage_range_witness :
  calculate_water_level_percentage 20 == 40
  /\ calculate_water_level_percentage 20 <= calculate_water_level_percentage 10
  /\ calculate_water_level_percentage 32 = 0
  /\ 0 <= water_level (read_sensors pi_platform
                         (mkSensors reading0 true true true) (good_inputs 1))
       <= 100.
Proof.
  destruct water_level_percentage_range as (_ & Hfar & _ & Hmono & Hread).
  split; [reflexivity|]. split; [|split].
  - apply Hmono. unfold Qle. simpl. lia.
  - apply Hfar. unfold Qle. simpl. lia.
  - apply (Hread pi_platform _ (good_inputs 1) (2 # 10)); reflexivity.
Defined.

(** ** Sensor gateway: faults stay with their sensor *)

Lemma read_sensors_hardware p svc inp :
  SIMULATION_MODE p = false ->
  let d := read_sensors p svc inp in
  scd40_fields d
  = (if scd40 svc then
       match scd40_read inp with
       | Scd40Ready (Some t) (Some h) (Some c) =>
           (py_round1 (t + offset_temperature), py_round1 (h + offset_humidity),
            py_int (c + offset_co2))
       | _ => scd40_fields (current_data svc)
       end
     else scd40_fields (current_data svc))
  /\ light_intensity d
     = (if bh1750 svc then
          match read_light_level inp with
          | Some lux => py_int (lux + offset_light_intensity)
          | None => light_intensity (current_data svc)
          end
        else light_intensity (current_data svc))
  /\ water_level d
     = match read_ultrasonic_distance svc inp with
       | Some distance =>
           calculate_water_level_percentage distance + offset_water_level
       | None => water_level (current_data svc)
       end
  /\ timestamp d = clock inp.
Proof.
  intro Hp. unfold read_sensors. rewrite Hp. unfold scd40_fields.
  destruct (scd40 svc); [destruct (scd40_read inp) as [| |[t|] [h|] [c|]]|];
    destruct (bh1750 svc); try destruct (read_light_level inp);
    destruct (read_ultrasonic_distance svc inp); repeat split; reflexivity.
Qed.

(** X6.  On real hardware the three sensors fail independently.  The
    SCD40 values are taken all or none: unless the device is there, ready
    and delivers temperature, humidity and CO2 together, all three fields
    keep the values of [current_data].  What the SCD40 does has no effect
    on the light and water fields, a failed light or distance read has no
    effect on the others, and the reading is stamped with the clock in
    every case. *)
Theorem sensor_faults_isolated p svc inp :
  SIMULATION_MODE p = false ->
  let d := read_sensors p svc inp in
  (~ scd40_complete svc inp ->
   scd40_fields d = scd40_fields (current_data svc))
  /\ (forall inp', light_bytes inp' = light_bytes inp ->
        light_intensity (read_sensors p svc inp') = light_intensity d)
  /\ (forall inp', distance_m inp' = distance_m inp ->
        water_level (read_sensors p svc inp') = water_level d)
  /\ (forall inp', scd40_read inp' = scd40_read inp ->
        scd40_fields (read_sensors p svc inp') = scd40_fields d)
  /\ timestamp d = clock inp.
Proof.
  intros Hp d.
  destruct (read_sensors_hardware p svc inp Hp) as (Hs & Hl & Hw & Ht).
  fold d in Hs, Hl, Hw, Ht.
  split; [|split; [|split; [|split]]].
  - intro Hn. rewrite Hs.
    destruct (scd40 svc) eqn:Es; [|reflexivity].
    destruct (scd40_read inp) as [| |[t|] [h|] [c|]] eqn:Er; try reflexivity.
    exfalso. apply Hn. split; [exact Es | eauto].
  - intros inp' E.
    destruct (read_sensors_hardware p svc inp' Hp) as (_ & Hl' & _).
    rewrite Hl, Hl'. unfold read_light_level. rewrite E. reflexivity.
  - intros inp' E.
    destruct (read_sensors_hardware p svc inp' Hp) as (_ & _ & Hw' & _).
    rewrite Hw, Hw'. unfold read_ultrasonic_distance. rewrite E. reflexivity.
  - intros inp' E.
    destruct (read_sensors_hardware p svc inp' Hp) as (Hs' & _).
    rewrite Hs, Hs', E. reflexivity.
  - exact Ht.
Qed.

(** An SCD40 that delivers temperature and humidity but no CO2, with the
    light and distance sensors answering. *)
Lemma sensor_faults_isolated_witness :
  let svc := mkSensors reading0 true true true in
  let inp := mkInputs (Scd40Ready (Some 25) (Some 70) None) (Some (1, 44)%Z)
               (Some (2 # 10)) 0 0 0 0 0 7 in
  let d := read_sensors pi_platform svc inp in
  scd40_fields d = (22, 65, 400%Z)
  /\ light_intensity d = 250%Z
  /\ timestamp d = 7%Z.
Proof.
  intros svc inp d.
  destruct (sensor_faults_isolated pi_platform svc inp eq_refl)
    as (H1 & _ & _ & _ & H5).
  split; [|split; [reflexivity | exact H5]].
  apply H1. intros (_ & t & h & c & E). discriminate E.
Defined.

(** ** Start-up of the persistence service *)

Lemma sync_keeps_self : keeps (fun s : App.DatabaseService => s) App.sync_offline_data.
Proof. unfold App.sync_offline_data. keeps. Qed.

Lemma sync_never_raises : never_raises App.sync_offline_data.
Proof.
  intros s n. unfold App.sync_offline_data, bind at 1. cbn [get_self].
  destruct (App.atlas_mongo_db s) as [atlas|]; [|unfold ret; eauto].
  destruct (App.local_mongo_db s) as [local|]; [|unfold ret; eauto].
  apply try_except_never_raises; [roe | intro; apply ret_never_raises].
Qed.

(** [connect_atlas] decides on the probe alone. *)
Lemma connect_atlas_self s n :
  snd (fst (App.connect_atlas s n))
  = if atlas_probe_ok n
    then App.set_using_atlas true (App.set_atlas (Some AtlasServer) s)
    else if mongodb_uri n
         then App.set_atlas None (App.set_using_atlas false
                                    (App.set_atlas (Some AtlasServer) s))
         else s.
Proof.
  unfold App.connect_atlas, atlas_probe_ok, try_except.
  destruct (mongodb_uri n) eqn:Eu; [|reflexivity].
  unfold bind at 1. cbn [modify_self]. unfold bind at 1.
  unfold ping, pop_fault. cbn [server atlas_srv].
  destruct (faults (atlas_srv n)) as [|[|] fs]; cbn [hd negb andb];
    try reflexivity;
    unfold bind at 1; cbn [modify_self]; unfold bind at 1;
    match goal with
    | |- context [App.sync_offline_data ?s1 ?n1] =>
        pose proof (sync_keeps_self s1 n1) as K;
        destruct (sync_never_raises s1 n1) as (a & s2 & n2 & E);
        rewrite E in K |- *
    end; simpl in K; subst; reflexivity.
Qed.

Lemma setup_local_mongodb_outcome n :
  exists n1,
    App.setup_local_mongodb init_db n
    = (Ok tt,
       if local_setup_fails n then App.mkDb None None false (Some [])
       else App.mkDb (Some LocalServer) None false None,
       n1)
    /\ atlas_srv n1 = atlas_srv n /\ mongodb_uri n1 = mongodb_uri n
    /\ readings (local_srv n1) = readings (local_srv n).
Proof.
  destruct n as [[lr lo lf] a u].
  unfold App.setup_local_mongodb, local_setup_fails, try_except, bind,
    modify_self, ping, pop_fault, ret. cbn [server local_srv faults].
  destruct lf as [|[|] [|[|] [|[|] lf]]]; cbn; eexists; repeat split.
Qed.

(** X7.  Start-up always ends with exactly one primary store.  The service
    keeps the local MongoDB handle exactly when the three start-up calls
    on the local server (the probe and the two index creations) all
    succeed; otherwise it has no handle and an empty in-memory list.
    Atlas is in use exactly when a URI is configured and the Atlas probe
    succeeds, and only then is there an Atlas handle.  In every case the
    status reports a store as available, and the reported database type
    is the in-memory one exactly in the fallback case. *)
Theorem startup_storage n :
  let s := fst (new_DatabaseService n) in
  App.local_mongo_db s
  = (if local_setup_fails n then None else Some LocalServer)
  /\ App.simulation_data s = (if local_setup_fails n then Some [] else None)
  /\ App.using_atlas s = atlas_probe_ok n
  /\ App.atlas_mongo_db s = (if atlas_probe_ok n then Some AtlasServer else None)
  /\ status_local_mongodb (get_database_status s) = true
  /\ status_database_type (get_database_status s)
     = (if local_setup_fails n then SimulationStorage
        else if atlas_probe_ok n then MongoDBAtlas else LocalMongoDB).
Proof.
  intro s.
  assert (Es : s = if atlas_probe_ok n
                   then App.set_using_atlas true
                          (App.set_atlas (Some AtlasServer)
                             (if local_setup_fails n
                              then App.mkDb None None false (Some [])
                              else App.mkDb (Some LocalServer) None false None))
                   else if local_setup_fails n
                        then App.mkDb None None false (Some [])
                        else App.mkDb (Some LocalServer) None false None).
  { unfold s, new_DatabaseService, App.setup_databases, bind.
    destruct (setup_local_mongodb_outcome n) as (n1 & E & Ha & Hu & _).
    rewrite E.
    pose proof (connect_atlas_self
                  (if local_setup_fails n then App.mkDb None None false (Some [])
                   else App.mkDb (Some LocalServer) None false None) n1) as Hc.
    assert (Ep : atlas_probe_ok n1 = atlas_probe_ok n).
    { unfold atlas_probe_ok. now rewrite Ha, Hu. }
    rewrite Ep, Hu in Hc.
    destruct (App.connect_atlas _ n1) as [[[r|e] s2] n2]; simpl in Hc; subst s2;
      simpl; destruct (local_setup_fails n), (atlas_probe_ok n), (mongodb_uri n);
      reflexivity. }
  rewrite Es.
  unfold get_database_status, hasattr_simulation_data, is_not_None.
  destruct (local_setup_fails n), (atlas_probe_ok n); repeat split; reflexivity.
Qed.

(** ** Saving a reading *)

Lemma IdVal_eqb_eq a : forall b, IdVal_eqb a b = true <-> a = b.
Proof.
  induction a as [o k|k|a IH]; intros [o' k'|k'|b]; simpl;
    try (split; [discriminate | intro H; inversion H]).
  - rewrite andb_true_iff, Nat.eqb_eq. split.
    + intros [Ho ->]. destruct o, o'; try discriminate; reflexivity.
    + intro H. inversion H; subst. split; [destruct o'; reflexivity | reflexivity].
  - rewrite Nat.eqb_eq. split; [intros ->; reflexivity | intro H; now inversion H].
  - rewrite IH. split; [intros ->; reflexivity | intro H; now inversion H].
Qed.

Lemma oid_fresh_next m :
  oid_fresh m ->
  existsb (has_id (ObjectId LocalServer (next_oid m))) (readings m) = false.
Proof.
  intro H. destruct (existsb _ _) eqn:E; [|reflexivity].
  apply existsb_exists in E. destruct E as (d & Hin & Hid).
  unfold has_id in Hid. destruct (_id d) as [j|] eqn:Ej; [|discriminate].
  apply IdVal_eqb_eq in Hid. subst j.
  specialize (H d _ Hin Ej). lia.
Qed.

Lemma mark_synced_one_last i old new :
  existsb (has_id i) old = false -> has_id i new = true ->
  mark_synced_one i (old ++ [new]) = old ++ [set_synced (Some true) new].
Proof.
  induction old as [|x old IH]; simpl; intros Ho Hn.
  - now rewrite Hn.
  - apply orb_false_iff in Ho. destruct Ho as [Hx Ho].
    rewrite Hx, IH; auto.
Qed.

(** X8.  What [save_reading] returns tells whether the reading was
    stored, and Atlas has no say in it.  With a local handle, the local
    server takes the insert exactly when it answers the call and the
    reading brings no ['_id'] that is already stored.  Then the method
    returns the [str] of the new id and the local store holds exactly one
    more record, the stamped reading under that id, flagged as replicated
    only if Atlas received its copy; otherwise it returns [None] and
    neither store has changed.  The attributes of the service are
    unchanged in both cases. *)
Theorem save_reading_outcome now d atlas ua sim n :
  atlas <> Some LocalServer -> oid_fresh (local_srv n) ->
  let s := App.mkDb (Some LocalServer) atlas ua sim in
  let out := App.save_reading now d s n in
  let n' := snd out in
  snd (fst out) = s
  /\ ((save_accepted d n = true
       /\ exists i b,
            fst (fst out) = Ok (Some (py_str i))
            /\ readings (local_srv n')
               = readings (local_srv n)
                 ++ [set_synced (Some b) (set_id (Some i) (stamped now d))]
            /\ (b = true ->
                exists a, readings (atlas_srv n') = readings (atlas_srv n) ++ [a]
                          /\ set_id None a = strip_local_fields (stamped now d)))
      \/ (save_accepted d n = false
          /\ fst (fst out) = Ok None
          /\ readings (local_srv n') = readings (local_srv n)
          /\ readings (atlas_srv n') = readings (atlas_srv n))).
Proof.
  intros Hat Hfresh s out n'.
  pose proof (oid_fresh_next _ Hfresh) as Hnext.
  subst n' out s. unfold save_accepted, stamped.
  destruct n as [[lr lo lf] [ar ao af] u].
  cbn [local_srv atlas_srv readings faults next_oid] in *.
  assert (Hid : forall i x, has_id i (set_id (Some i) x) = true).
  { intros i x. unfold has_id. simpl. now apply IdVal_eqb_eq. }
  destruct d as [te hu co li wa ti de st oi sy]. cbn [_id] in *.
  unfold App.save_reading, try_except, bind, get_self, insert_one,
    update_one_synced, pop_fault, ret.
  destruct lf as [|[|] [|[|] lf]];
    (destruct oi as [i|];
     [destruct (existsb (has_id i) lr) eqn:Ex|]);
    (destruct ua; [destruct atlas as [[|]|]; [contradiction Hat; reflexivity| |]|]);
    try destruct af as [|[|] af];
    simpl; rewrite ?Ex; simpl;
    (split; [reflexivity|]);
    try (right; repeat split; reflexivity);
    left; (split; [reflexivity|]);
    try (exists i); try (exists (ObjectId LocalServer lo));
    first
      [ exists false; split; [reflexivity|]; split; [reflexivity|];
        intro Hb; discriminate Hb
      | exists true; split; [reflexivity|]; split;
        [ rewrite mark_synced_one_last;
          [ reflexivity | assumption | apply (Hid _ (mkDoc te hu co li wa ti DEVICE_ID (Some (TsDatetime now)) None (Some false))) ]
        | intros _; eexists; split; reflexivity ] ].
Qed.

Lemma oid_fresh_empty : oid_fresh empty_mongo.
Proof. intros d k []. Qed.

(** The save of the claim's failing Atlas write: stored locally under a
    new id, not flagged. *)
Lemma save_reading_outcome_witness :
  exists i b,
    fst (fst (App.save_reading 100 reading0 connected atlas_outage))
    = Ok (Some (py_str i))
    /\ readings (local_srv (snd (App.save_reading 100 reading0 connected
                                  atlas_outage)))
       = [set_synced (Some b) (set_id (Some i) (stamped 100 reading0))].
Proof.
  destruct (save_reading_outcome 100 reading0 (Some AtlasServer) true None
              atlas_outage)
    as [_ [(_ & i & b & Hr & Hl & _) | (Ha & _)]].
  - discriminate.
  - exact oid_fresh_empty.
  - exists i, b. split; [exact Hr | exact Hl].
  - discriminate Ha.
Defined.

(** *** Save, then read back *)



Section LocalUp.
Context {Self : Type}.







End LocalUp.







(** ** The catch-up sync: passes that do nothing, interrupted passes *)

Lemma sync_without_handle s n :
  App.atlas_mongo_db s = None \/ App.local_mongo_db s = None ->
  App.sync_offline_data s n = (Ok tt, s, n).
Proof.
  intro H. unfold App.sync_offline_data, bind. cbn [get_self].
  destruct (App.atlas_mongo_db s), (App.local_mongo_db s);
    try reflexivity; destruct H; discriminate.
Qed.

Lemma sync_nothing_to_do ua sim n :
  unreplicated n = [] ->
  let s := App.mkDb (Some LocalServer) (Some AtlasServer) ua sim in
  let out := App.sync_offline_data s n in
  fst out = (Ok tt, s)
  /\ atlas_srv (snd out) = atlas_srv n
  /\ readings (local_srv (snd out)) = readings (local_srv n).
Proof.
  intros Hu s out. subst out.
  unfold App.sync_offline_data, bind, try_except, find, pop_fault.
  cbn [get_self s App.atlas_mongo_db App.local_mongo_db server].
  unfold unreplicated in Hu.
  destruct (faults (local_srv n)) as [|[|] fs]; cbn [readings];
    rewrite ?Hu; repeat split; reflexivity.
Qed.

Lemma push_to_atlas_fault doc (s : App.DatabaseService) n fs :
  faults (atlas_srv n) = true :: fs ->
  push_to_atlas doc s n
  = (Raise ConnectionFailure, s,
     mkNet (local_srv n)
           (mkMongo (readings (atlas_srv n)) (next_oid (atlas_srv n)) fs)
           (mongodb_uri n)).
Proof.
  intro H. unfold push_to_atlas, bind, insert_one, pop_fault.
  cbn [server]. rewrite H. reflexivity.
Qed.

Lemma push_to_atlas_ok doc (s : App.DatabaseService) n fs :
  faults (atlas_srv n) = false :: fs ->
  push_to_atlas doc s n
  = (Ok tt, s,
     mkNet (local_srv n)
           (mkMongo (readings (atlas_srv n)
                     ++ [set_id (Some (ObjectId AtlasServer (next_oid (atlas_srv n))))
                           (App.strip_local_fields doc)])
                    (S (next_oid (atlas_srv n))) fs)
           (mongodb_uri n)).
Proof.
  intro H. unfold push_to_atlas, bind, insert_one, pop_fault.
  cbn [server]. rewrite H. reflexivity.
Qed.

Lemma for_each_insert_interrupted docs : forall k (s : App.DatabaseService) n rest,
  (k < List.length docs)%nat ->
  faults (atlas_srv n) = repeat false k ++ true :: rest ->
  let out := for_each docs push_to_atlas s n in
  fst out = (Raise ConnectionFailure, s)
  /\ local_srv (snd out) = local_srv n
  /\ faults (atlas_srv (snd out)) = rest
  /\ exists ins,
       readings (atlas_srv (snd out)) = readings (atlas_srv n) ++ ins
       /\ map (set_id None) ins = map App.strip_local_fields (firstn k docs).
Proof.
  induction docs as [|d docs IH]; intros k s n rest Hk Hf; [inversion Hk|].
  cbv zeta. cbn [for_each]. unfold bind.
  destruct k as [|k]; cbn [repeat app] in Hf.
  - rewrite (push_to_atlas_fault d s n rest Hf). simpl.
    split; [reflexivity|]. split; [reflexivity|]. split; [reflexivity|].
    exists []. now rewrite app_nil_r.
  - rewrite (push_to_atlas_ok d s n _ Hf).
    match goal with
    | |- context [for_each docs push_to_atlas s ?n1] =>
        specialize (IH k s n1 rest)
    end.
    simpl in Hk.
    destruct IH as (E1 & E2 & E3 & ins & E4 & E5); [lia | reflexivity |].
    cbv zeta. split; [exact E1|]. split; [exact E2|]. split; [exact E3|].
    eexists. rewrite E4. cbn [atlas_srv readings]. rewrite <- app_assoc.
    split; [reflexivity|]. simpl. rewrite E5. reflexivity.
Qed.

Lemma sync_interrupted ua sim n k :
  faults (local_srv n) = [] ->
  faults (atlas_srv n) = repeat false k ++ [true] ->
  (k < List.length (unreplicated n))%nat ->
  let s := App.mkDb (Some LocalServer) (Some AtlasServer) ua sim in
  let n1 := snd (App.sync_offline_data s n) in
  local_srv n1 = local_srv n
  /\ faults (atlas_srv n1) = []
  /\ exists ins,
       readings (atlas_srv n1) = readings (atlas_srv n) ++ ins
       /\ map (set_id None) ins
          = map App.strip_local_fields (firstn k (unreplicated n)).
Proof.
  intros Hl Ha Hk s n1. subst n1.
  remember (App.sync_offline_data s n) as res eqn:Eres.
  unfold App.sync_offline_data in Eres.
  unfold bind at 1 in Eres. cbn [get_self s App.atlas_mongo_db App.local_mongo_db] in Eres.
  unfold try_except in Eres. unfold bind at 1 in Eres.
  unfold find at 1, pop_fault in Eres. cbn [server] in Eres.
  rewrite Hl in Eres. unfold unreplicated in Hk |- *.
  destruct (filter not_synced (readings (local_srv n))) as [|d0 docs] eqn:Eu;
    [inversion Hk|].
  unfold bind at 1 in Eres.
  set (n0 := set_server LocalServer (local_srv n) n) in Eres.
  destruct (for_each_insert_interrupted (d0 :: docs) k s n0 [] Hk Ha)
    as (E1 & E2 & E3 & ins & E4 & E5).
  change (fun doc : Doc =>
            _ <- insert_one AtlasServer (App.strip_local_fields doc) ;; ret tt)
    with push_to_atlas in Eres.
  destruct (for_each (d0 :: docs) push_to_atlas s n0) as [[r s'] n'].
  simpl in E1, E2, E3, E4. inversion E1; subst r s'.
  simpl in Eres. subst res. simpl.
  split; [exact E2|]. split; [exact E3|]. exists ins. split; [exact E4 | exact E5].
Qed.

(** X10.  Passes of the sync that do nothing.  Without an Atlas handle or
    without a local handle the sync returns at once: no call, nothing
    changed.  With both handles and no unreplicated record, Atlas is not
    called at all and the local records are as they were.  Hence a pass
    that completed with both servers answering is not repeated by the
    next pass: the second pass leaves Atlas and the local records
    untouched, no record is inserted twice. *)
Theorem sync_offline_data_noops :
  (forall s n,
      App.atlas_mongo_db s = None \/ App.local_mongo_db s = None ->
      App.sync_offline_data s n = (Ok tt, s, n))
  /\ (forall ua sim n,
      unreplicated n = [] ->
      let s := App.mkDb (Some LocalServer) (Some AtlasServer) ua sim in
      let out := App.sync_offline_data s n in
      fst out = (Ok tt, s)
      /\ atlas_srv (snd out) = atlas_srv n
      /\ readings (local_srv (snd out)) = readings (local_srv n))
  /\ (forall ua sim n,
      servers_up n ->
      let s := App.mkDb (Some LocalServer) (Some AtlasServer) ua sim in
      let n1 := snd (App.sync_offline_data s n) in
      let n2 := snd (App.sync_offline_data s n1) in
      atlas_srv n2 = atlas_srv n1
      /\ readings (local_srv n2) = readings (local_srv n1)).
Proof.
  split; [exact sync_without_handle|]. split; [exact sync_nothing_to_do|].
  intros ua sim n Hup s n1 n2.
  destruct (sync_atlas_shape ua sim n) as (k & ins & _ & _ & H).
  destruct (H Hup) as [_ Hu]. fold s in Hu. fold n1 in Hu.
  destruct (sync_nothing_to_do ua sim n1 Hu) as (_ & Ha & Hl).
  split; [exact Ha | exact Hl].
Qed.

(** The two unreplicated records of the outage, synced twice. *)
Lemma sync_offline_data_noops_witness :
  let n := snd clock_forward in
  let n1 := snd (App.sync_offline_data connected n) in
  let n2 := snd (App.sync_offline_data connected n1) in
  List.length (readings (atlas_srv n1)) = 2%nat
  /\ atlas_srv n2 = atlas_srv n1
  /\ readings (local_srv n2) = readings (local_srv n1).
Proof.
  intros n n1 n2. split; [reflexivity|].
  destruct sync_offline_data_noops as (_ & _ & H).
  apply (H true None n). split; reflexivity.
Defined.

(** X11.  An interrupted pass is started over.  When Atlas fails after
    [k] inserts of a pass, with unreplicated records left, the [k]
    records are in Atlas but no local record is flagged: the local store
    is as before the pass.  The next pass, with both servers answering,
    inserts every unreplicated record, the first [k] for the second
    time, and only then flags them all. *)
Theorem sync_interrupted_then_retried ua sim n k :
  faults (local_srv n) = [] ->
  faults (atlas_srv n) = repeat false k ++ [true] ->
  (k < List.length (unreplicated n))%nat ->
  let s := App.mkDb (Some LocalServer) (Some AtlasServer) ua sim in
  let n1 := snd (App.sync_offline_data s n) in
  let n2 := snd (App.sync_offline_data s n1) in
  map (set_id None) (inserted_by n n1)
  = map App.strip_local_fields (firstn k (unreplicated n))
  /\ readings (local_srv n1) = readings (local_srv n)
  /\ map (set_id None) (inserted_by n1 n2)
     = map App.strip_local_fields (unreplicated n)
  /\ unreplicated n2 = [].
Proof.
  intros Hl Ha Hk s n1 n2.
  destruct (sync_interrupted ua sim n k Hl Ha Hk)
    as (E1 & E2 & ins & E3 & E4).
  fold s in E1, E2, E3. fold n1 in E1, E2, E3.
  assert (Hu : unreplicated n1 = unreplicated n).
  { unfold unreplicated. now rewrite E1. }
  destruct (sync_atlas_shape ua sim n1) as (k' & ins' & F1 & F2 & F3).
  fold s in F1, F3. fold n2 in F1, F3.
  destruct F3 as [Hk' Hdone].
  { split; [rewrite E1; exact Hl | exact E2]. }
  split; [|split; [|split]].
  - unfold inserted_by. rewrite E3, skipn_length_app. exact E4.
  - now rewrite E1.
  - unfold inserted_by. rewrite F1, skipn_length_app, F2, Hk', firstn_all.
    now rewrite Hu.
  - exact Hdone.
Qed.

(** Two unreplicated records, Atlas failing after the first insert: Atlas
    ends with three records, the one stamped 100 twice. *)
Lemma sync_interrupted_then_retried_witness :
  let n := mkNet (local_srv (snd clock_forward)) (mkMongo [] 0 [false; true]) true in
  let n1 := snd (App.sync_offline_data connected n) in
  let n2 := snd (App.sync_offline_data connected n1) in
  map ts_of (readings (atlas_srv n2)) = [100; 100; 200]%Z
  /\ readings (local_srv n1) = readings (local_srv n)
  /\ unreplicated n2 = [].
Proof.
  intros n n1 n2.
  destruct (sync_interrupted_then_retried true None n 1)
    as (_ & H2 & _ & H4); try reflexivity.
  - simpl. lia.
  - split; [reflexivity|]. split; [exact H2 | exact H4].
Defined.
(** ** Reconnection by the health monitor *)

Lemma health_pass_probe_ok sim n :
  faults (atlas_srv n) = [] -> mongodb_uri n = true ->
  let s := App.mkDb (Some LocalServer) None false sim in
  let s' := App.mkDb (Some LocalServer) (Some AtlasServer) true sim in
  App.database_health_monitor_pass s n
  = (Ok tt, snd (fst (App.sync_offline_data s' n)),
     snd (App.sync_offline_data s' n)).
Proof.
  intros Ha Hu s s'. destruct n as [l a u]. simpl in Ha, Hu. subst u.
  unfold App.database_health_monitor_pass, try_except.
  unfold bind at 1. cbn [get_self s App.using_atlas].
  unfold bind at 1. unfold App.connect_atlas, try_except. cbn [mongodb_uri].
  unfold bind at 1. cbn [modify_self]. unfold bind at 1.
  unfold ping, pop_fault. cbn [server atlas_srv]. rewrite Ha.
  cbn [set_server local_srv atlas_srv mongodb_uri].
  unfold bind at 1. cbn [modify_self]. unfold bind at 1.
  destruct a as [ar ao af]. simpl in Ha. subst af.
  change (App.set_using_atlas true (App.set_atlas (Some AtlasServer) s)) with s'.
  destruct (sync_never_raises s' (mkNet l (mkMongo ar ao []) true))
    as (x & s2 & n2 & E).
  rewrite E. destruct x. reflexivity.
Qed.

Lemma health_pass_probe_fails sim n :
  atlas_probe_ok n = false ->
  let s := App.mkDb (Some LocalServer) None false sim in
  exists n',
    App.database_health_monitor_pass s n = (Ok tt, s, n')
    /\ local_srv n' = local_srv n
    /\ readings (atlas_srv n') = readings (atlas_srv n).
Proof.
  intros Hp s. destruct n as [l [ar ao af] u]. unfold atlas_probe_ok in Hp.
  cbn [mongodb_uri atlas_srv faults] in Hp.
  unfold App.database_health_monitor_pass, try_except.
  unfold bind at 1. cbn [get_self s App.using_atlas].
  unfold bind at 1. unfold App.connect_atlas, try_except. cbn [mongodb_uri].
  destruct u.
  - destruct af as [|[|] af]; try discriminate Hp.
    unfold bind at 1. cbn [modify_self]. unfold bind at 1.
    unfold ping, pop_fault. cbn [server atlas_srv faults].
    cbn. eexists. split; [reflexivity|]. split; reflexivity.
  - cbn. eexists. split; [reflexivity|]. split; reflexivity.
Qed.

(** X12.  One pass of the health monitor.  While [using_atlas] is set the
    pass does nothing.  On a disconnected service it probes Atlas: when no
    URI is configured or the probe fails, the service stays disconnected
    and no record of either store changes; when the probe succeeds with
    both servers answering, the service is connected again, every
    unreplicated local record has been inserted into Atlas, in storage
    order and without its local keys, and no local record is left
    unreplicated. *)
Theorem health_monitor_reconnects sim n :
  (forall s, App.using_atlas s = true ->
             App.database_health_monitor_pass s n = (Ok tt, s, n))
  /\ let s := App.mkDb (Some LocalServer) None false sim in
     let out := App.database_health_monitor_pass s n in
     (atlas_probe_ok n = false ->
      fst out = (Ok tt, s)
      /\ readings (local_srv (snd out)) = readings (local_srv n)
      /\ readings (atlas_srv (snd out)) = readings (atlas_srv n))
     /\ (mongodb_uri n = true -> servers_up n ->
         fst out = (Ok tt, App.mkDb (Some LocalServer) (Some AtlasServer) true sim)
         /\ map (set_id None) (inserted_by n (snd out))
            = map App.strip_local_fields (unreplicated n)
         /\ unreplicated (snd out) = []).
Proof.
  split.
  - intros s H. unfold App.database_health_monitor_pass, try_except.
    unfold bind at 1. cbn [get_self]. rewrite H. reflexivity.
  - intros s out. split.
    + intro Hp. destruct (health_pass_probe_fails sim n Hp) as (n' & E & Hl & Ha).
      unfold out, s. rewrite E. cbn [fst snd]. rewrite Hl. auto.
    + intros Hu Hup. unfold out, s.
      rewrite (health_pass_probe_ok sim n (proj2 Hup) Hu). cbn [fst snd].
      pose proof (sync_keeps_self
                    (App.mkDb (Some LocalServer) (Some AtlasServer) true sim) n) as K.
      destruct (sync_atlas_shape true sim n) as (k & ins & E1 & E2 & E3).
      destruct (E3 Hup) as [Ek Eun].
      split; [|split].
      * f_equal. destruct (App.sync_offline_data _ n) as [[r s2] n2].
        simpl in K. simpl. exact K.
      * unfold inserted_by. rewrite E1.
        rewrite skipn_app, skipn_all, Nat.sub_diag. simpl.
        rewrite E2, Ek, firstn_all. reflexivity.
      * exact Eun.
Qed.

(** The two records saved during the outage of [clock_forward], picked up
    by the first pass after the service lost the connection. *)
Lemma health_monitor_reconnects_witness :
  let n := snd clock_forward in
  let out := App.database_health_monitor_pass
               (App.mkDb (Some LocalServer) None false None) n in
  List.length (unreplicated n) = 2%nat
  /\ fst out = (Ok tt, connected)
  /\ map (set_id None) (inserted_by n (snd out))
     = map App.strip_local_fields (unreplicated n)
  /\ unreplicated (snd out) = [].
Proof.
  intros n out. split; [reflexivity|].
  destruct (health_monitor_reconnects None n) as (_ & _ & H).
  apply H; [reflexivity | split; reflexivity].
Defined.
(** ** Queries on the in-memory store *)

Lemma mixed_kinds_not_sortable sim :
  mixed_kinds sim -> exists e, sorted_newest_first sim = Raise e /\ is_Exception e = true.
Proof.
  intros [Hd Hi]. unfold sorted_newest_first.
  destruct (forallb has_server_timestamp sim); [|exists KeyError; auto].
  assert (E1 : forallb ts_is_datetime sim = false).
  { apply not_true_is_false. intro H. rewrite forallb_forall in H.
    apply existsb_exists in Hi. destruct Hi as (x & Hx & Hxi).
    specialize (H x Hx). unfold ts_is_datetime, ts_is_iso in *.
    destruct (server_timestamp x) as [v|]; [|discriminate].
    rewrite H in Hxi. discriminate. }
  assert (E2 : forallb ts_is_iso sim = false).
  { apply not_true_is_false. intro H. rewrite forallb_forall in H.
    apply existsb_exists in Hd. destruct Hd as (x & Hx & Hxd).
    specialize (H x Hx). unfold ts_is_datetime, ts_is_iso in *.
    destruct (server_timestamp x) as [v|]; [|discriminate].
    rewrite Hxd in H. discriminate. }
  rewrite E1, E2. exists TypeError. auto.
Qed.

Lemma latest_on_mixed_kinds limit atlas ua sim n :
  mixed_kinds sim ->
  App.get_latest_readings limit (in_memory atlas ua sim) n
  = (Ok [], in_memory atlas ua sim, n).
Proof.
  intro H. destruct (mixed_kinds_not_sortable sim H) as (e & E & He).
  unfold App.get_latest_readings, try_except, App.get_latest_readings_body.
  unfold bind at 1. cbn [get_self in_memory App.local_mongo_db App.simulation_data].
  unfold bind at 1. rewrite E. unfold App.lift_res. rewrite He. reflexivity.
Qed.

Lemma length_insert_by {A} (le : A -> A -> bool) x l :
  List.length (insert_by le x l) = S (List.length l).
Proof.
  induction l as [|y l IH]; simpl; [reflexivity|].
  destruct (le x y); simpl; [reflexivity | now rewrite IH].
Qed.

Lemma length_sort_by {A} (le : A -> A -> bool) l :
  List.length (sort_by le l) = List.length l.
Proof.
  induction l as [|x l IH]; simpl; [reflexivity|].
  now rewrite length_insert_by, IH.
Qed.

Lemma length_update_nth {A} (x : A) l : forall i,
  List.length (update_nth i x l) = List.length l.
Proof.
  induction l as [|y l IH]; intros [|i]; simpl; auto.
Qed.

Lemma Forall_update_nth {A} (P : A -> Prop) x l : forall i,
  P x -> Forall P l -> Forall P (update_nth i x l).
Proof.
  induction l as [|y l IH]; intros [|i] Hx Hl; simpl; auto;
    inversion Hl; subst; constructor; auto.
Qed.

Lemma stringify_doc_iso d d' :
  App.stringify_doc d = Ok d' ->
  _id d' <> None
  /\ (has_server_timestamp d = true -> ts_is_iso d' = true).
Proof.
  unfold App.stringify_doc. destruct (_id d) as [i|]; [|discriminate].
  intro H. injection H as <-. split; [discriminate|].
  unfold has_server_timestamp, ts_is_iso. cbn.
  destruct (server_timestamp d) as [[t|t]|]; auto.
Qed.

Lemma ts_is_iso_has_ts d : ts_is_iso d = true -> has_server_timestamp d = true.
Proof.
  unfold ts_is_iso, has_server_timestamp. destruct (server_timestamp d); auto.
Qed.

Lemma stringify_in_place_effect idxs : forall store,
  Forall (fun d => _id d <> None) store ->
  Forall (fun i => (i < List.length store)%nat) idxs ->
  exists store',
    stringify_in_place idxs store = (Ok tt, store')
    /\ List.length store' = List.length store
    /\ (forall j, ~ In j idxs -> nth_error store' j = nth_error store j)
    /\ (forall j d, nth_error store j = Some d -> ts_is_iso d = true ->
          exists d', nth_error store' j = Some d' /\ ts_is_iso d' = true)
    /\ (forall j d, In j idxs -> nth_error store j = Some d ->
          has_server_timestamp d = true ->
          exists d', nth_error store' j = Some d' /\ ts_is_iso d' = true).
Proof.
  induction idxs as [|i idxs IH]; intros store Hid Hrange;
    cbn [stringify_in_place].
  - exists store. split; [reflexivity|]. split; [reflexivity|].
    split; [reflexivity|]. split; [eauto|]. intros j d [].
  - destruct (nth_error store i) as [di|] eqn:Ei.
    + assert (Hdi : _id di <> None).
      { rewrite Forall_forall in Hid. apply Hid. eapply nth_error_In; eauto. }
      destruct (App.stringify_doc di) as [di'|e] eqn:Ed.
      2:{ unfold App.stringify_doc in Ed. destruct (_id di); [discriminate|].
          now elim Hdi. }
      destruct (stringify_doc_iso _ _ Ed) as [Hid' Hiso'].
      destruct (IH (update_nth i di' store)) as (store' & E & Hlen & Hout & Hiso & Hin).
      { apply Forall_update_nth; assumption. }
      { rewrite length_update_nth. now inversion Hrange. }
      exists store'. split; [exact E|]. split; [now rewrite Hlen, length_update_nth|].
      assert (Hstep : forall j d, nth_error store j = Some d ->
                (ts_is_iso d = true \/ (j = i /\ has_server_timestamp d = true)) ->
                exists d1, nth_error (update_nth i di' store) j = Some d1
                           /\ ts_is_iso d1 = true).
      { intros j d Hj Hd. rewrite nth_error_update_nth.
        destruct (Nat.eqb i j) eqn:Eij.
        - apply Nat.eqb_eq in Eij. subst j. rewrite Hj. simpl.
          exists di'. split; [reflexivity|]. apply Hiso'.
          rewrite Ei in Hj. injection Hj as <-.
          destruct Hd as [Hd|[_ Hd]]; [now apply ts_is_iso_has_ts | exact Hd].
        - exists d. split; [exact Hj|]. destruct Hd as [Hd|[Hd _]]; [exact Hd|].
          apply Nat.eqb_neq in Eij. now elim Eij. }
      split; [|split].
      * intros j Hj. rewrite Hout by (intro; apply Hj; now right).
        rewrite nth_error_update_nth.
        destruct (Nat.eqb i j) eqn:Eij; [|reflexivity].
        apply Nat.eqb_eq in Eij. elim Hj. now left.
      * intros j d Hj Hd. destruct (Hstep j d Hj (or_introl Hd)) as (d1 & H1 & H2).
        eapply Hiso; eauto.
      * intros j d [Hji|Hji] Hj Hd.
        -- subst j. destruct (Hstep i d Hj (or_intror (conj eq_refl Hd)))
             as (d1 & H1 & H2).
           eapply Hiso; eauto.
        -- destruct (Nat.eq_dec j i) as [->|Hne].
           ++ destruct (Hstep i d Hj (or_intror (conj eq_refl Hd)))
                as (d1 & H1 & H2).
              eapply Hiso; eauto.
           ++ apply (Hin j d Hji); [|exact Hd].
              rewrite nth_error_update_nth.
              destruct (Nat.eqb i j) eqn:Eij; [|exact Hj].
              apply Nat.eqb_eq in Eij. now elim Hne.
    + inversion Hrange as [|? ? Hi _]; subst.
      apply nth_error_None in Ei. lia.
Qed.

Lemma pick_length {A} (store : list A) idxs :
  Forall (fun i => (i < List.length store)%nat) idxs ->
  List.length (pick idxs store) = List.length idxs.
Proof.
  induction 1 as [|i idxs Hi _ IH]; simpl; [reflexivity|].
  destruct (nth_error store i) eqn:E; [simpl; now rewrite IH|].
  apply nth_error_None in E. lia.
Qed.

Lemma index_left_out (idxs : list nat) m :
  (List.length idxs < m)%nat -> exists j, (j < m)%nat /\ ~ In j idxs.
Proof.
  intro Hlt.
  destruct (Exists_dec (fun j => ~ In j idxs) (seq 0 m)) as [H|H].
  - intro j. destruct (in_dec Nat.eq_dec j idxs); [right | left]; tauto.
  - apply Exists_exists in H. destruct H as (j & Hj & Hn).
    exists j. apply in_seq in Hj. split; [lia | exact Hn].
  - exfalso.
    assert (Hincl : incl (seq 0 m) idxs).
    { intros j Hj. destruct (in_dec Nat.eq_dec j idxs) as [Hin|Hn]; [exact Hin|].
      elim H. apply Exists_exists. eauto. }
    pose proof (NoDup_incl_length (seq_NoDup m 0) Hincl) as Hle.
    rewrite length_seq in Hle. lia.
Qed.

Lemma length_enumerate {A} (l : list A) : List.length (enumerate l) = List.length l.
Proof. unfold enumerate. rewrite length_combine, length_seq. lia. Qed.

Lemma saved_in_memory_sortable sim :
  saved_in_memory sim ->
  sorted_newest_first sim
  = Ok (sort_by (fun a b => ts_geb (snd a) (snd b)) (enumerate sim)).
Proof.
  intro H. unfold sorted_newest_first.
  assert (E1 : forallb has_server_timestamp sim = true).
  { apply forallb_forall. intros x Hx. unfold saved_in_memory in H.
    rewrite Forall_forall in H. destruct (H x Hx) as [Hd _].
    unfold ts_is_datetime, has_server_timestamp in *.
    destruct (server_timestamp x); auto. }
  assert (E2 : forallb ts_is_datetime sim = true).
  { apply forallb_forall. intros x Hx. unfold saved_in_memory in H.
    rewrite Forall_forall in H. apply (H x Hx). }
  now rewrite E1, E2.
Qed.

Lemma latest_on_saved limit atlas ua sim n :
  (0 < limit)%Z -> sim <> [] -> saved_in_memory sim ->
  exists l sim1,
    App.get_latest_readings limit (in_memory atlas ua sim) n
    = (Ok l, in_memory atlas ua sim1, n)
    /\ List.length l = Nat.min (Z.to_nat limit) (List.length sim)
    /\ existsb ts_is_iso sim1 = true
    /\ ((Z.to_nat limit < List.length sim)%nat ->
        existsb ts_is_datetime sim1 = true).
Proof.
  intros Hlimit Hne Hsaved.
  pose proof (saved_in_memory_sortable sim Hsaved) as Hsorted.
  set (sorted := sort_by (fun a b => ts_geb (snd a) (snd b)) (enumerate sim)) in *.
  set (k := Z.to_nat limit).
  assert (Hslice : py_slice_to limit sorted = firstn k sorted).
  { unfold py_slice_to. destruct (0 <=? limit)%Z eqn:E; [reflexivity|].
    apply Z.leb_gt in E. lia. }
  set (idxs := map fst (firstn k sorted)).
  assert (Hnth : Forall (fun p => nth_error sim (fst p) = Some (snd p))
                   (firstn k sorted)).
  { apply Forall_firstn. apply Forall_sort_by, enumerate_nth. }
  assert (Hrange : Forall (fun i => (i < List.length sim)%nat) idxs).
  { unfold idxs. rewrite Forall_map. eapply Forall_impl; [|exact Hnth].
    intros p Hp. apply nth_error_Some. rewrite Hp. discriminate. }
  assert (Hids : Forall (fun d => _id d <> None) sim).
  { eapply Forall_impl; [|exact Hsaved]. intros d Hd. apply Hd. }
  destruct (stringify_in_place_effect idxs sim Hids Hrange)
    as (sim1 & E & Hlen & Hout & _ & Hin).
  exists (pick idxs sim1), sim1. split; [|split; [|split]].
  - unfold App.get_latest_readings, try_except, App.get_latest_readings_body.
    unfold bind at 1.
    cbn [get_self in_memory App.local_mongo_db App.simulation_data].
    unfold bind at 1. rewrite Hsorted. unfold App.lift_res at 1.
    rewrite Hslice. fold idxs. rewrite E. reflexivity.
  - rewrite pick_length by (now rewrite Hlen).
    unfold idxs. rewrite length_map, length_firstn.
    unfold sorted. now rewrite length_sort_by, length_enumerate.
  - assert (Hlen_sorted : List.length sorted = List.length sim).
    { unfold sorted. now rewrite length_sort_by, length_enumerate. }
    destruct sorted as [|p rest] eqn:Es.
    { destruct sim; [now elim Hne | discriminate]. }
    assert (Hk : exists k', k = S k').
    { exists (Nat.pred k). unfold k. lia. }
    destruct Hk as [k' Ek]. unfold idxs in Hin. rewrite Ek in Hin, Hnth.
    cbn [firstn map] in Hin. inversion Hnth as [|? ? Hp _]; subst.
    unfold saved_in_memory in Hsaved. rewrite Forall_forall in Hsaved.
    destruct (Hsaved (snd p) (nth_error_In _ _ Hp)) as [Hd _].
    destruct (Hin (fst p) (snd p) (or_introl eq_refl) Hp) as (d' & Hd' & Hiso).
    { unfold ts_is_datetime, has_server_timestamp in *.
      destruct (server_timestamp (snd p)); auto. }
    apply existsb_exists. exists d'. split; [|exact Hiso].
    eapply nth_error_In; eauto.
  - intro Hlt.
    destruct (index_left_out idxs (List.length sim)) as (j & Hj & Hn).
    { unfold idxs. rewrite length_map, length_firstn. lia. }
    destruct (nth_error sim j) as [d|] eqn:Ej.
    2:{ apply nth_error_None in Ej. lia. }
    apply existsb_exists. exists d. split.
    + apply (nth_error_In sim1 j). now rewrite Hout.
    + unfold saved_in_memory in Hsaved. rewrite Forall_forall in Hsaved.
      apply (Hsaved d (nth_error_In _ _ Ej)).
Qed.

Lemma save_keeps_iso now d atlas ua sim n :
  existsb ts_is_iso sim = true ->
  exists sim',
    snd (fst (App.save_reading now d (in_memory atlas ua sim) n))
    = in_memory atlas ua sim'
    /\ mixed_kinds sim'.
Proof.
  intro H. unfold in_memory. rewrite save_reading_fallback. cbn [fst snd].
  eexists. split; [reflexivity|]. unfold mixed_kinds.
  rewrite !existsb_app, H. cbn. split; [apply orb_true_r | reflexivity].
Qed.

(** X13.  In fallback mode [get_latest_readings] converts the stored
    dictionaries themselves, so it works once.  On a non-empty list of
    saved documents a query with a positive limit answers the
    [min(limit, len)] newest ones and turns their stored timestamps into
    strings: the list then mixes strings with [datetime]s when the limit
    was below its length, and in any case after the next save.  On such a
    list the sort raises, the query answers the empty list and changes
    nothing, and a save keeps the list mixed: every later query answers
    the empty list. *)
Theorem in_memory_latest_readings_go_blank :
  (forall limit atlas ua sim n,
      mixed_kinds sim ->
      App.get_latest_readings limit (in_memory atlas ua sim) n
      = (Ok [], in_memory atlas ua sim, n))
  /\ (forall now d atlas ua sim n,
      mixed_kinds sim ->
      exists sim',
        snd (fst (App.save_reading now d (in_memory atlas ua sim) n))
        = in_memory atlas ua sim'
        /\ mixed_kinds sim')
  /\ (forall limit now d atlas ua sim n,
      (0 < limit)%Z -> sim <> [] -> saved_in_memory sim ->
      exists l sim1,
        App.get_latest_readings limit (in_memory atlas ua sim) n
        = (Ok l, in_memory atlas ua sim1, n)
        /\ List.length l = Nat.min (Z.to_nat limit) (List.length sim)
        /\ ((Z.to_nat limit < List.length sim)%nat -> mixed_kinds sim1)
        /\ exists sim2,
            snd (fst (App.save_reading now d (in_memory atlas ua sim1) n))
            = in_memory atlas ua sim2
            /\ mixed_kinds sim2).
Proof.
  split; [exact latest_on_mixed_kinds|]. split.
  - intros now d atlas ua sim n [_ H]. now apply save_keeps_iso.
  - intros limit now d atlas ua sim n Hl Hne Hs.
    destruct (latest_on_saved limit atlas ua sim n Hl Hne Hs)
      as (l & sim1 & E & Hlen & Hiso & Hdt).
    exists l, sim1. split; [exact E|]. split; [exact Hlen|]. split.
    + intro Hlt. split; [now apply Hdt | exact Hiso].
    + now apply save_keeps_iso.
Qed.

(** Two saved readings, a query for ten, one more save. *)
Lemma in_memory_latest_readings_go_blank_witness :
  let sim := [buffered_doc 0 100 reading0; buffered_doc 1 200 reading0] in
  let n := mkNet empty_mongo empty_mongo false in
  exists l sim1,
    App.get_latest_readings 10 (in_memory None false sim) n
    = (Ok l, in_memory None false sim1, n)
    /\ List.length l = 2%nat
    /\ exists sim2,
        snd (fst (App.save_reading 300 reading0 (in_memory None false sim1) n))
        = in_memory None false sim2
        /\ mixed_kinds sim2.
Proof.
  intros sim n.
  destruct in_memory_latest_readings_go_blank as (_ & _ & H).
  destruct (H 10%Z 300%Z reading0 None false sim n)
    as (l & sim1 & E & Hlen & _ & Hsave).
  - lia.
  - discriminate.
  - repeat constructor; discriminate.
  - exists l, sim1. split; [exact E|]. split; [exact Hlen | exact Hsave].
Defined.
(** ** [database_service.py]: save, sync and queries *)

(** X15.  [save_reading] of [database_service.py] answers for the local
    copy alone.  It returns [True] exactly when there is a local handle
    and the local server takes the insert, also when Atlas failed, and
    [False] otherwise, also when Atlas took its copy.  Atlas is tried only
    while [using_atlas] is set and there is a handle; [using_atlas] is
    then set exactly if Atlas took the insert, so one failed write puts
    the service in offline mode.  Each store grows by the stamped reading
    if it took it and is unchanged otherwise. *)
Theorem db_save_reading_outcome now d s n :
  handles_ok s ->
  let r := set_server_timestamp (Some (TsDatetime now)) d in
  let stored := App.is_not_None (DbService.local_db s) && takes LocalServer r n in
  let replicated := atlas_tried s && takes AtlasServer r n in
  let out := DbService.save_reading now d s n in
  fst (fst out) = Ok stored
  /\ snd (fst out)
     = DbService.mkDb (DbService.local_db s) (DbService.atlas_db s)
         (if atlas_tried s then takes AtlasServer r n
          else DbService.using_atlas s)
  /\ readings (local_srv (snd out))
     = (if stored then readings (local_srv n) ++ [stored_as LocalServer r n]
        else readings (local_srv n))
  /\ readings (atlas_srv (snd out))
     = (if replicated then readings (atlas_srv n) ++ [stored_as AtlasServer r n]
        else readings (atlas_srv n)).
Proof.
  intros [Hl Ha] r stored replicated out.
  unfold out, stored, replicated, atlas_tried, takes, stored_as.
  destruct s as [local atlas ua].
  destruct n as [[lr lo lf] [ar ao af] u].
  unfold DbService.save_reading, try_except, bind, get_self, insert_one,
    pop_fault, modify_self, ret.
  cbn [server local_srv atlas_srv faults readings next_oid
       DbService.using_atlas DbService.atlas_db DbService.local_db
       App.is_not_None] in *.
  fold r.
  destruct local as [[|]|]; [ | now elim Hl | ];
    (destruct atlas as [[|]|]; [now elim Ha | |]);
    destruct ua; cbn [andb App.is_not_None];
    destruct (_id r) as [i|] eqn:Ei;
    destruct lf as [|[|] lf]; destruct af as [|[|] af];
    cbn [hd negb andb faults readings next_oid server set_server local_srv
         atlas_srv mongodb_uri is_Exception fst snd
         DbService.using_atlas DbService.atlas_db DbService.local_db
         DbService.set_using_atlas];
    try rewrite Ei;
    repeat match goal with
    | |- context [existsb (has_id i) ?l] =>
        destruct (existsb (has_id i) l) eqn:?;
        cbn [hd negb andb faults readings next_oid server set_server local_srv
         atlas_srv mongodb_uri is_Exception fst snd
         DbService.using_atlas DbService.atlas_db DbService.local_db
         DbService.set_using_atlas]
    end;
    try rewrite Ei;
    repeat split; reflexivity.
Qed.

(** Without a local handle the method answers [False] for a reading that
    Atlas took; with both handles and Atlas failing it answers [True] and
    the service is offline. *)
Lemma db_save_reading_outcome_witness :
  let atlas_only := DbService.mkDb None (Some AtlasServer) true in
  let n := mkNet empty_mongo empty_mongo true in
  let out := DbService.save_reading 100 reading0 atlas_only n in
  let out' := DbService.save_reading 100 reading0 db_connected atlas_outage in
  (fst (fst out) = Ok false
   /\ List.length (readings (atlas_srv (snd out))) = 1%nat)
  /\ (fst (fst out') = Ok true
      /\ DbService.using_atlas (snd (fst out')) = false).
Proof.
  intros atlas_only n out out'. split.
  - destruct (db_save_reading_outcome 100 reading0 atlas_only n)
      as (Hr & _ & _ & Ha).
    + split; discriminate.
    + split; [exact Hr|]. fold out in Ha. rewrite Ha. reflexivity.
  - destruct (db_save_reading_outcome 100 reading0 db_connected atlas_outage)
      as (Hr & Hs & _ & _).
    + split; discriminate.
    + split; [exact Hr|]. fold out' in Hs. rewrite Hs. reflexivity.
Defined.





Lemma db_for_each_insert docs : forall (s : DbService.DatabaseService) n,
  faults (atlas_srv n) = [] -> Forall (fun d => _id d <> None) docs ->
  exists ins,
    for_each docs push_with_id s n
    = (Ok tt, s,
       mkNet (local_srv n)
             (mkMongo (readings (atlas_srv n) ++ ins) (next_oid (atlas_srv n)) [])
             (mongodb_uri n))
    /\ incl ins docs
    /\ (forall d i, In d docs -> _id d = Some i ->
          existsb (has_id i) (readings (atlas_srv n) ++ ins) = true)
    /\ ((forall d i, In d docs -> _id d = Some i ->
           existsb (has_id i) (readings (atlas_srv n)) = true) -> ins = []).
Proof.
  induction docs as [|d docs IH]; intros s n Hf Hid.
  - destruct n as [l [ar ao af] u]. simpl in Hf. subst af.
    exists []. cbn. rewrite app_nil_r. split; [reflexivity|].
    split; [apply incl_refl|]. split; [intros d i []|reflexivity].
  - inversion Hid as [|? ? Hd Hids]; subst.
    destruct (_id d) as [i|] eqn:Ei; [|now elim Hd].
    destruct n as [l [ar ao af] u]. simpl in Hf. subst af.
    cbn [for_each]. unfold bind at 1. unfold push_with_id at 1.
    unfold try_except_duplicate, bind at 1. unfold insert_one, pop_fault.
    cbn [server atlas_srv faults readings next_oid]. rewrite Ei.
    cbn [local_srv atlas_srv mongodb_uri readings next_oid].
    destruct (existsb (has_id i) ar) eqn:Ex.
    + cbn [set_server local_srv atlas_srv mongodb_uri ret].
      destruct (IH s (mkNet l (mkMongo ar ao []) u) eq_refl Hids)
        as (ins & E & Hincl & Hall & Hnone).
      cbn [local_srv atlas_srv mongodb_uri readings next_oid] in *.
      exists ins. split; [exact E|]. split; [now apply incl_tl|].
      split.
      * intros d' i' [<-|Hin] Hi'.
        -- rewrite Ei in Hi'. injection Hi' as <-.
           rewrite existsb_app, Ex. reflexivity.
        -- eapply Hall; eauto.
      * intro H. apply Hnone. intros d' i' Hin. apply H. now right.
    + cbn [set_server local_srv atlas_srv mongodb_uri ret readings next_oid faults].
      destruct (IH s (mkNet l (mkMongo (ar ++ [d]) ao []) u) eq_refl Hids)
        as (ins & E & Hincl & Hall & Hnone).
      cbn [local_srv atlas_srv mongodb_uri readings next_oid] in *.
      exists (d :: ins). rewrite <- app_assoc in E, Hall. split; [exact E|].
      split; [|split].
      * intros x [<-|Hx]; [now left | right; now apply Hincl].
      * intros d' i' [<-|Hin] Hi'.
        -- rewrite Ei in Hi'. injection Hi' as <-.
           rewrite existsb_app. cbn [existsb]. unfold has_id at 2. rewrite Ei.
           assert (Hrefl : IdVal_eqb i i = true) by (now apply IdVal_eqb_eq).
           rewrite Hrefl. cbn. apply orb_true_r.
        -- eapply Hall; eauto.
      * intro H. specialize (H d i (or_introl eq_refl) Ei). congruence.
Qed.

Lemma db_sync_pass now ua n :
  servers_up n -> Forall (fun d => _id d <> None) (readings (local_srv n)) ->
  let s := DbService.mkDb (Some LocalServer) (Some AtlasServer) ua in
  exists ins,
    DbService.sync_offline_data now s n
    = (Ok tt, s,
       mkNet (local_srv n)
             (mkMongo (readings (atlas_srv n) ++ ins) (next_oid (atlas_srv n)) [])
             (mongodb_uri n))
    /\ incl ins (last_day now n)
    /\ (forall d i, In d (last_day now n) -> _id d = Some i ->
          existsb (has_id i) (readings (atlas_srv n) ++ ins) = true)
    /\ ((forall d i, In d (last_day now n) -> _id d = Some i ->
           existsb (has_id i) (readings (atlas_srv n)) = true) -> ins = []).
Proof.
  intros [Hl Ha] Hid s.
  assert (Hids : Forall (fun d => _id d <> None) (last_day now n)).
  { unfold last_day. apply Forall_filter. exact Hid. }
  destruct n as [[lr lo lf] a u]. simpl in Hl. subst lf.
  destruct (db_for_each_insert (last_day now (mkNet (mkMongo lr lo []) a u)) s
              (mkNet (mkMongo lr lo []) a u) Ha Hids)
    as (ins & E & H1 & H2 & H3).
  exists ins. split; [|split; [exact H1 | split; [exact H2 | exact H3]]].
  unfold DbService.sync_offline_data.
  unfold bind at 1. cbn [get_self s DbService.atlas_db DbService.local_db].
  unfold try_except, bind at 1. unfold find, pop_fault.
  cbn [server local_srv faults readings set_server atlas_srv mongodb_uri].
  unfold last_day in E. cbn [local_srv readings] in E.
  fold push_with_id. rewrite E. reflexivity.
Qed.

(** X14.  The sync of [database_service.py] merges by ['_id'].  With both
    servers answering (and every local document under an ['_id'], as in
    MongoDB), a pass leaves the local server as it is and appends to
    Atlas only local documents of the last 24 hours, as they are; after
    it Atlas holds a document under the ['_id'] of each of them.  A
    second pass at the same clock reading changes nothing at all: the
    duplicates are skipped. *)
Theorem db_sync_offline_data_merges now ua n :
  servers_up n -> Forall (fun d => _id d <> None) (readings (local_srv n)) ->
  let s := DbService.mkDb (Some LocalServer) (Some AtlasServer) ua in
  let n1 := snd (DbService.sync_offline_data now s n) in
  let n2 := snd (DbService.sync_offline_data now s n1) in
  local_srv n1 = local_srv n
  /\ (exists ins, readings (atlas_srv n1) = readings (atlas_srv n) ++ ins
                  /\ incl ins (last_day now n))
  /\ (forall d, In d (last_day now n) -> in_atlas n1 d)
  /\ n2 = n1.
Proof.
  intros Hup Hid s n1 n2.
  destruct (db_sync_pass now ua n Hup Hid) as (ins & E & H1 & H2 & _).
  fold s in E. assert (En1 : n1 = mkNet (local_srv n)
             (mkMongo (readings (atlas_srv n) ++ ins) (next_oid (atlas_srv n)) [])
             (mongodb_uri n)) by (unfold n1; now rewrite E).
  split; [now rewrite En1|]. split; [exists ins; now rewrite En1|].
  split.
  - intros d Hd. unfold in_atlas.
    assert (Hd' : _id d <> None).
    { rewrite Forall_forall in Hid. apply Hid. unfold last_day in Hd.
      apply filter_In in Hd. apply Hd. }
    destruct (_id d) as [i|] eqn:Ei; [|now elim Hd'].
    exists i. split; [reflexivity|]. rewrite En1. cbn. eapply H2; eauto.
  - assert (Hup1 : servers_up n1).
    { rewrite En1. split; [apply Hup | reflexivity]. }
    assert (Hid1 : Forall (fun d => _id d <> None) (readings (local_srv n1))).
    { now rewrite En1. }
    destruct (db_sync_pass now ua n1 Hup1 Hid1) as (ins' & E' & _ & _ & H3).
    fold s in E'. unfold n2. rewrite E'. cbn [snd].
    rewrite H3.
    + rewrite app_nil_r. rewrite En1. reflexivity.
    + intros d i Hd Hi. rewrite En1. cbn. apply (H2 d i); [|exact Hi].
      rewrite En1 in Hd. exact Hd.
Qed.

(** The two records of [clock_set_back], pushed once. *)
Lemma db_sync_offline_data_merges_witness :
  let n := snd clock_set_back in
  let n1 := snd (DbService.sync_offline_data 300 db_connected n) in
  let n2 := snd (DbService.sync_offline_data 300 db_connected n1) in
  List.length (readings (atlas_srv n1)) = 2%nat
  /\ local_srv n1 = local_srv n /\ n2 = n1.
Proof.
  intros n n1 n2. split; [reflexivity|].
  destruct (db_sync_offline_data_merges 300 true n) as (H1 & _ & _ & H4).
  - split; reflexivity.
  - repeat constructor; discriminate.
  - split; [exact H1 | exact H4].
Defined.

Lemma db_save_connected now d n :
  _id d = None -> servers_up n ->
  let r := set_server_timestamp (Some (TsDatetime now)) d in
  DbService.save_reading now d db_connected n
  = (Ok true, db_connected,
     mkNet (mkMongo (readings (local_srv n)
                     ++ [set_id (Some (ObjectId LocalServer (next_oid (local_srv n)))) r])
                    (S (next_oid (local_srv n))) [])
           (mkMongo (readings (atlas_srv n)
                     ++ [set_id (Some (ObjectId AtlasServer (next_oid (atlas_srv n)))) r])
                    (S (next_oid (atlas_srv n))) [])
           (mongodb_uri n)).
Proof.
  intros Hid [Hl Ha] r.
  destruct n as [[lr lo lf] [ar ao af] u]. cbn in Hl, Ha. subst lf af.
  assert (Er : _id r = None) by exact Hid.
  unfold DbService.save_reading, db_connected, try_except, bind, get_self,
    insert_one, pop_fault, modify_self, ret.
  cbn [server local_srv atlas_srv faults readings next_oid
       DbService.using_atlas DbService.atlas_db DbService.local_db].
  fold r. rewrite Er. reflexivity.
Qed.

(** X17.  In [database_service.py] a reading saved while connected is
    replicated twice.  The save inserts one copy into Atlas and one into
    the local server, each under the ObjectId of its own insert; the next
    sync within 24 hours finds the local copy, whose ['_id'] Atlas does
    not know, and inserts it as well: Atlas then holds the reading under
    both ids. *)
Theorem db_save_then_sync_duplicates now now' d n :
  _id d = None -> servers_up n ->
  Forall (fun x => _id x <> None) (readings (local_srv n)) ->
  oid_fresh (local_srv n) -> local_id_unused n ->
  (hours_before now' 24 <= now)%Z ->
  let r := set_server_timestamp (Some (TsDatetime now)) d in
  let saved := DbService.save_reading now d db_connected n in
  let n2 := snd (DbService.sync_offline_data now' (snd (fst saved)) (snd saved)) in
  fst (fst saved) = Ok true
  /\ In (set_id (Some (ObjectId AtlasServer (next_oid (atlas_srv n)))) r)
        (readings (atlas_srv n2))
  /\ In (set_id (Some (ObjectId LocalServer (next_oid (local_srv n)))) r)
        (readings (atlas_srv n2)).
Proof.
  intros Hid Hup Hids Hfresh Hunused Hwin r saved n2.
  pose proof (db_save_connected now d n Hid Hup) as E. fold r in E.
  unfold n2, saved. rewrite E. cbn [fst snd].
  set (rL := set_id (Some (ObjectId LocalServer (next_oid (local_srv n)))) r).
  set (rA := set_id (Some (ObjectId AtlasServer (next_oid (atlas_srv n)))) r).
  set (n1 := mkNet _ _ _).
  assert (Hup1 : servers_up n1) by (split; reflexivity).
  assert (Hids1 : Forall (fun x => _id x <> None) (readings (local_srv n1))).
  { unfold n1. cbn. apply Forall_app. split; [exact Hids|].
    constructor; [discriminate | constructor]. }
  destruct (db_sync_pass now' true n1 Hup1 Hids1) as (ins & E1 & Hincl & Hall & _).
  unfold db_connected. rewrite E1. cbn [snd atlas_srv readings].
  split; [reflexivity|]. split.
  - unfold n1. cbn. apply in_or_app. left. apply in_or_app. right. now left.
  - assert (HrL : In rL (last_day now' n1)).
    { unfold last_day, n1. cbn [local_srv readings]. apply filter_In. split.
      - apply in_or_app. right. now left.
      - unfold ts_gte. cbn. now apply Z.leb_le. }
    specialize (Hall rL _ HrL eq_refl).
    apply existsb_exists in Hall. destruct Hall as (x & Hx & Hxid).
    assert (Ex : x = rL).
    { unfold n1 in Hx. cbn [atlas_srv readings] in Hx.
      apply in_app_or in Hx. destruct Hx as [Hx|Hx].
      - apply in_app_or in Hx. destruct Hx as [Hx|[<-|[]]].
        + rewrite (Hunused x Hx) in Hxid. discriminate.
        + discriminate Hxid.
      - apply Hincl in Hx. unfold last_day in Hx. apply filter_In in Hx.
        destruct Hx as [Hx _]. unfold n1 in Hx. cbn [local_srv readings] in Hx.
        apply in_app_or in Hx. destruct Hx as [Hx|[<-|[]]]; [|reflexivity].
        unfold has_id in Hxid. destruct (_id x) as [j|] eqn:Ej; [|discriminate].
        apply IdVal_eqb_eq in Hxid. subst j.
        pose proof (Hfresh x _ Hx Ej). lia. }
    subst x. exact Hx.
Qed.

(** A first reading on empty servers: after the sync Atlas holds it twice. *)
Lemma db_save_then_sync_duplicates_witness :
  let n := mkNet empty_mongo empty_mongo true in
  let saved := DbService.save_reading 100 reading0 db_connected n in
  let n2 := snd (DbService.sync_offline_data 200 (snd (fst saved)) (snd saved)) in
  map ts_of (readings (atlas_srv n2)) = [100; 100]%Z
  /\ In (set_id (Some (ObjectId LocalServer 0))
           (set_server_timestamp (Some (TsDatetime 100)) reading0))
        (readings (atlas_srv n2)).
Proof.
  intros n saved n2. split; [reflexivity|].
  destruct (db_save_then_sync_duplicates 100 200 reading0 n) as (_ & _ & H).
  - reflexivity.
  - split; reflexivity.
  - constructor.
  - exact oid_fresh_empty.
  - intros x [].
  - unfold hours_before. lia.
  - exact H.
Defined.
(** ** The queries on the local server: filter and limit *)

Lemma Forall_filter_true {A} (q : A -> bool) l :
  Forall (fun d => q d = true) (filter q l).
Proof.
  apply Forall_forall. intros x Hx. apply filter_In in Hx. apply Hx.
Qed.

Lemma Forall_cursor_limit {A} (P : A -> Prop) limit l :
  Forall P l -> Forall P (cursor_limit limit l).
Proof.
  intro H. unfold cursor_limit. destruct (limit =? 0)%Z; [exact H|].
  now apply Forall_firstn.
Qed.

Lemma Forall_cursor_sort (P : Doc -> Prop) dir l :
  Forall P l -> Forall P (cursor_sort dir l).
Proof. intro H. destruct dir; simpl; now apply Forall_sort_by. Qed.

Lemma length_cursor_limit {A} limit (l : list A) :
  limit <> 0%Z -> (Z.of_nat (List.length (cursor_limit limit l)) <= Z.abs limit)%Z.
Proof.
  intro H. unfold cursor_limit. apply Z.eqb_neq in H. rewrite H.
  rewrite length_firstn. lia.
Qed.

Lemma py_str_StrOf i : exists j, py_str i = StrOf j.
Proof. destruct i; simpl; eauto. Qed.

Lemma app_stringify_all_Forall (P P' : Doc -> Prop) :
  (forall d d', P d -> App.stringify_doc d = Ok d' -> P' d') ->
  forall l l', Forall P l -> App.stringify_all l = Ok l' ->
               Forall P' l' /\ List.length l' = List.length l.
Proof.
  intros Hstep. induction l as [|d l IH]; intros l' Hl H; simpl in H.
  - injection H as <-. split; [constructor | reflexivity].
  - inversion Hl as [|? ? Hd Hl']; subst.
    destruct (App.stringify_doc d) as [d'|] eqn:Ed; [|discriminate].
    destruct (App.stringify_all l) as [r|]; [|discriminate].
    injection H as <-. destruct (IH r Hl' eq_refl) as [H1 H2].
    split; [constructor; eauto | simpl; now rewrite H2].
Qed.

Lemma app_server_query db q limit (s : App.DatabaseService) n (P P' : Doc -> Prop) :
  (forall d, q d = true -> P d) ->
  (forall d d', P d -> App.stringify_doc d = Ok d' -> P' d') ->
  exists l n',
    try_except
      (cursor <- find_sorted db q Descending limit ;;
       App.lift_res (App.stringify_all cursor))
      (fun _ => ret []) s n = (Ok l, s, n')
    /\ Forall P' l /\ within_limit limit l
    /\ readings (local_srv n') = readings (local_srv n)
    /\ readings (atlas_srv n') = readings (atlas_srv n).
Proof.
  intros Hq Hstep.
  unfold try_except, bind, find_sorted, App.lift_res.
  pose proof (readings_pop_fault (server db n)) as Hr.
  assert (Hn : forall m, readings m = readings (server db n) ->
                 readings (local_srv (set_server db m n)) = readings (local_srv n)
                 /\ readings (atlas_srv (set_server db m n)) = readings (atlas_srv n)).
  { intros m Hm. destruct db; simpl in *; auto. }
  destruct (pop_fault (server db n)) as [[|] m]; simpl in Hr;
    specialize (Hn m Hr).
  - exists [], (set_server db m n). split; [reflexivity|].
    split; [constructor|]. split; [intros _; simpl; lia | exact Hn].
  - rewrite Hr.
    set (cursor := cursor_limit limit _).
    assert (Hc : Forall P cursor).
    { apply Forall_cursor_limit, Forall_cursor_sort.
      eapply Forall_impl; [|apply Forall_filter_true]. exact Hq. }
    pose proof (app_stringify_all_exn cursor) as He.
    destruct (App.stringify_all cursor) as [l|e] eqn:El.
    + destruct (app_stringify_all_Forall P P' Hstep cursor l Hc El) as [H1 H2].
      exists l, (set_server db m n). split; [reflexivity|].
      split; [exact H1|]. split; [|exact Hn].
      intro H0. rewrite H2. now apply length_cursor_limit.
    + simpl in He. rewrite He.
      exists [], (set_server db m n). split; [reflexivity|].
      split; [constructor|]. split; [intros _; simpl; lia | exact Hn].
Qed.

Lemma stringify_answer_of_device d d' :
  has_device_id d = true -> App.stringify_doc d = Ok d' -> answer_of_device d'.
Proof.
  unfold App.stringify_doc, has_device_id, answer_of_device.
  intros Hd H. destruct (_id d) as [i|]; [|discriminate]. injection H as <-.
  cbn. split; [now apply String.eqb_eq|].
  destruct (py_str_StrOf i) as [j ->]. now exists j.
Qed.

Lemma stringify_stamped_since cutoff d d' :
  ts_gte cutoff d = true -> App.stringify_doc d = Ok d' -> stamped_since cutoff d'.
Proof.
  unfold App.stringify_doc, ts_gte, stamped_since.
  intros Hd H. destruct (_id d) as [i|]; [|discriminate]. injection H as <-.
  cbn. destruct (server_timestamp d) as [[t|t]|]; try discriminate.
  exists t. split; [reflexivity | now apply Z.leb_le].
Qed.

(** X18.  What the two queries of [app.py] answer from the local server.
    With a local handle, in every state of the servers, both return a
    list and leave the service and every stored document as they are.  Each document
    answered carries this device's id and a string under ['_id']; the
    range query answers only documents stamped at or after
    [now - hours], the stamp converted to an ISO string; and unless the
    limit is 0 neither answers more than [|limit|] documents. *)
Theorem server_queries_filter_and_limit now hours limit s n :
  App.local_mongo_db s <> None ->
  (exists l n',
      App.get_latest_readings limit s n = (Ok l, s, n')
      /\ Forall answer_of_device l /\ within_limit limit l
      /\ readings (local_srv n') = readings (local_srv n)
      /\ readings (atlas_srv n') = readings (atlas_srv n))
  /\ (exists l n',
      App.get_historical_data now hours limit s n = (Ok l, s, n')
      /\ Forall (fun d => answer_of_device d
                          /\ stamped_since (hours_before now hours) d) l
      /\ within_limit limit l
      /\ readings (local_srv n') = readings (local_srv n)
      /\ readings (atlas_srv n') = readings (atlas_srv n)).
Proof.
  intro Hl. destruct s as [[db|] at_ ua sim]; [clear Hl | now elim Hl].
  split.
  - unfold App.get_latest_readings, App.get_latest_readings_body.
    apply (app_server_query db has_device_id limit _ n
             (fun d => has_device_id d = true) answer_of_device).
    + auto.
    + apply stringify_answer_of_device.
  - unfold App.get_historical_data, App.get_historical_data_body.
    apply (app_server_query db _ limit _ n
             (fun d => ts_gte (hours_before now hours) d = true
                       /\ has_device_id d = true)
             (fun d => answer_of_device d
                       /\ stamped_since (hours_before now hours) d)).
    + intros d H. apply andb_true_iff in H. exact H.
    + intros d d' [H1 H2] E. split.
      * eapply stringify_answer_of_device; eauto.
      * eapply stringify_stamped_since; eauto.
Qed.

(** The range query for one document of the last hour, after the outage
    of [clock_forward]. *)
Lemma server_queries_filter_and_limit_witness :
  exists l n',
    App.get_historical_data 300 1 1 connected (snd clock_forward)
    = (Ok l, connected, n')
    /\ Forall (fun d => answer_of_device d
                        /\ stamped_since (hours_before 300 1) d) l
    /\ within_limit 1 l.
Proof.
  destruct (server_queries_filter_and_limit 300 1 1 connected (snd clock_forward))
    as [_ (l & n' & E & Hf & Hl & _)].
  - discriminate.
  - exists l, n'. split; [exact E|]. split; [exact Hf | exact Hl].
Defined.
(** ** The light sensor *)

Lemma is_byte_In b : is_byte b -> In b bytes.
Proof.
  intros [H0 H1]. unfold bytes. apply in_map_iff. exists (Z.to_nat b).
  split; [lia|]. apply in_seq. lia.
Qed.

(** All 65536 measurements, evaluated. *)
Lemma stored_lux_table :
  forallb (fun hi => forallb (fun lo => (stored_lux hi lo =? (5 * (256 * hi + lo)) / 6)%Z)
                             bytes) bytes = true.
Proof. vm_compute. reflexivity. Qed.

Lemma stored_lux_eq hi lo :
  is_byte hi -> is_byte lo -> stored_lux hi lo = ((5 * (256 * hi + lo)) / 6)%Z.
Proof.
  intros Hhi Hlo. pose proof stored_lux_table as H.
  rewrite forallb_forall in H. specialize (H hi (is_byte_In hi Hhi)).
  rewrite forallb_forall in H. specialize (H lo (is_byte_In lo Hlo)).
  now apply Z.eqb_eq in H.
Qed.

(** X19.  The light reading.  On real hardware with the BH1750 present,
    a measurement of two bytes [hi], [lo] is stored as the whole number
    of lux [floor(5 * raw / 6)] with [raw = 256 * hi + lo]: dividing by
    1.2, rounding to one decimal and truncating never reaches the next
    whole number.  The stored value lies between 0 and 54612. *)
Theorem light_intensity_of_bytes p svc inp hi lo :
  SIMULATION_MODE p = false -> bh1750 svc = true ->
  light_bytes inp = Some (hi, lo) -> is_byte hi -> is_byte lo ->
  let lux := light_intensity (read_sensors p svc inp) in
  lux = (5 * (256 * hi + lo) / 6)%Z /\ (0 <= lux <= 54612)%Z.
Proof.
  intros Hp Hb Hl Hhi Hlo lux.
  assert (E : lux = stored_lux hi lo).
  { destruct (read_sensors_hardware p svc inp Hp) as (_ & H & _).
    unfold lux. rewrite H, Hb. unfold read_light_level. rewrite Hl.
    reflexivity. }
  rewrite E, (stored_lux_eq hi lo Hhi Hlo). split; [reflexivity|].
  destruct Hhi, Hlo. Z.div_mod_to_equations. lia.
Qed.

(** The bytes (1, 44), a raw count of 300: 250 lux. *)
Lemma light_intensity_of_bytes_witness :
  let svc := mkSensors reading0 true true true in
  let inp := mkInputs (Scd40Ready (Some 25) (Some 70) None) (Some (1, 44)%Z)
               (Some (2 # 10)) 0 0 0 0 0 7 in
  light_intensity (read_sensors pi_platform svc inp) = 250%Z.
Proof.
  intros svc inp.
  destruct (light_intensity_of_bytes pi_platform svc inp 1 44) as [H _];
    [ reflexivity | reflexivity | reflexivity | split; lia | split; lia
    | exact H ].
Defined.
(** ** The replicated flag is sound *)

Lemma same_data_refl n : same_data n n.
Proof. repeat split. Qed.

Lemma same_data_trans a b c : same_data a b -> same_data b c -> same_data a c.
Proof.
  intros (H1 & H2 & H3) (K1 & K2 & K3). repeat split; congruence.
Qed.

Lemma sound_same_data n n' : same_data n n' -> sound n -> sound n'.
Proof.
  intros (H1 & H2 & H3) [Hf Hs]. split.
  - intros d k Hd Hi. rewrite H1 in Hd. rewrite H2. eapply Hf; eauto.
  - intros d Hd Ht. rewrite H1 in Hd. destruct (Hs d Hd Ht) as (a & Ha & E).
    exists a. rewrite H3. auto.
Qed.

Section SameData.
Context {Self : Type}.

Lemma same_pop db (n : Net) :
  same_data n (set_server db (snd (pop_fault (server db n))) n).
Proof.
  unfold pop_fault. destruct db; simpl;
    [destruct (faults (local_srv n)) | destruct (faults (atlas_srv n))];
    repeat split.
Qed.

Lemma same_ping db : steps (Self := Self) same_data (ping db).
Proof.
  intros s n. unfold ping. pose proof (same_pop db n) as H.
  destruct (pop_fault (server db n)) as [[|] m]; exact H.
Qed.

Lemma same_find db q : steps (Self := Self) same_data (find db q).
Proof.
  intros s n. unfold find. pose proof (same_pop db n) as H.
  destruct (pop_fault (server db n)) as [[|] m]; exact H.
Qed.

Lemma same_find_sorted db q dir limit :
  steps (Self := Self) same_data (find_sorted db q dir limit).
Proof.
  intros s n. unfold find_sorted. pose proof (same_pop db n) as H.
  destruct (pop_fault (server db n)) as [[|] m]; exact H.
Qed.

End SameData.

Lemma steps_app_lift_same {A} (r : Res A) : steps same_data (App.lift_res r).
Proof. intros s n. apply same_data_refl. Qed.

Ltac same :=
  repeat first
    [ apply same_ping | apply same_find | apply same_find_sorted
    | apply steps_ret; exact same_data_refl
    | apply steps_get_self; exact same_data_refl
    | apply steps_modify_self; exact same_data_refl
    | apply steps_app_lift_same
    | apply (steps_bind same_data same_data_trans); [|intro]
    | apply (steps_try_except same_data same_data_trans); [|intro]
    | match goal with
      | |- steps _ (match ?x with _ => _ end) => destruct x
      | |- steps _ (if ?x then _ else _) => destruct x
      | |- steps _ (let '(_, _) := ?x in _) => destruct x
      end ].

Lemma same_get_latest_readings limit :
  steps same_data (App.get_latest_readings limit).
Proof. unfold App.get_latest_readings, App.get_latest_readings_body. same. Qed.

Lemma same_get_historical_data now hours limit :
  steps same_data (App.get_historical_data now hours limit).
Proof. unfold App.get_historical_data, App.get_historical_data_body. same. Qed.

Lemma keeps_app_lift_res {B A} (f : App.DatabaseService -> B) (r : Res A) :
  keeps f (App.lift_res r).
Proof. intros s n. reflexivity. Qed.

Lemma queries_keep_handles :
  (forall limit,
      keeps (fun s => (App.using_atlas s, App.atlas_mongo_db s, App.local_mongo_db s))
            (App.get_latest_readings limit))
  /\ (forall now hours limit,
      keeps (fun s => (App.using_atlas s, App.atlas_mongo_db s, App.local_mongo_db s))
            (App.get_historical_data now hours limit)).
Proof.
  split; intros;
    unfold App.get_latest_readings, App.get_latest_readings_body,
      App.get_historical_data, App.get_historical_data_body;
    repeat first
      [ apply keeps_app_lift_res
      | apply keeps_find_sorted
      | apply keeps_get_self
      | apply keeps_ret
      | progress keeps
      | match goal with
        | |- keeps _ (let '(_, _) := ?x in _) => destruct x
        end ].
Qed.

Lemma for_each_insert_result docs : forall (s : App.DatabaseService) n,
  let out := for_each docs push_to_atlas s n in
  local_srv (snd out) = local_srv n
  /\ exists k ins,
       readings (atlas_srv (snd out)) = readings (atlas_srv n) ++ ins
       /\ map (set_id None) ins = map App.strip_local_fields (firstn k docs)
       /\ (fst (fst out) = Ok tt -> k = List.length docs).
Proof.
  induction docs as [|d docs IH]; intros s n; cbv zeta.
  - simpl. split; [reflexivity|]. exists 0%nat, [].
    rewrite app_nil_r. auto.
  - cbn [for_each]. unfold bind.
    destruct (faults (atlas_srv n)) as [|[|] fs] eqn:Ef.
    + assert (E : push_to_atlas d s n
                  = (Ok tt, s,
                     mkNet (local_srv n)
                       (mkMongo (readings (atlas_srv n)
                                 ++ [set_id (Some (ObjectId AtlasServer (next_oid (atlas_srv n))))
                                       (App.strip_local_fields d)])
                                (S (next_oid (atlas_srv n))) [])
                       (mongodb_uri n))).
      { unfold push_to_atlas, bind, insert_one, pop_fault. cbn [server].
        rewrite Ef. simpl. rewrite Ef. reflexivity. }
      rewrite E.
      match goal with
      | |- context [for_each docs push_to_atlas s ?n1] =>
          specialize (IH s n1)
      end.
      cbv zeta in IH. destruct IH as (E1 & k & ins & E2 & E3 & E4).
      split; [exact E1|].
      exists (S k). eexists. rewrite E2. cbn [atlas_srv readings].
      rewrite <- app_assoc. split; [reflexivity|]. simpl. rewrite E3.
      split; [reflexivity|]. intro H. now rewrite (E4 H).
    + rewrite (push_to_atlas_fault d s n fs Ef). simpl.
      split; [reflexivity|]. exists 0%nat, []. rewrite app_nil_r.
      split; [reflexivity|]. split; [reflexivity|]. discriminate.
    + rewrite (push_to_atlas_ok d s n fs Ef).
      match goal with
      | |- context [for_each docs push_to_atlas s ?n1] =>
          specialize (IH s n1)
      end.
      cbv zeta in IH. destruct IH as (E1 & k & ins & E2 & E3 & E4).
      split; [exact E1|].
      exists (S k). eexists. rewrite E2. cbn [atlas_srv readings].
      rewrite <- app_assoc. split; [reflexivity|]. simpl. rewrite E3.
      split; [reflexivity|]. intro H. now rewrite (E4 H).
Qed.

Lemma sync_effect ua sim n :
  let s := App.mkDb (Some LocalServer) (Some AtlasServer) ua sim in
  let n' := snd (App.sync_offline_data s n) in
  next_oid (local_srv n') = next_oid (local_srv n)
  /\ exists k ins,
       readings (atlas_srv n') = readings (atlas_srv n) ++ ins
       /\ map (set_id None) ins
          = map App.strip_local_fields (firstn k (unreplicated n))
       /\ (readings (local_srv n') = readings (local_srv n)
           \/ (readings (local_srv n') = mark_synced_many (readings (local_srv n))
               /\ k = List.length (unreplicated n))).
Proof.
  intros s n'. subst n'.
  remember (App.sync_offline_data s n) as res eqn:Eres.
  unfold App.sync_offline_data in Eres.
  unfold bind at 1 in Eres.
  cbn [get_self s App.atlas_mongo_db App.local_mongo_db] in Eres.
  unfold try_except in Eres. unfold bind at 1 in Eres.
  unfold find at 1, pop_fault in Eres. cbn [server] in Eres.
  unfold unreplicated.
  assert (Hnil : forall m, readings m = readings (local_srv n) ->
                   next_oid m = next_oid (local_srv n) ->
                   forall r, res = (r, s, mkNet m (atlas_srv n) (mongodb_uri n)) ->
     next_oid (local_srv (snd res)) = next_oid (local_srv n)
     /\ exists k ins,
       readings (atlas_srv (snd res)) = readings (atlas_srv n) ++ ins
       /\ map (set_id None) ins
          = map App.strip_local_fields
              (firstn k (filter not_synced (readings (local_srv n))))
       /\ (readings (local_srv (snd res)) = readings (local_srv n)
           \/ (readings (local_srv (snd res))
               = mark_synced_many (readings (local_srv n))
               /\ k = List.length (filter not_synced (readings (local_srv n)))))).
  { intros m Hr Ho r ->. simpl. split; [exact Ho|].
    exists 0%nat, []. rewrite app_nil_r. auto. }
  destruct (faults (local_srv n)) as [|[|] fs] eqn:Ef;
    cbn [readings next_oid faults set_server local_srv atlas_srv mongodb_uri] in Eres.
  2:{ simpl in Eres. eapply Hnil; [| |exact Eres]; reflexivity. }
  - destruct (filter not_synced (readings (local_srv n))) as [|d0 docs] eqn:Eu.
    { simpl in Eres. eapply Hnil; [| |exact Eres]; reflexivity. }
    clear Hnil. unfold bind at 1 in Eres.
    set (n1 := mkNet (local_srv n) (atlas_srv n) (mongodb_uri n)) in Eres.
    change (fun doc : Doc =>
              _ <- insert_one AtlasServer (App.strip_local_fields doc) ;; ret tt)
      with push_to_atlas in Eres.
    pose proof (for_each_insert_result (d0 :: docs) s n1) as H. cbv zeta in H.
    destruct (for_each (d0 :: docs) push_to_atlas s n1) as [[r s'] n2].
    cbn [fst snd] in H. destruct H as (Hl & k & ins & E1 & E2 & E3).
    unfold n1 in Hl, E1. cbn [local_srv atlas_srv] in Hl, E1.
    destruct r as [[]|e].
    + unfold update_many_synced, pop_fault in Eres. cbn [server] in Eres.
      rewrite Hl, Ef in Eres. simpl in Eres. subst res. simpl.
      split; [reflexivity|]. exists k, ins. split; [exact E1|].
      split; [exact E2|]. right. split; [reflexivity | now apply E3].
    + assert (Hn : snd res = n2).
      { subst res. destruct (is_Exception e); reflexivity. }
      rewrite Hn, Hl. split; [reflexivity|]. exists k, ins. auto.
  - destruct (filter not_synced (readings (local_srv n))) as [|d0 docs] eqn:Eu.
    { simpl in Eres. eapply Hnil; [| |exact Eres]; reflexivity. }
    clear Hnil. unfold bind at 1 in Eres.
    set (n1 := mkNet _ (atlas_srv n) (mongodb_uri n)) in Eres.
    change (fun doc : Doc =>
              _ <- insert_one AtlasServer (App.strip_local_fields doc) ;; ret tt)
      with push_to_atlas in Eres.
    pose proof (for_each_insert_result (d0 :: docs) s n1) as H. cbv zeta in H.
    destruct (for_each (d0 :: docs) push_to_atlas s n1) as [[r s'] n2].
    cbn [fst snd] in H. destruct H as (Hl & k & ins & E1 & E2 & E3).
    unfold n1 in Hl, E1. cbn [local_srv atlas_srv] in Hl, E1.
    destruct r as [[]|e].
    + unfold update_many_synced, pop_fault in Eres. cbn [server] in Eres.
      rewrite Hl in Eres. cbn [faults readings next_oid] in Eres.
      destruct fs as [|[|] fs]; simpl in Eres; subst res; simpl;
        (split; [reflexivity|]); exists k, ins; (split; [exact E1|]);
        (split; [exact E2|]);
        first [ right; split; [reflexivity | now apply E3] | left; reflexivity ].
    + assert (Hn : snd res = n2).
      { subst res. destruct (is_Exception e); reflexivity. }
      rewrite Hn, Hl. split; [reflexivity|]. exists k, ins. auto.
Qed.

Lemma sound_atlas_grows lr lo lf lf' A A' u u' :
  sound (mkNet (mkMongo lr lo lf) A u) ->
  incl (readings A) (readings A') ->
  sound (mkNet (mkMongo lr lo lf') A' u').
Proof.
  intros [Hf Hs] Hincl. split.
  - exact Hf.
  - intros d Hd Ht. destruct (Hs d Hd Ht) as (a & Ha & E).
    exists a. split; [apply Hincl, Ha | exact E].
Qed.

Lemma sound_append lr lo lf lf' A A' u u' x :
  sound (mkNet (mkMongo lr lo lf) A u) ->
  incl (readings A) (readings A') ->
  _id x = Some (ObjectId LocalServer lo) ->
  (synced_to_atlas x = Some true ->
   exists a, In a (readings A') /\ set_id None a = App.strip_local_fields x) ->
  sound (mkNet (mkMongo (lr ++ [x]) (S lo) lf') A' u').
Proof.
  intros [Hf Hs] Hincl Hx Hcopy. split.
  - intros d k Hd Hi. cbn [local_srv readings next_oid] in *.
    apply in_app_or in Hd. destruct Hd as [Hd|[<-|[]]].
    + specialize (Hf d k Hd Hi). simpl in Hf. lia.
    + rewrite Hx in Hi. injection Hi as <-. lia.
  - intros d Hd Ht. cbn [local_srv readings] in Hd.
    apply in_app_or in Hd. destruct Hd as [Hd|[<-|[]]].
    + destruct (Hs d Hd Ht) as (a & Ha & E).
      exists a. split; [apply Hincl, Ha | exact E].
    + exact (Hcopy Ht).
Qed.

Lemma save_sound now d s n :
  _id d = None -> app_handles_ok s -> sound n ->
  sound (snd (App.save_reading now d s n)).
Proof.
  intros Hid [Hl Ha] Hs. destruct s as [local atlas ua sim].
  cbn [App.local_mongo_db App.atlas_mongo_db] in Hl, Ha.
  destruct local as [[|]|]; [ | now elim Hl | ].
  2:{ unfold App.save_reading, try_except, bind, get_self.
      cbn [App.local_mongo_db App.simulation_data].
      destruct sim; exact Hs. }
  pose proof (oid_fresh_next _ (proj1 Hs)) as Hnext.
  destruct n as [[lr lo lf] [ar ao af] u].
  cbn [local_srv readings next_oid] in Hnext.
  destruct d as [te hu co li wa ti de st oi sy]. cbn [_id] in Hid. subst oi.
  assert (Hself : forall x, has_id (ObjectId LocalServer lo)
                              (set_id (Some (ObjectId LocalServer lo)) x) = true).
  { intro x. unfold has_id. simpl. now rewrite Nat.eqb_refl. }
  unfold App.save_reading, try_except, bind, get_self, insert_one,
    update_one_synced, pop_fault, ret.
  destruct lf as [|[|] [|[|] lf]];
    (destruct ua; [destruct atlas as [[|]|]; [now elim Ha| |]|]);
    try destruct af as [|[|] af];
    simpl;
    try (rewrite mark_synced_one_last; [|exact Hnext|apply Hself]);
    first
      [ eapply sound_atlas_grows; [exact Hs|]; simpl;
        first [apply incl_refl | apply incl_appl, incl_refl]
      | eapply sound_append; [exact Hs| | reflexivity |]; simpl;
        [ first [apply incl_refl | apply incl_appl, incl_refl]
        | first [ discriminate
                | intros _; eexists; split;
                  [apply in_or_app; right; left; reflexivity | reflexivity] ] ] ].
Qed.

Lemma In_mark_synced_many d' l :
  In d' (mark_synced_many l) ->
  exists d, In d l /\ _id d' = _id d
            /\ App.strip_local_fields d' = App.strip_local_fields d
            /\ (synced_to_atlas d = Some true \/ not_synced d = true).
Proof.
  unfold mark_synced_many. intro H. apply in_map_iff in H.
  destruct H as (d & E & Hd). exists d. split; [exact Hd|].
  destruct (not_synced d) eqn:En; subst d'.
  - repeat split; auto.
  - repeat split; auto. left. unfold not_synced in En.
    destruct (synced_to_atlas d) as [[|]|]; try discriminate. reflexivity.
Qed.

Lemma sync_sound s n :
  app_handles_ok s -> sound n -> sound (snd (App.sync_offline_data s n)).
Proof.
  intros [Hl Ha] Hs. destruct s as [local atlas ua sim].
  cbn [App.local_mongo_db App.atlas_mongo_db] in Hl, Ha.
  destruct atlas as [[|]|]; [now elim Ha | |];
    [|rewrite sync_without_handle; [exact Hs | left; reflexivity]].
  destruct local as [[|]|]; [|now elim Hl|];
    [|rewrite sync_without_handle; [exact Hs | right; reflexivity]].
  destruct (sync_effect ua sim n) as (Ho & k & ins & E1 & E2 & Hcases).
  set (n' := snd (App.sync_offline_data _ n)) in *.
  destruct Hs as [Hf Hs].
  destruct Hcases as [El | [El Ek]].
  - split.
    + intros d j Hd Hi. rewrite El in Hd. rewrite Ho. eapply Hf; eauto.
    + intros d Hd Ht. rewrite El in Hd. destruct (Hs d Hd Ht) as (a & Hin & E).
      exists a. rewrite E1. split; [apply in_or_app; now left | exact E].
  - split.
    + intros d' j Hd Hi. rewrite El in Hd.
      destruct (In_mark_synced_many d' _ Hd) as (d & Hin & Eid & _).
      rewrite Ho. apply (Hf d j Hin). now rewrite <- Eid.
    + intros d' Hd _. rewrite El in Hd.
      destruct (In_mark_synced_many d' _ Hd) as (d & Hin & _ & Estrip & Hflag).
      unfold has_copy. rewrite Estrip, E1.
      destruct Hflag as [Ht | Hn].
      * destruct (Hs d Hin Ht) as (a & Ha' & E).
        exists a. split; [apply in_or_app; now left | exact E].
      * assert (Hu : In d (unreplicated n)).
        { unfold unreplicated. apply filter_In. auto. }
        rewrite Ek, firstn_all in E2.
        assert (Hm : In (App.strip_local_fields d)
                        (map (set_id None) ins)).
        { rewrite E2. now apply in_map. }
        apply in_map_iff in Hm. destruct Hm as (a & E & Hin').
        exists a. split; [apply in_or_app; now right | exact E].
Qed.

Lemma connect_sound s n :
  app_handles_ok s -> sound n ->
  app_handles_ok (snd (fst (App.connect_atlas s n)))
  /\ sound (snd (App.connect_atlas s n)).
Proof.
  intros Hh Hs. split.
  - rewrite connect_atlas_self. destruct Hh as [Hl Ha].
    destruct (atlas_probe_ok n); [|destruct (mongodb_uri n)];
      split; simpl; auto; discriminate.
  - unfold App.connect_atlas, try_except.
    destruct (mongodb_uri n) eqn:Eu; [|exact Hs].
    unfold bind at 1. cbn [modify_self]. unfold bind at 1.
    pose proof (same_ping (Self := App.DatabaseService) AtlasServer
                  (App.set_atlas (Some AtlasServer) s) n) as Hp.
    destruct (ping AtlasServer (App.set_atlas (Some AtlasServer) s) n)
      as [[[[]|e] s1] n1] eqn:Ep; cbn [snd] in Hp.
    + assert (Es1 : s1 = App.set_atlas (Some AtlasServer) s).
      { unfold ping in Ep. destruct (pop_fault _) as [[|] m]; now inversion Ep. }
      subst s1. unfold bind at 1. cbn [modify_self]. unfold bind at 1.
      assert (Hh' : app_handles_ok
                      (App.set_using_atlas true (App.set_atlas (Some AtlasServer) s))).
      { destruct Hh as [Hl Ha]. split; simpl; [exact Hl | discriminate]. }
      pose proof (sync_sound _ n1 Hh' (sound_same_data n n1 Hp Hs)) as Hsync.
      destruct (sync_never_raises
                  (App.set_using_atlas true (App.set_atlas (Some AtlasServer) s)) n1)
        as (x & s2 & n2 & E).
      rewrite E in Hsync |- *. exact Hsync.
    + assert (He : is_Exception e = true).
      { unfold ping in Ep. destruct (pop_fault _) as [[|] m]; now inversion Ep. }
      rewrite He. simpl. apply (sound_same_data n n1 Hp Hs).
Qed.

Lemma forget_outcome {A} (c : App.DbM A) s n :
  snd (fst (forget c s n)) = snd (fst (c s n))
  /\ snd (forget c s n) = snd (c s n).
Proof.
  unfold forget, bind. destruct (c s n) as [[[a|e] s1] n1]; split; reflexivity.
Qed.

Lemma health_pass_cases s n :
  let out := App.database_health_monitor_pass s n in
  (snd (fst out) = s /\ snd out = n)
  \/ (snd (fst out) = snd (fst (App.connect_atlas s n))
      /\ snd out = snd (App.connect_atlas s n)).
Proof.
  unfold App.database_health_monitor_pass, try_except, bind. cbn [get_self].
  destruct (App.using_atlas s); [left; split; reflexivity|]. right.
  destruct (App.connect_atlas s n) as [[[r|e] s1] n1]; simpl;
    [|destruct (is_Exception e)]; split; reflexivity.
Qed.

Lemma handles_of_view s s' :
  (App.using_atlas s', App.atlas_mongo_db s', App.local_mongo_db s')
  = (App.using_atlas s, App.atlas_mongo_db s, App.local_mongo_db s) ->
  app_handles_ok s -> app_handles_ok s'.
Proof.
  intros E [Hl Ha]. injection E as _ Eat Elo. unfold app_handles_ok.
  now rewrite Eat, Elo.
Qed.

Lemma run_op_sound op s n :
  fresh_saves [op] -> app_handles_ok s -> sound n ->
  app_handles_ok (snd (fst (run_op op s n))) /\ sound (snd (run_op op s n)).
Proof.
  intros Hop Hh Hs. inversion Hop as [|? ? Hfresh _]; subst.
  destruct op as [now d| | | |limit|now hours limit]; cbn [run_op].
  - destruct (forget_outcome (App.save_reading now d) s n) as [-> ->]. split.
    + eapply handles_of_view; [apply save_reading_keeps_connection | exact Hh].
    + now apply save_sound.
  - split.
    + now rewrite (sync_keeps_self s n).
    + now apply sync_sound.
  - destruct (forget_outcome App.connect_atlas s n) as [-> ->].
    now apply connect_sound.
  - destruct (health_pass_cases s n) as [[-> ->] | [-> ->]]; [auto|].
    now apply connect_sound.
  - destruct (forget_outcome (App.get_latest_readings limit) s n) as [-> ->].
    split.
    + eapply handles_of_view; [apply (proj1 queries_keep_handles) | exact Hh].
    + eapply sound_same_data; [apply same_get_latest_readings | exact Hs].
  - destruct (forget_outcome (App.get_historical_data now hours limit) s n)
      as [-> ->].
    split.
    + eapply handles_of_view; [apply (proj2 queries_keep_handles) | exact Hh].
    + eapply sound_same_data; [apply same_get_historical_data | exact Hs].
Qed.

Lemma run_ops_sound ops : forall s n,
  fresh_saves ops -> app_handles_ok s -> sound n ->
  sound (snd (run_ops ops s n)).
Proof.
  induction ops as [|op ops IH]; intros s n Hops Hh Hs; [exact Hs|].
  inversion Hops as [|? ? Hop Hrest]; subst. cbn [run_ops].
  destruct (run_op_sound op s n) as [Hh' Hs']; auto.
  { constructor; [exact Hop | constructor]. }
  destruct (run_op op s n) as [[r s1] n1]. now apply IH.
Qed.

Lemma startup_sound lf af u :
  let '(s0, n0) := new_DatabaseService
                     (mkNet (mkMongo [] 0 lf) (mkMongo [] 0 af) u) in
  app_handles_ok s0 /\ sound n0.
Proof.
  unfold new_DatabaseService, App.setup_databases.
  set (n := mkNet _ _ _).
  unfold bind at 1.
  destruct (setup_local_mongodb_outcome n) as (n1 & E & Ha & Hu & Hr).
  rewrite E.
  assert (Hs1 : sound n1).
  { split.
    - intros d k Hd. rewrite Hr in Hd. destruct Hd.
    - intros d Hd. rewrite Hr in Hd. destruct Hd. }
  assert (Hh1 : app_handles_ok
                  (if local_setup_fails n then App.mkDb None None false (Some [])
                   else App.mkDb (Some LocalServer) None false None)).
  { destruct (local_setup_fails n); split; discriminate. }
  destruct (connect_sound _ n1 Hh1 Hs1) as [Hh2 Hs2].
  unfold bind.
  destruct (App.connect_atlas _ n1) as [[[r|e] s2] n2]; exact (conj Hh2 Hs2).
Qed.

(** X20.  The replicated flag tells the truth.  Along every sequential
    run of operations of the core (save, sync, connect, health monitor,
    the two queries), under any faults of the servers, a local record
    that carries [synced_to_atlas = True] has a copy in Atlas: a document
    that differs from it only in the local keys ['_id'] and
    ['synced_to_atlas'].  This holds from every state in which it holds
    (with handles on their own servers and readings that bring no
    ['_id']), and so from every start-up on empty servers. *)
Theorem replicated_flag_sound :
  (forall ops s n,
      fresh_saves ops -> app_handles_ok s ->
      oid_fresh (local_srv n) -> flag_sound n ->
      flag_sound (snd (run_ops ops s n)))
  /\ (forall ops lf af u,
      fresh_saves ops ->
      let '(s0, n0) := new_DatabaseService
                         (mkNet (mkMongo [] 0 lf) (mkMongo [] 0 af) u) in
      flag_sound (snd (run_ops ops s0 n0))).
Proof.
  split.
  - intros ops s n Hops Hh Hf Hs.
    apply (run_ops_sound ops s n Hops Hh (conj Hf Hs)).
  - intros ops lf af u Hops.
    pose proof (startup_sound lf af u) as H.
    destruct (new_DatabaseService _) as [s0 n0]. destruct H as [Hh Hs].
    apply (run_ops_sound ops s0 n0 Hops Hh Hs).
Qed.

(** A save during an Atlas outage, a save after it, a sync and a query. *)
Lemma replicated_flag_sound_witness :
  let ops := [OpSave 100 reading0; OpSave 200 reading0; OpSync; OpLatest 10] in
  let n := snd (run_ops ops connected atlas_outage) in
  List.length (readings (local_srv n)) = 2%nat
  /\ unreplicated n = []
  /\ flag_sound n.
Proof.
  intros ops n. split; [reflexivity|]. split; [reflexivity|].
  apply (proj1 replicated_flag_sound ops connected atlas_outage).
  - repeat constructor.
  - split; discriminate.
  - exact oid_fresh_empty.
  - intros d [].
Defined.
(** ** [database_service.py]: start-up and offline mode *)

Section Moves.
Context {Self : Type} (R : Self -> Self -> Prop).
Context (R_refl : forall s, R s s).
Context (R_trans : forall a b c, R a b -> R b c -> R a c).

Lemma moves_ret {A} (a : A) : moves R (ret a).
Proof. intros s n. apply R_refl. Qed.

Lemma moves_get_self : moves R get_self.
Proof. intros s n. apply R_refl. Qed.

Lemma moves_modify_self g : (forall s, R s (g s)) -> moves R (modify_self g).
Proof. intros H s n. apply H. Qed.

Lemma moves_bind {A C} (c : M Self A) (k : A -> M Self C) :
  moves R c -> (forall a, moves R (k a)) -> moves R (bind c k).
Proof.
  intros Hc Hk s n. unfold bind.
  specialize (Hc s n). destruct (c s n) as [[[a|e] s0] n0]; simpl in *.
  - eapply R_trans; [exact Hc | apply Hk].
  - exact Hc.
Qed.

Lemma moves_try_except {A} (c : M Self A) h :
  moves R c -> (forall e, moves R (h e)) -> moves R (try_except c h).
Proof.
  intros Hc Hh s n. unfold try_except.
  specialize (Hc s n). destruct (c s n) as [[[a|e] s0] n0]; simpl in *.
  - exact Hc.
  - destruct (is_Exception e); simpl; [|exact Hc].
    eapply R_trans; [exact Hc | apply Hh].
Qed.

Lemma moves_try_except_duplicate {A} (c h : M Self A) :
  moves R c -> moves R h -> moves R (try_except_duplicate c h).
Proof.
  intros Hc Hh s n. unfold try_except_duplicate.
  specialize (Hc s n). destruct (c s n) as [[[a|e] s0] n0]; simpl in *.
  - exact Hc.
  - destruct e; simpl; try exact Hc.
    eapply R_trans; [exact Hc | apply Hh].
Qed.

Lemma moves_for_each {A} (l : list A) (body : A -> M Self unit) :
  (forall x, moves R (body x)) -> moves R (for_each l body).
Proof.
  intro Hb. induction l as [|x l IH]; simpl.
  - apply moves_ret.
  - apply moves_bind; [apply Hb | intros _; exact IH].
Qed.

Lemma moves_keeps {A} (c : M Self A) : keeps (fun s => s) c -> moves R c.
Proof. intros H s n. rewrite (H s n). apply R_refl. Qed.

End Moves.

Lemma stays_offline_refl s : stays_offline s s.
Proof. repeat split; auto. Qed.

Lemma stays_offline_trans a b c :
  stays_offline a b -> stays_offline b c -> stays_offline a c.
Proof.
  intros (H1 & H2 & H3) (K1 & K2 & K3). repeat split; try congruence. auto.
Qed.

Lemma stays_offline_clear s : stays_offline s (DbService.set_using_atlas false s).
Proof. repeat split; simpl; auto. discriminate. Qed.

(** Breaks a computation of [database_service.py] down to the driver
    calls and the assignments of [using_atlas]. *)
Ltac moves :=
  repeat first
    [ apply moves_keeps;
      first [ apply keeps_ping | apply keeps_find | apply keeps_find_sorted
            | apply keeps_insert_one | apply keeps_update_one_synced
            | apply keeps_update_many_synced | apply keeps_ret
            | apply keeps_get_self ];
      exact stays_offline_refl
    | apply (moves_keeps stays_offline stays_offline_refl); solve
        [ apply keeps_ping | apply keeps_find | apply keeps_find_sorted
        | apply keeps_insert_one | apply keeps_ret | apply keeps_get_self ]
    | apply (moves_modify_self stays_offline); exact stays_offline_clear
    | apply (moves_bind stays_offline stays_offline_trans); [|intro]
    | apply (moves_try_except stays_offline stays_offline_trans); [|intro]
    | apply (moves_try_except_duplicate stays_offline stays_offline_trans)
    | apply (moves_for_each stays_offline stays_offline_refl stays_offline_trans); intro
    | match goal with
      | |- moves _ (DbService.lift_res _) => intros ? ?; apply stays_offline_refl
      | |- moves _ (match ?x with _ => _ end) => destruct x
      | |- moves _ (if ?x then _ else _) => destruct x
      end ].

Lemma moves_run_db_op op : moves stays_offline (run_db_op op).
Proof.
  destruct op; cbn [run_db_op];
    unfold db_forget, DbService.save_reading, DbService.sync_offline_data,
      DbService.get_latest_readings, DbService.get_latest_readings_body,
      DbService.get_historical_data, DbService.get_historical_data_body,
      DbService.test_connections;
    moves.
Qed.

Lemma db_sync_keeps_self now :
  keeps (fun s : DbService.DatabaseService => s) (DbService.sync_offline_data now).
Proof.
  unfold DbService.sync_offline_data.
  repeat first
    [ apply keeps_bind; [|intro] | apply keeps_try_except; [|intro]
    | apply keeps_try_except_duplicate | apply keeps_for_each; intro
    | apply keeps_get_self | apply keeps_ret | apply keeps_find
    | apply keeps_insert_one
    | match goal with
      | |- keeps _ (match ?x with _ => _ end) => destruct x
      end ].
Qed.

Lemma db_sync_never_raises now : never_raises (DbService.sync_offline_data now).
Proof.
  intros s n. unfold DbService.sync_offline_data, bind at 1. cbn [get_self].
  destruct (DbService.atlas_db s) as [atlas|]; [|unfold ret; eauto].
  destruct (DbService.local_db s) as [local|]; [|unfold ret; eauto].
  apply try_except_never_raises; [|intro; apply ret_never_raises].
  repeat first
    [ apply roe_bind; [|intro] | apply roe_try_except_duplicate
    | apply roe_for_each; intro | apply roe_find | apply roe_insert_one
    | apply roe_ret ].
Qed.

Lemma db_setup_local_mongodb_outcome n :
  exists n1,
    DbService.setup_local_mongodb (DbService.mkDb None None false) n
    = (Ok tt,
       DbService.mkDb (if local_setup_fails n then None else Some LocalServer)
                      None false,
       n1)
    /\ atlas_srv n1 = atlas_srv n /\ mongodb_uri n1 = mongodb_uri n
    /\ readings (local_srv n1) = readings (local_srv n).
Proof.
  destruct n as [[lr lo lf] a u].
  unfold DbService.setup_local_mongodb, local_setup_fails, try_except, bind,
    modify_self, ping, pop_fault, ret. cbn [server local_srv faults].
  destruct lf as [|[|] [|[|] [|[|] lf]]]; cbn; eexists; repeat split.
Qed.

Lemma db_connect_atlas_self now s n :
  snd (fst (DbService.connect_atlas now s n))
  = if atlas_probe_ok n
    then DbService.set_using_atlas true (DbService.set_atlas (Some AtlasServer) s)
    else if mongodb_uri n
         then DbService.set_atlas None
                (DbService.set_using_atlas false
                   (DbService.set_atlas (Some AtlasServer) s))
         else s.
Proof.
  unfold DbService.connect_atlas, atlas_probe_ok, try_except.
  destruct (mongodb_uri n) eqn:Eu; [|reflexivity].
  unfold bind at 1. cbn [modify_self]. unfold bind at 1.
  unfold ping, pop_fault. cbn [server atlas_srv].
  destruct (faults (atlas_srv n)) as [|[|] fs]; cbn [hd negb andb];
    try reflexivity;
    unfold bind at 1; cbn [modify_self]; unfold bind at 1;
    match goal with
    | |- context [DbService.sync_offline_data now ?s1 ?n1] =>
        pose proof (db_sync_keeps_self now s1 n1) as K;
        destruct (db_sync_never_raises now s1 n1) as (a & s2 & n2 & E);
        rewrite E in K |- *
    end; simpl in K; subst; reflexivity.
Qed.

Lemma run_db_ops_stays_offline ops : forall s n,
  stays_offline s (fst (run_db_ops ops s n)).
Proof.
  induction ops as [|op ops IH]; intros s n; cbn [run_db_ops].
  - apply stays_offline_refl.
  - pose proof (moves_run_db_op op s n) as H.
    destruct (run_db_op op s n) as [[r s1] n1]. cbn [fst snd] in H.
    eapply stays_offline_trans; [exact H | apply IH].
Qed.

(** X21.  [database_service.py]: start-up, and offline for good.  The
    start-up keeps the local handle exactly when the probe and the two
    index creations succeed (there is no other store), and Atlas is in
    use, with a handle, exactly when a URI is configured and the probe
    succeeds; the status reports that, with database type ['None'] when
    both failed.  After start-up no operation of the module (save, sync,
    the two queries, [test_connections]) changes a handle, and none sets
    [using_atlas]: a service that is offline stays offline along every
    run. *)
Theorem db_offline_is_permanent :
  (forall now n,
      let s := fst (DbService.new_DatabaseService now n) in
      DbService.local_db s
      = (if local_setup_fails n then None else Some LocalServer)
      /\ DbService.atlas_db s
         = (if atlas_probe_ok n then Some AtlasServer else None)
      /\ DbService.using_atlas s = atlas_probe_ok n
      /\ DbService.get_database_status s
         = (negb (local_setup_fails n), atlas_probe_ok n,
            negb (atlas_probe_ok n),
            if atlas_probe_ok n then MongoDBAtlas
            else if local_setup_fails n then NoDatabase else LocalMongoDB))
  /\ (forall ops s n,
      let s' := fst (run_db_ops ops s n) in
      DbService.local_db s' = DbService.local_db s
      /\ DbService.atlas_db s' = DbService.atlas_db s
      /\ (DbService.using_atlas s = false -> DbService.using_atlas s' = false)).
Proof.
  split.
  - intros now n s.
    assert (Es : s = if atlas_probe_ok n
                     then DbService.mkDb
                            (if local_setup_fails n then None else Some LocalServer)
                            (Some AtlasServer) true
                     else DbService.mkDb
                            (if local_setup_fails n then None else Some LocalServer)
                            None false).
    { unfold s, DbService.new_DatabaseService. unfold bind at 1.
      destruct (db_setup_local_mongodb_outcome n) as (n1 & E & Ha & Hu & _).
      rewrite E. unfold bind.
      pose proof (db_connect_atlas_self now
                    (DbService.mkDb
                       (if local_setup_fails n then None else Some LocalServer)
                       None false) n1) as Hc.
      assert (Ep : atlas_probe_ok n1 = atlas_probe_ok n).
      { unfold atlas_probe_ok. now rewrite Ha, Hu. }
      rewrite Ep, Hu in Hc.
      destruct (DbService.connect_atlas now _ n1) as [[[r|e] s2] n2];
        simpl in Hc; subst s2; simpl;
        destruct (atlas_probe_ok n) eqn:Eprobe; try reflexivity;
        destruct (mongodb_uri n); reflexivity. }
    rewrite Es. unfold DbService.get_database_status, is_not_None.
    destruct (atlas_probe_ok n), (local_setup_fails n); repeat split; reflexivity.
  - intros ops s n s'.
    destruct (run_db_ops_stays_offline ops s n) as (H1 & H2 & H3).
    fold s' in H1, H2, H3. split; [exact H1|]. split; [exact H2|].
    intro Hoff. destruct (DbService.using_atlas s') eqn:E; [|reflexivity].
    rewrite (H3 eq_refl) in Hoff. discriminate.
Qed.
